(** * CPM scheduler of civ-vision: dependency normalizer and schedule engine

    A shallow embedding of [src/lib/scheduler-dependencies.ts] and
    [src/lib/scheduler-engine.ts], and the properties the specification
    states about them.

    Conventions of the embedding.
    - A JavaScript number that reaches the code from outside is a [JsNumber]:
      a finite value (a rational, since every finite double is one), NaN or
      an infinity.  Once a value went through [Math.ceil], [Math.floor] or
      [Math.round] it is an integer, and day arithmetic is carried out in
      [Z]; the rounding error of doubles above 2^53 is not modelled.
    - A JavaScript string is a [string] of 8-bit code units.
    - A [Map] that the code only reads by key is a [gmap string _]; the one
      [Map] the code iterates with [forEach] ([inDegree]) keeps its
      insertion order in an association list.
    - The [while] loop of Kahn's algorithm runs on fuel, so
      [calculateSchedule] returns an [option]; [calculateSchedule_total]
      shows that the fuel it is given always suffices.
    - [console.error] in the fallback branch writes a log line and is left
      out.

    The file has four parts: the code, the definitions the properties are
    stated with, the lemmas, and the claims of the specification (C1 to
    C10), one theorem each. *)

From Stdlib Require Import ZArith QArith Qround Lqa Ascii String.
From stdpp Require Import base option list strings pretty gmap relations sorting.

Local Open Scope Z_scope.

(** ** JavaScript values *)

Inductive JsNumber :=
  | JsFinite (q : Q)
  | JsNaN
  | JsPosInfinity
  | JsNegInfinity.

Inductive JsValue :=
  | JsUndefined
  | JsNull
  | JsBoolean (b : bool)
  | JsNum (n : JsNumber)
  | JsString (s : string).

(** [Number.isFinite(v)] together with the value it then has. *)
Definition finiteNumber (v : JsValue) : option Q :=
  match v with
  | JsNum (JsFinite q) => Some q
  | _ => None
  end.

(** [Math.round] rounds half-way cases towards plus infinity. *)
Definition Math_round (q : Q) : Z := Qfloor (q + (1 # 2))%Q.

(** White space of [String.prototype.trim] among the code units below 256:
    TAB, LF, VT, FF, CR, SP and NBSP. *)
Definition isWhiteSpace (c : ascii) : bool :=
  match N_of_ascii c with
  | 9 | 10 | 11 | 12 | 13 | 32 | 160 => true
  | _ => false
  end%N.

Fixpoint trimStart (s : string) : string :=
  match s with
  | EmptyString => EmptyString
  | String c rest => if isWhiteSpace c then trimStart rest else s
  end.

Definition trimEnd (s : string) : string :=
  String.rev (trimStart (String.rev s)).

Definition trim (s : string) : string := trimEnd (trimStart s).

(** The string a template literal gives for an integer number ([-0] prints
    as ["0"], like [0]).  Decimal notation; JavaScript switches to exponent
    notation from 1e21 on, which is as injective as this one. *)
Definition numberToString (n : Z) : string := pretty n.

(** ** Types of [src/types/scheduler.ts] *)

Inductive SchedulerDependencyType := FS | SS | FF | SF.

Global Instance SchedulerDependencyType_eq_dec : EqDecision SchedulerDependencyType.
Proof. solve_decision. Defined.

Record SchedulerDependency := {
  activityId : string;
  type : SchedulerDependencyType;
  lagDays : option Z;
}.

Global Instance SchedulerDependency_eq_dec : EqDecision SchedulerDependency.
Proof. solve_decision. Defined.

Inductive SchedulerActivityStatus := NOT_STARTED | IN_PROGRESS | COMPLETED.

(** An activity as the engine holds it after its first [map]: the duration
    is a whole number of days and the dependencies are normalized.  The
    fields [row], [notes] and [color] are carried along untouched and are
    left out. *)
Record SchedulerActivity := {
  id : string;
  name : string;
  duration : Z;
  predecessors : list string;
  dependencies : list SchedulerDependency;
  startDay : option Z;
  endDay : option Z;
  status : SchedulerActivityStatus;
  isCritical : bool;
  totalFloat : Z;
  freeFloat : Z;
  manualStart : JsValue;
}.

(** What a caller may hand over: the same records before any check.  The
    code guards every field it reads except [id], so those fields are
    arbitrary JavaScript values here. *)
Module Raw.

(** An element of [activity.dependencies]: an object with the three
    fields, or something that is no object ([null], a number, ...). *)
Inductive Dependency :=
  | NotAnObject
  | Dep (activityId type lagDays : JsValue).

Record Activity := {
  id : string;
  name : string;
  duration : JsValue;
  predecessors : option (list JsValue);
  dependencies : option (list Dependency);
  status : SchedulerActivityStatus;
  manualStart : JsValue;
}.

End Raw.

(** ** [src/lib/scheduler-dependencies.ts] *)

Definition typeName (t : SchedulerDependencyType) : string :=
  match t with FS => "FS" | SS => "SS" | FF => "FF" | SF => "SF" end.

(** [isDependencyType(value)], returning the type it recognised. *)
Definition isDependencyType (value : JsValue) : option SchedulerDependencyType :=
  match value with
  | JsString s =>
      if decide (s = "FS") then Some FS
      else if decide (s = "SS") then Some SS
      else if decide (s = "FF") then Some FF
      else if decide (s = "SF") then Some SF
      else None
  | _ => None
  end.

Definition toLagDays (value : JsValue) : Z :=
  match finiteNumber value with
  | Some q => Math_round q
  | None => 0
  end.

Definition dependencyKey (dep : SchedulerDependency) : string :=
  activityId dep +:+ "|" +:+ typeName (type dep) +:+ "|"
    +:+ numberToString (default 0 (lagDays dep)).

(** The two variables the closure [append] writes to. *)
Record NormalizerState := {
  seen : gset string;
  normalized : list SchedulerDependency;
}.

Definition append (st : NormalizerState) (dep : SchedulerDependency) : NormalizerState :=
  if decide (activityId dep = "") then st
  else
    let key := dependencyKey dep in
    if decide (key ∈ seen st) then st
    else {| seen := {[ key ]} ∪ seen st; normalized := normalized st ++ [dep] |}.

Definition appendDependency (st : NormalizerState) (dep : Raw.Dependency) : NormalizerState :=
  match dep with
  | Raw.Dep (JsString rawId) rawType rawLag =>
      let activityId := trim rawId in
      if decide (activityId = "") then st
      else append st {| activityId := activityId;
                        type := default FS (isDependencyType rawType);
                        lagDays := Some (toLagDays rawLag) |}
  | _ => st
  end.

Definition appendPredecessor (st : NormalizerState) (predId : JsValue) : NormalizerState :=
  match predId with
  | JsString rawId =>
      let activityId := trim rawId in
      if decide (activityId = "") then st
      else append st {| activityId := activityId; type := FS; lagDays := Some 0 |}
  | _ => st
  end.

Definition normalizeActivityDependencies
    (dependencies : option (list Raw.Dependency))
    (predecessors : option (list JsValue)) : list SchedulerDependency :=
  let st0 := {| seen := ∅; normalized := [] |} in
  let st1 := foldl appendDependency st0 (default [] dependencies) in
  let st2 := foldl appendPredecessor st1 (default [] predecessors) in
  normalized st2.

(** [Array.from(new Set(ids))]: the first occurrence of each id, in order. *)
Fixpoint uniqueInOrder (seenIds : list string) (ids : list string) : list string :=
  match ids with
  | [] => []
  | x :: rest =>
      if decide (x ∈ seenIds) then uniqueInOrder seenIds rest
      else x :: uniqueInOrder (x :: seenIds) rest
  end.

Definition derivePredecessorsFromDependencies
    (dependencies : list SchedulerDependency) : list string :=
  uniqueInOrder []
    (filter (λ s, s ≠ "") (map (λ dep, trim (activityId dep)) dependencies)).

(** ** [src/lib/scheduler-engine.ts] *)

Record SuccessorRelation := {
  successorId : string;
  dependency : SchedulerDependency;
}.

Definition toPositiveDuration (duration : JsValue) : Z :=
  match finiteNumber duration with
  | Some q => if Qle_bool q 0 then 1 else Qceiling q
  | None => 1
  end.

Definition toValidStartDay (startDay : JsValue) : Z :=
  match finiteNumber startDay with
  | Some q => if Qle_bool 1 q then Qfloor q else 1
  | None => 1
  end.

(** A whole number of days seen again as a JavaScript number. *)
Definition numberOfZ (n : Z) : JsValue := JsNum (JsFinite (inject_Z n)).

Definition earliestStartFromDependency (dependency : SchedulerDependency)
    (predecessorStart predecessorFinish currentDuration : Z) : Z :=
  let lag := default 0 (lagDays dependency) in
  match type dependency with
  | SS => predecessorStart + lag
  | FF => predecessorFinish + lag - currentDuration + 1
  | SF => predecessorStart + lag - currentDuration + 1
  | FS => predecessorFinish + 1 + lag
  end.

Definition latestStartUpperBoundFromSuccessor (dependencyType : SchedulerDependencyType)
    (lagDays predecessorDuration successorLateStart successorLateFinish : Z) : Z :=
  match dependencyType with
  | SS => successorLateStart - lagDays
  | FF => successorLateFinish - lagDays - predecessorDuration + 1
  | SF => successorLateFinish - lagDays
  | FS => successorLateStart - lagDays - predecessorDuration
  end.

Definition freeFloatAgainstSuccessor (dependency : SchedulerDependency)
    (activityStart activityFinish successorStart successorFinish : Z) : Z :=
  let lag := default 0 (lagDays dependency) in
  match type dependency with
  | SS => successorStart - (activityStart + lag)
  | FF => successorFinish - (activityFinish + lag)
  | SF => successorFinish - (activityStart + lag)
  | FS => successorStart - (activityFinish + 1 + lag)
  end.

(** [activities.map] with the cursor [currentDay] that its callback
    advances. *)
Fixpoint sequentialFrom (currentDay : Z) (activities : list SchedulerActivity)
    : list SchedulerActivity :=
  match activities with
  | [] => []
  | activity :: rest =>
      let startDay := Z.max currentDay (toValidStartDay (manualStart activity)) in
      let duration := toPositiveDuration (numberOfZ (duration activity)) in
      let endDay := startDay + duration - 1 in
      {| id := id activity; name := name activity; duration := duration;
         predecessors := predecessors activity;
         dependencies := dependencies activity;
         startDay := Some startDay; endDay := Some endDay;
         status := status activity; isCritical := true;
         totalFloat := 0; freeFloat := 0;
         manualStart := manualStart activity |}
        :: sequentialFrom (endDay + 1) rest
  end.

Definition sequentialFallback (activities : list SchedulerActivity)
    : list SchedulerActivity :=
  sequentialFrom 1 activities.

(** The callback of the first [activities.map] of [calculateSchedule]. *)
Definition normalizeActivity (activity : Raw.Activity) : SchedulerActivity :=
  let dependencies :=
    filter (λ dep, activityId dep ≠ Raw.id activity)
      (normalizeActivityDependencies (Raw.dependencies activity)
         (Raw.predecessors activity)) in
  {| id := Raw.id activity; name := Raw.name activity;
     duration := toPositiveDuration (Raw.duration activity);
     predecessors := derivePredecessorsFromDependencies dependencies;
     dependencies := dependencies;
     startDay := None; endDay := None;
     status := Raw.status activity; isCritical := false;
     totalFloat := 0; freeFloat := 0;
     manualStart := Raw.manualStart activity |}.

(** *** A [Map] in insertion order *)

Section OrderedMap.
Context {V : Type}.

Fixpoint orderedGet (m : list (string * V)) (k : string) : option V :=
  match m with
  | [] => None
  | (k', v) :: rest => if decide (k' = k) then Some v else orderedGet rest k
  end.

(** [m.set(k, v)]: a key that is present keeps its place. *)
Fixpoint orderedSet (m : list (string * V)) (k : string) (v : V) : list (string * V) :=
  match m with
  | [] => [(k, v)]
  | (k', v') :: rest =>
      if decide (k' = k) then (k', v) :: rest else (k', v') :: orderedSet rest k v
  end.
End OrderedMap.

(** *** Graph construction *)

Record Graph := {
  activityMap : gmap string SchedulerActivity;
  inDegree : list (string * Z);
  successors : gmap string (list SuccessorRelation);
}.

Definition buildActivityMap (normalizedActivities : list SchedulerActivity)
    : gmap string SchedulerActivity :=
  foldl (λ m activity, <[id activity := activity]> m) ∅ normalizedActivities.

Definition initNode (g : Graph) (activity : SchedulerActivity) : Graph :=
  {| activityMap := activityMap g;
     inDegree := orderedSet (inDegree g) (id activity) 0;
     successors := <[id activity := []]> (successors g) |}.

(** The body of the inner [forEach] over [activity.dependencies]. *)
Definition linkDependency (activity : SchedulerActivity) (g : Graph)
    (dependency : SchedulerDependency) : Graph :=
  match activityMap g !! activityId dependency with
  | None => g
  | Some _ =>
      {| activityMap := activityMap g;
         inDegree :=
           orderedSet (inDegree g) (id activity)
             (default 0 (orderedGet (inDegree g) (id activity)) + 1);
         successors :=
           alter (λ relations,
                    relations ++ [{| successorId := id activity;
                                     dependency := dependency |}])
                 (activityId dependency) (successors g) |}
  end.

Definition linkActivity (g : Graph) (activity : SchedulerActivity) : Graph :=
  foldl (linkDependency activity) g (dependencies activity).

Definition buildGraph (normalizedActivities : list SchedulerActivity) : Graph :=
  let g0 := {| activityMap := buildActivityMap normalizedActivities;
               inDegree := []; successors := ∅ |} in
  let g1 := foldl initNode g0 normalizedActivities in
  foldl linkActivity g1 normalizedActivities.

(** *** Kahn's algorithm *)

Record KahnState := {
  counts : list (string * Z);
  queue : list string;
  sortedOrder : list string;
}.

(** The callback run for each relation of the dequeued activity; it writes
    to [inDegree] and to [queue]. *)
Definition releaseSuccessor (st : list (string * Z) * list string)
    (relation : SuccessorRelation) : list (string * Z) * list string :=
  let nextCount := default 0 (orderedGet st.1 (successorId relation)) - 1 in
  (orderedSet st.1 (successorId relation) nextCount,
   if decide (nextCount = 0) then st.2 ++ [successorId relation] else st.2).

(** One turn of the [while] loop, for a queue [current :: rest]. *)
Definition kahnStep (successors : gmap string (list SuccessorRelation))
    (st : KahnState) (current : string) (rest : list string) : KahnState :=
  let '(counts', queue') :=
    foldl releaseSuccessor (counts st, rest) (default [] (successors !! current)) in
  {| counts := counts'; queue := queue';
     sortedOrder := sortedOrder st ++ [current] |}.

(** The [while] loop; [None] when [fuel] turns were not enough to empty the
    queue. *)
Fixpoint kahnLoop (fuel : nat) (successors : gmap string (list SuccessorRelation))
    (st : KahnState) : option (list string) :=
  match queue st with
  | [] => Some (sortedOrder st)
  | current :: rest =>
      match fuel with
      | O => None
      | S fuel' => kahnLoop fuel' successors (kahnStep successors st current rest)
      end
  end.

Definition initialQueue (inDegree : list (string * Z)) : list string :=
  map fst (filter (λ entry, entry.2 = 0) inDegree).

Definition topologicalOrder (normalizedActivities : list SchedulerActivity)
    : option (list string) :=
  let g := buildGraph normalizedActivities in
  kahnLoop (length normalizedActivities) (successors g)
    {| counts := inDegree g; queue := initialQueue (inDegree g); sortedOrder := [] |}.

(** *** Forward pass *)

Record EarlyDates := {
  earlyStart : gmap string Z;
  earlyFinish : gmap string Z;
}.

Definition constrainStart (early : EarlyDates) (currentDuration : Z)
    (start : Z) (dependency : SchedulerDependency) : Z :=
  match earlyStart early !! activityId dependency,
        earlyFinish early !! activityId dependency with
  | Some predecessorStart, Some predecessorFinish =>
      Z.max start
        (earliestStartFromDependency dependency predecessorStart
           predecessorFinish currentDuration)
  | _, _ => start
  end.

Definition forwardStep (activityMap : gmap string SchedulerActivity)
    (early : EarlyDates) (id : string) : EarlyDates :=
  match activityMap !! id with
  | None => early
  | Some activity =>
      let start :=
        foldl (constrainStart early (duration activity))
          (toValidStartDay (manualStart activity)) (dependencies activity) in
      let finish := start + duration activity - 1 in
      {| earlyStart := <[id := start]> (earlyStart early);
         earlyFinish := <[id := finish]> (earlyFinish early) |}
  end.

Definition forwardPass (activityMap : gmap string SchedulerActivity)
    (sortedOrder : list string) : EarlyDates :=
  foldl (forwardStep activityMap) {| earlyStart := ∅; earlyFinish := ∅ |} sortedOrder.

(** *** Backward pass *)

(** [Math.max(1, ...Array.from(earlyFinish.values()))]. *)
Definition projectDurationOf (earlyFinish : gmap string Z) : Z :=
  foldr Z.max 1 (map snd (map_to_list earlyFinish)).

Record LateDates := {
  lateStart : gmap string Z;
  lateFinish : gmap string Z;
}.

Definition boundLatestStart (late : LateDates) (predecessorDuration : Z)
    (latestStart : Z) (relation : SuccessorRelation) : Z :=
  match lateStart late !! successorId relation,
        lateFinish late !! successorId relation with
  | Some successorLateStart, Some successorLateFinish =>
      Z.min latestStart
        (latestStartUpperBoundFromSuccessor (type (dependency relation))
           (default 0 (lagDays (dependency relation))) predecessorDuration
           successorLateStart successorLateFinish)
  | _, _ => latestStart
  end.

Definition backwardStep (g : Graph) (projectDuration : Z)
    (late : LateDates) (id : string) : LateDates :=
  match activityMap g !! id with
  | None => late
  | Some activity =>
      let activitySuccessors := default [] (successors g !! id) in
      let latestStart :=
        Z.max 1
          (foldl (boundLatestStart late (duration activity))
             (projectDuration - duration activity + 1) activitySuccessors) in
      let latestFinish := latestStart + duration activity - 1 in
      {| lateStart := <[id := latestStart]> (lateStart late);
         lateFinish := <[id := latestFinish]> (lateFinish late) |}
  end.

Definition backwardPass (g : Graph) (projectDuration : Z)
    (sortedOrder : list string) : LateDates :=
  foldl (backwardStep g projectDuration)
    {| lateStart := ∅; lateFinish := ∅ |} (reverse sortedOrder).

(** *** Floats and the returned list *)

(** The slack against one successor; [None] stands for
    [Number.POSITIVE_INFINITY]. *)
Definition successorSlack (early : EarlyDates) (startDay endDay : Z)
    (relation : SuccessorRelation) : option Z :=
  match earlyStart early !! successorId relation,
        earlyFinish early !! successorId relation with
  | Some successorStart, Some successorFinish =>
      Some (freeFloatAgainstSuccessor (dependency relation) startDay endDay
              successorStart successorFinish)
  | _, _ => None
  end.

(** [Math.min(...values)] of finite values; [None] is the [Infinity] of an
    empty argument list. *)
Definition Math_min (values : list Z) : option Z :=
  match values with
  | [] => None
  | v :: rest => Some (foldl Z.min v rest)
  end.

Definition annotate (g : Graph) (early : EarlyDates) (late : LateDates)
    (activity : SchedulerActivity) : SchedulerActivity :=
  let startDay := default 1 (earlyStart early !! id activity) in
  let endDay := default (duration activity) (earlyFinish early !! id activity) in
  let ls := default startDay (lateStart late !! id activity) in
  let totalFloat := ls - startDay in
  let activitySuccessors := default [] (successors g !! id activity) in
  let freeFloat :=
    match activitySuccessors with
    | [] => totalFloat
    | _ :: _ =>
        default totalFloat
          (Math_min (omap (successorSlack early startDay endDay) activitySuccessors))
    end in
  {| id := id activity; name := name activity; duration := duration activity;
     predecessors := predecessors activity;
     dependencies := dependencies activity;
     startDay := Some startDay; endDay := Some endDay;
     status := status activity;
     isCritical := bool_decide (totalFloat = 0);
     totalFloat := totalFloat; freeFloat := freeFloat;
     manualStart := manualStart activity |}.

(** [Array.prototype.sort] is stable; an insertion sort that is stable too
    returns the same list.  The comparator is
    [(a.startDay || 0) - (b.startDay || 0)]. *)
Definition startDayKey (activity : SchedulerActivity) : Z :=
  default 0 (startDay activity).

Fixpoint insertByStartDay (activity : SchedulerActivity)
    (sorted : list SchedulerActivity) : list SchedulerActivity :=
  match sorted with
  | [] => [activity]
  | other :: rest =>
      if decide (startDayKey activity ≤ startDayKey other)
      then activity :: sorted
      else other :: insertByStartDay activity rest
  end.

Definition sortByStartDay (activities : list SchedulerActivity)
    : list SchedulerActivity :=
  foldr insertByStartDay [] activities.

(** The CPM branch, once the topological order is known. *)
Definition criticalPath (normalizedActivities : list SchedulerActivity)
    (sortedOrder : list string) : list SchedulerActivity :=
  let g := buildGraph normalizedActivities in
  let early := forwardPass (activityMap g) sortedOrder in
  let projectDuration := projectDurationOf (earlyFinish early) in
  let late := backwardPass g projectDuration sortedOrder in
  sortByStartDay (map (annotate g early late) normalizedActivities).

(** [calculateSchedule]; [None] only if the [while] loop did not stop
    ([calculateSchedule_total] shows that it always stops). *)
Definition calculateSchedule (activities : list Raw.Activity)
    : option (list SchedulerActivity) :=
  match activities with
  | [] => Some []
  | _ :: _ =>
      let normalizedActivities := map normalizeActivity activities in
      sortedOrder ← topologicalOrder normalizedActivities;
      if decide (length sortedOrder ≠ length normalizedActivities)
      then Some (sequentialFallback normalizedActivities)
      else Some (criticalPath normalizedActivities sortedOrder)
  end.

(** ** Inputs of the examples *)

(** An activity with a whole duration, typed dependencies and legacy
    predecessors, and no manual start. *)
Definition plainActivity (id : string) (duration : Z)
    (dependencies : list Raw.Dependency) (predecessors : list string)
    : Raw.Activity :=
  {| Raw.id := id; Raw.name := id;
     Raw.duration := numberOfZ duration;
     Raw.predecessors := Some (map JsString predecessors);
     Raw.dependencies := Some dependencies;
     Raw.status := NOT_STARTED;
     Raw.manualStart := JsUndefined |}.

(** A typed dependency as a caller writes it. *)
Definition link (predecessor : string) (type : string) (lag : Z) : Raw.Dependency :=
  Raw.Dep (JsString predecessor) (JsString type) (numberOfZ lag).

(** The computed fields of a returned activity. *)
Definition computed (a : SchedulerActivity)
    : string * Z * option Z * option Z * Z * Z * bool :=
  (id a, duration a, startDay a, endDay a, totalFloat a, freeFloat a, isCritical a).

(** The diamond of the specification: A before B and C, both before D. *)
Definition diamond : list Raw.Activity :=
  [ plainActivity "A" 3 [] [];
    plainActivity "B" 2 [] ["A"];
    plainActivity "C" 6 [link "A" "FS" 0] [];
    plainActivity "D" 1 [link "B" "FS" 0; link "C" "FS" 0] [] ].

(** The order Kahn's algorithm gives the diamond. *)
Definition diamondOrder : list string := ["A"; "B"; "C"; "D"].

(** Two activities that depend on each other. *)
Definition twoCycle : list Raw.Activity :=
  [ plainActivity "A" 3 [link "B" "FS" 0] [];
    plainActivity "B" 4 [link "A" "FS" 0] [] ].

(** * Definitions used to state the properties *)

(** An edge of the dependency graph: the predecessor's id and the relation
    stored in the predecessor's successor list. *)
Definition Edge : Type := string * SuccessorRelation.

(** The edges that the dependencies of one activity add to the graph: one
    for each dependency whose target is in [activityMap]. *)
Definition edgesVia (activityMap : gmap string SchedulerActivity)
    (successor : string) (dependencies : list SchedulerDependency) : list Edge :=
  omap (λ dependency,
          match activityMap !! activityId dependency with
          | Some _ => Some (activityId dependency,
                            {| successorId := successor; dependency := dependency |})
          | None => None
          end)
       dependencies.

(** The edges into one activity. *)
Definition edgesInto (activityMap : gmap string SchedulerActivity)
    (activity : SchedulerActivity) : list Edge :=
  edgesVia activityMap (id activity) (dependencies activity).

(** All edges, in the order in which graph construction meets them. *)
Definition edgesOf (normalizedActivities : list SchedulerActivity) : list Edge :=
  let activityMap := buildActivityMap normalizedActivities in
  flat_map (edgesInto activityMap) normalizedActivities.

(** The relations of the edges that leave [x]. *)
Definition leaving (x : string) (edges : list Edge) : list SuccessorRelation :=
  map snd (filter (λ e, e.1 = x) edges).

(** The number of edges that enter [x]. *)
Definition entering (x : string) (edges : list Edge) : nat :=
  length (filter (λ e, successorId e.2 = x) edges).

(** How many of the relations point to [x]. *)
Definition hits (x : string) (relations : list SuccessorRelation) : nat :=
  length (filter (λ r, successorId r = x) relations).

(** Edges into [x] whose predecessor is not in [done] yet. *)
Definition pending (edges : list Edge) (done : list string) (x : string) : nat :=
  length (filter (λ e, successorId e.2 = x ∧ e.1 ∉ done) edges).

(** The loop invariant of Kahn's algorithm over the graph [edges] with the
    nodes [nodes]. *)
Record KahnInv (edges : list Edge) (nodes : list string) (st : KahnState) : Prop := {
  inv_NoDup : NoDup (sortedOrder st ++ queue st);
  inv_nodes : ∀ x, x ∈ sortedOrder st ++ queue st → x ∈ nodes;
  inv_keys : map fst (counts st) = nodes;
  inv_counts : ∀ x, x ∈ nodes →
    orderedGet (counts st) x = Some (Z.of_nat (pending edges (sortedOrder st) x));
  inv_ready : ∀ x, x ∈ nodes →
    pending edges (sortedOrder st) x = 0%nat ↔ x ∈ sortedOrder st ++ queue st;
  inv_topo : ∀ l1 x l2, sortedOrder st = l1 ++ x :: l2 →
    ∀ e, e ∈ edges → successorId e.2 = x → e.1 ∈ l1;
}.

(** What Kahn's algorithm returns on the graph of [l]. *)
Record TopologicalOrder (l : list SchedulerActivity) (order : list string) : Prop := {
  order_NoDup : NoDup order;
  order_ids : ∀ x, x ∈ order → x ∈ map id l;
  order_closed : ∀ x, x ∈ map id l →
    x ∈ order ↔ ∀ e, e ∈ edgesOf l → successorId e.2 = x → e.1 ∈ order;
  order_topo : ∀ l1 x l2, order = l1 ++ x :: l2 →
    ∀ e, e ∈ edgesOf l → successorId e.2 = x → e.1 ∈ l1;
}.

(** [x] waits for [p]: the graph has an edge from [p] to [x].  The graph
    has a cycle when some activity waits, over one or more edges, for
    itself. *)
Definition waitsFor (l : list SchedulerActivity) (x p : string) : Prop :=
  ∃ e, e ∈ edgesOf l ∧ e.1 = p ∧ successorId e.2 = x.

Definition Cyclic (l : list SchedulerActivity) : Prop :=
  ∃ x, tc (waitsFor l) x x.

(** The greatest and the least of [x] and the elements of [xs]. *)
Definition maximum (x : Z) (xs : list Z) : Z := foldr Z.max x xs.

Definition minimum (x : Z) (xs : list Z) : Z := foldr Z.min x xs.

(** The earliest start that one dependency allows, when its predecessor has
    dates. *)
Definition edgeStart (early : EarlyDates) (currentDuration : Z)
    (d : SchedulerDependency) : option Z :=
  predecessorStart ← earlyStart early !! activityId d;
  predecessorFinish ← earlyFinish early !! activityId d;
  Some (earliestStartFromDependency d predecessorStart predecessorFinish
          currentDuration).

(** The latest start that one successor allows, when the successor has
    dates. *)
Definition edgeBound (late : LateDates) (predecessorDuration : Z)
    (r : SuccessorRelation) : option Z :=
  successorLateStart ← lateStart late !! successorId r;
  successorLateFinish ← lateFinish late !! successorId r;
  Some (latestStartUpperBoundFromSuccessor (type (dependency r))
          (default 0 (lagDays (dependency r))) predecessorDuration
          successorLateStart successorLateFinish).

(** The successor edges of [x]: every dependency on [x] that an activity
    lists, in input order. *)
Definition successorEdges (l : list SchedulerActivity) (x : string)
    : list SuccessorRelation :=
  flat_map (λ s, map (λ d, {| successorId := id s; dependency := d |})
                   (filter (λ d, activityId d = x) (dependencies s))) l.


(** What one entry of [activity.dependencies] contributes. *)
Definition coerceDependency (entry : Raw.Dependency) : option SchedulerDependency :=
  match entry with
  | Raw.Dep (JsString rawId) rawType rawLag =>
      if decide (trim rawId = "") then None
      else Some {| activityId := trim rawId;
                   type := default FS (isDependencyType rawType);
                   lagDays := Some (toLagDays rawLag) |}
  | _ => None
  end.

(** What one entry of [activity.predecessors] contributes. *)
Definition coercePredecessor (predId : JsValue) : option SchedulerDependency :=
  match predId with
  | JsString rawId =>
      if decide (trim rawId = "") then None
      else Some {| activityId := trim rawId; type := FS; lagDays := Some 0 |}
  | _ => None
  end.

(** The entries in processing order: explicit dependencies, then legacy
    predecessors. *)
Definition candidateDependencies (dependencies : option (list Raw.Dependency))
    (predecessors : option (list JsValue)) : list SchedulerDependency :=
  omap coerceDependency (default [] dependencies)
  ++ omap coercePredecessor (default [] predecessors).

(** The first occurrence of every entry, in order. *)
Fixpoint keepFirst (l : list SchedulerDependency) : list SchedulerDependency :=
  match l with
  | [] => []
  | d :: rest => d :: filter (λ d', d' ≠ d) (keepFirst rest)
  end.

(** Whether the separator of [dependencyKey] occurs in [s]. *)
Fixpoint hasBar (s : string) : bool :=
  match s with
  | EmptyString => false
  | String c rest => if decide (c = "|"%char) then true else hasBar rest
  end.

(** The state of the normalizer: [seen] holds the keys of [normalized]. *)
Definition NormalizerInv (st : NormalizerState) : Prop :=
  (∀ d, d ∈ normalized st → is_Some (lagDays d))
  ∧ (∀ k, k ∈ seen st ↔ ∃ d, d ∈ normalized st ∧ dependencyKey d = k).

(** What [append] does to [normalized], in terms of the list alone. *)
Definition addFirst (acc : list SchedulerDependency) (d : SchedulerDependency)
    : list SchedulerDependency :=
  if decide (d ∈ acc) then acc else acc ++ [d].

(** The string a JavaScript value is, if it is one. *)
Definition stringOf (v : JsValue) : option string :=
  match v with
  | JsString s => Some s
  | _ => None
  end.

(** The id a raw entry names, when it names one. *)
Definition listedId (entry : Raw.Dependency) : option string :=
  match entry with
  | Raw.Dep rawId _ _ => stringOf rawId
  | Raw.NotAnObject => None
  end.



(** [calculateSchedule] after its first [map]. *)
Definition scheduleOf (l : list SchedulerActivity) : option (list SchedulerActivity) :=
  order ← topologicalOrder l;
  Some (if decide (length order ≠ length l)
        then sequentialFallback l else criticalPath l order).

(** Two activities that differ at most in the order of their links to
    existing activities, and in links to missing ones. *)
Definition SameConstraints (ids : list string) (a a' : SchedulerActivity) : Prop :=
  id a = id a'
  ∧ duration a = duration a'
  ∧ manualStart a = manualStart a'
  ∧ filter (λ d, activityId d ∈ ids) (dependencies a)
    ≡ₚ filter (λ d, activityId d ∈ ids) (dependencies a').

(** Raw activities whose entries normalize to the same set of links. *)
Definition SameLinks (a a' : Raw.Activity) : Prop :=
  Raw.id a = Raw.id a'
  ∧ Raw.duration a = Raw.duration a'
  ∧ Raw.manualStart a = Raw.manualStart a'
  ∧ ∀ d, d ∈ candidateDependencies (Raw.dependencies a) (Raw.predecessors a)
         ↔ d ∈ candidateDependencies (Raw.dependencies a') (Raw.predecessors a').

(** The typed form of a finish-to-start link without lag. *)
Definition typedLink (predecessor : string) : Raw.Dependency :=
  Raw.Dep (JsString predecessor) (JsString "FS") (numberOfZ 0).

(** The activity with other lists of links. *)
Definition withLinks (a : Raw.Activity) (dependencies : list Raw.Dependency)
    (predecessors : list JsValue) : Raw.Activity :=
  {| Raw.id := Raw.id a; Raw.name := Raw.name a; Raw.duration := Raw.duration a;
     Raw.predecessors := Some predecessors;
     Raw.dependencies := Some dependencies;
     Raw.status := Raw.status a; Raw.manualStart := Raw.manualStart a |}.

(** A link is dangling when the id it names after normalization is the id
    of no activity. *)
Definition dangling (ids : list string) (link : option SchedulerDependency) : Prop :=
  match link with
  | Some d => activityId d ∉ ids
  | None => False
  end.

Global Instance dangling_dec ids link : Decision (dangling ids link).
Proof. destruct link; simpl; apply _. Defined.

(** The activity without its dangling links. *)
Definition dropDangling (ids : list string) (a : Raw.Activity) : Raw.Activity :=
  {| Raw.id := Raw.id a; Raw.name := Raw.name a; Raw.duration := Raw.duration a;
     Raw.predecessors :=
       filter (λ predId, ¬ dangling ids (coercePredecessor predId))
         <$> Raw.predecessors a;
     Raw.dependencies :=
       filter (λ entry, ¬ dangling ids (coerceDependency entry))
         <$> Raw.dependencies a;
     Raw.status := Raw.status a; Raw.manualStart := Raw.manualStart a |}.

(** ** Definitions for the further properties *)

(** ** White space *)

Definition startsClean (s : string) : Prop :=
  match s with
  | EmptyString => True
  | String c _ => isWhiteSpace c = false
  end.

(** A finish-to-start link without lag, as the legacy list yields it. *)
Definition fsLink (x : string) : SchedulerDependency :=
  {| activityId := x; type := FS; lagDays := Some 0 |}.

(** A normalized dependency read again as an entry of
    [activity.dependencies]. *)
Definition rawDependency (d : SchedulerDependency) : Raw.Dependency :=
  Raw.Dep (JsString (activityId d)) (JsString (typeName (type d)))
    (match lagDays d with Some n => numberOfZ n | None => JsUndefined end).

(** The fields that [calculateSchedule] hands through from an activity it
    normalized. *)
Definition givenFields (a : SchedulerActivity)
    : string * string * SchedulerActivityStatus * JsValue
      * list SchedulerDependency * list string :=
  (id a, name a, status a, manualStart a, dependencies a, predecessors a).

(** The order of the comparator of the final [sort]. *)
Definition byStartDay (a b : SchedulerActivity) : Prop :=
  startDayKey a ≤ startDayKey b.

(** An assignment of start days that the manual starts and the links
    between the activities of [l] allow. *)
Definition Feasible (l : list SchedulerActivity) (S : string → Z) : Prop :=
  (∀ a, a ∈ l → toValidStartDay (manualStart a) ≤ S (id a))
  ∧ (∀ a p d, a ∈ l → p ∈ l → d ∈ dependencies a → activityId d = id p →
       earliestStartFromDependency d (S (id p)) (S (id p) + duration p - 1)
         (duration a) ≤ S (id a)).


(** [a'] is [a] with a manual start that is not earlier and with at least
    the links of [a] to the activities with the ids [ids]. *)
Definition NoLessConstrained (ids : list string) (a a' : SchedulerActivity) : Prop :=
  id a' = id a
  ∧ duration a' = duration a
  ∧ toValidStartDay (manualStart a) ≤ toValidStartDay (manualStart a')
  ∧ ∀ d, d ∈ dependencies a → activityId d ∈ ids → d ∈ dependencies a'.

(** The diamond with a further link from B to C. *)
Definition diamondWithLink : list Raw.Activity :=
  [ plainActivity "A" 3 [] [];
    plainActivity "B" 2 [] ["A"];
    plainActivity "C" 6 [link "A" "FS" 0; link "B" "SS" 1] [];
    plainActivity "D" 1 [link "B" "FS" 0; link "C" "FS" 0] [] ].

(** An assignment of start days that ends every activity by the day
    [projectDuration] and keeps every link between the activities of [l]. *)
Definition LateFeasible (l : list SchedulerActivity) (projectDuration : Z)
    (L : string → Z) : Prop :=
  (∀ a, a ∈ l → L (id a) ≤ projectDuration - duration a + 1)
  ∧ (∀ a s d, a ∈ l → s ∈ l → d ∈ dependencies s → activityId d = id a →
       L (id a)
       ≤ latestStartUpperBoundFromSuccessor (type d) (default 0 (lagDays d))
           (duration a) (L (id s)) (L (id s) + duration s - 1)).


(** Two activities that start together; the second lasts one day and has a
    manual start on day 5. *)
Definition startTogether : list Raw.Activity :=
  [ plainActivity "A" 10 [] [];
    {| Raw.id := "B"; Raw.name := "B"; Raw.duration := numberOfZ 1;
       Raw.predecessors := Some [];
       Raw.dependencies := Some [link "A" "SS" 0];
       Raw.status := NOT_STARTED; Raw.manualStart := numberOfZ 5 |} ].

(** ** [src/lib/schedule-engine-ai.ts]: [sanitizeActivities] *)

(** An activity as [sanitizeActivities] and [buildDeterministicSchedule]
    write it: the computed fields are absent, the duration is a whole
    number of days. *)
Module Draft.
Record Activity := {
  id : string;
  name : string;
  duration : Z;
  dependencies : list SchedulerDependency;
  predecessors : list string;
  status : SchedulerActivityStatus;
  notes : option string;
}.
End Draft.

(** One element of the array that the response was parsed into.  [Nullish]
    is [null] or [undefined], of which no property can be read.  Every
    other value is read as an object: a property it does not have is
    [JsUndefined], and [dependencies] and [predecessors] are [None] unless
    they are arrays. *)
Inductive ParsedEntry :=
  | Nullish
  | Parsed (id duration name status notes : JsValue)
      (dependencies : option (list Raw.Dependency))
      (predecessors : option (list JsValue)).

(** The template literals [`A${idx + 1}`] and [`Activity ${idx + 1}`]. *)
Definition indexLabel (prefix : string) (idx : nat) : string :=
  prefix +:+ numberToString (Z.of_nat idx + 1).

(** [typeof v === "string" && v.trim() ? v.trim() : otherwise]. *)
Definition trimmedOr (v : JsValue) (otherwise : string) : string :=
  match v with
  | JsString s => if decide (trim s = "") then otherwise else trim s
  | _ => otherwise
  end.

(** The callback of [raw.map]; [None] when it throws a [TypeError]. *)
Definition sanitizeEntry (fallback : list Draft.Activity) (idx : nat)
    (entry : ParsedEntry) : option Draft.Activity :=
  match entry with
  | Nullish => None
  | Parsed rawId rawDuration rawName rawStatus rawNotes rawDependencies
      rawPredecessors =>
      let id := trimmedOr rawId (indexLabel "A" idx) in
      let fallbackDuration :=
        match fallback !! idx with
        | Some f => if decide (Draft.duration f = 0) then 3 else Draft.duration f
        | None => 3
        end in
      let duration :=
        match finiteNumber rawDuration with
        | Some q => if Qle_bool q 0 then fallbackDuration else Qceiling q
        | None => fallbackDuration
        end in
      let fallbackName :=
        match fallback !! idx with
        | Some f =>
            if decide (Draft.name f = "") then indexLabel "Activity " idx
            else Draft.name f
        | None => indexLabel "Activity " idx
        end in
      let name := trimmedOr rawName fallbackName in
      let status :=
        match rawStatus with
        | JsString s =>
            if decide (s = "IN_PROGRESS") then IN_PROGRESS
            else if decide (s = "COMPLETED") then COMPLETED
            else NOT_STARTED
        | _ => NOT_STARTED
        end in
      let dependencies :=
        filter (λ dependency, activityId dependency ≠ id)
          (normalizeActivityDependencies rawDependencies
             (Some (default [] rawPredecessors))) in
      Some {| Draft.id := id; Draft.name := name; Draft.duration := duration;
              Draft.dependencies := dependencies;
              Draft.predecessors := derivePredecessorsFromDependencies dependencies;
              Draft.status := status;
              Draft.notes := match rawNotes with
                             | JsString s => Some s
                             | _ => None
                             end |}
  end.

(** [raw.map] from index [idx] on. *)
Fixpoint sanitizeEntries (fallback : list Draft.Activity) (idx : nat)
    (entries : list ParsedEntry) : option (list Draft.Activity) :=
  match entries with
  | [] => Some []
  | entry :: rest =>
      activity ← sanitizeEntry fallback idx entry;
      others ← sanitizeEntries fallback (S idx) rest;
      Some (activity :: others)
  end.

(** The body of [draft.forEach]. *)
Definition keepValidIds (validIds : gset string) (activity : Draft.Activity)
    : Draft.Activity :=
  let filtered :=
    filter (λ dependency, activityId dependency ∈ validIds)
      (Draft.dependencies activity) in
  {| Draft.id := Draft.id activity; Draft.name := Draft.name activity;
     Draft.duration := Draft.duration activity;
     Draft.dependencies := filtered;
     Draft.predecessors := derivePredecessorsFromDependencies filtered;
     Draft.status := Draft.status activity;
     Draft.notes := Draft.notes activity |}.

(** [sanitizeActivities(raw, fallback)]; [raw] is [None] when it is no
    array, the result is [None] when the call throws. *)
Definition sanitizeActivities (raw : option (list ParsedEntry))
    (fallback : list Draft.Activity) : option (list Draft.Activity) :=
  match raw with
  | None | Some [] => Some fallback
  | Some entries =>
      draft ← sanitizeEntries fallback 0 entries;
      let validIds : gset string := list_to_set (map Draft.id draft) in
      Some (map (keepValidIds validIds) draft)
  end.

(** A response in which the second activity depends on the first, on
    itself and on an activity that does not exist. *)
Definition parsedExample : list ParsedEntry :=
  [ Parsed (JsString " A1 ") (JsNum (JsFinite (5 # 2))) (JsString "Excavation")
      (JsString "COMPLETED") JsUndefined None None;
    Parsed JsUndefined JsNull JsUndefined JsUndefined (JsString "note")
      (Some [link "A1" "SS" 2; link "A2" "FS" 0; link "A9" "FS" 0])
      (Some [JsString "A1"]) ].

(** Whether no character of [s] is white space. *)
Fixpoint noWhiteSpace (s : string) : bool :=
  match s with
  | EmptyString => true
  | String c rest => negb (isWhiteSpace c) && noWhiteSpace rest
  end.

(** ** The route that launches a project from an estimation *)

(** The callback of [aiActivities.map], which builds
    [normalizedActivities]; the typed dependencies of the item are the
    objects the normalizer reads. *)
Definition routeNormalizeItem (index : nat) (item : Draft.Activity) : Raw.Activity :=
  let dependencies :=
    normalizeActivityDependencies
      (Some (map rawDependency (Draft.dependencies item)))
      (Some (map JsString (Draft.predecessors item))) in
  {| Raw.id := if decide (trim (Draft.id item) = "") then indexLabel "A" index
               else trim (Draft.id item);
     Raw.name := if decide (Draft.name item = "") then indexLabel "Activity " index
                 else Draft.name item;
     Raw.duration := numberOfZ (if decide (0 < Draft.duration item)
                                then Draft.duration item else 5);
     Raw.predecessors :=
       Some (map JsString (derivePredecessorsFromDependencies dependencies));
     Raw.dependencies := Some (map rawDependency dependencies);
     Raw.status := NOT_STARTED;
     Raw.manualStart := JsUndefined |}.

(** [calculateSchedule(normalizedActivities)] of the route. *)
Definition routeSchedule (aiActivities : list Draft.Activity)
    : option (list SchedulerActivity) :=
  calculateSchedule (imap routeNormalizeItem aiActivities).

(** The dependencies of an item together with a finish-to-start link
    without lag for every predecessor id that has none. *)
Definition withLegacyLinks (item : Draft.Activity) : list SchedulerDependency :=
  Draft.dependencies item
  ++ map fsLink (filter (λ x, fsLink x ∉ Draft.dependencies item)
                   (Draft.predecessors item)).

(** The columns of the deterministic schedule: they start two days after
    the foundation starts. *)
Definition overlappingColumns : Draft.Activity :=
  {| Draft.id := "A2"; Draft.name := "RCC Columns & Vertical Members";
     Draft.duration := 4;
     Draft.dependencies := [ {| activityId := "A1"; type := SS; lagDays := Some 2 |} ];
     Draft.predecessors := ["A1"];
     Draft.status := NOT_STARTED; Draft.notes := None |}.

Definition columnsOverlapFoundation : list Draft.Activity :=
  [ {| Draft.id := "A1"; Draft.name := "Footing / Foundation"; Draft.duration := 10;
       Draft.dependencies := []; Draft.predecessors := [];
       Draft.status := NOT_STARTED; Draft.notes := None |};
    overlappingColumns ].

(** ** The Gantt chart component *)

(** The callback of [map] in [handleDelete]: the activity with the
    dependencies that remain, and the predecessors derived from them. *)
Definition withoutDependencyOn (targetId : string) (a : Raw.Activity) : Raw.Activity :=
  let remainingDependencies :=
    filter (λ dep, activityId dep ≠ targetId)
      (normalizeActivityDependencies (Raw.dependencies a) (Raw.predecessors a)) in
  {| Raw.id := Raw.id a; Raw.name := Raw.name a; Raw.duration := Raw.duration a;
     Raw.predecessors :=
       Some (map JsString (derivePredecessorsFromDependencies remainingDependencies));
     Raw.dependencies := Some (map rawDependency remainingDependencies);
     Raw.status := Raw.status a; Raw.manualStart := Raw.manualStart a |}.

(** [handleDelete(activityId)]: the list of activities it sets, given the
    list it finds. *)
Definition handleDelete (activities : list Raw.Activity) (targetId : string)
    : list Raw.Activity :=
  let dependents :=
    filter (λ a, Exists (λ dep, activityId dep = targetId)
                   (normalizeActivityDependencies (Raw.dependencies a)
                      (Raw.predecessors a)))
      activities in
  match dependents with
  | _ :: _ =>
      map (withoutDependencyOn targetId)
        (filter (λ a, Raw.id a ≠ targetId) activities)
  | [] => filter (λ a, Raw.id a ≠ targetId) activities
  end.





(** The digits of an id, [a.id.replace(/\D/g, '')]. *)
Definition isDigit (c : ascii) : bool :=
  (48 <=? N_of_ascii c)%N && (N_of_ascii c <=? 57)%N.

Fixpoint digitsOf (s : string) : string :=
  match s with
  | EmptyString => EmptyString
  | String c rest => if isDigit c then String c (digitsOf rest) else digitsOf rest
  end.

(** [parseInt] of a string of digits, read from the left; 0 for the empty
    string, as [parseInt(...) || 0] gives. *)
Fixpoint parseDigits (acc : Z) (s : string) : Z :=
  match s with
  | EmptyString => acc
  | String c rest => parseDigits (10 * acc + (Z.of_N (N_of_ascii c) - 48)) rest
  end.

Definition idNumber (id : string) : Z := parseDigits 0 (digitsOf id).

(** [generateId]: the ids are those of the activities in the state.  The
    numbers are whole numbers below 2^53 in the uses that are proved, where
    [parseInt], [Math.max] and [+ 1] are exact. *)
Definition generateId (ids : list string) : string :=
  let maxNum := foldl (λ max id, Z.max max (idNumber id)) 0 ids in
  "A" +:+ numberToString (maxNum + 1).

(** ** Inputs in dependency order *)

(** Every link of the [i]-th activity that names an activity of the input
    names one that stands before it. *)
Definition LinksPointBack (acts : list Raw.Activity) : Prop :=
  ∀ (i : nat) a d,
    acts !! i = Some a → d ∈ dependencies (normalizeActivity a) →
    activityId d ∈ map Raw.id acts →
    ∃ (j : nat) b, (j < i)%nat ∧ acts !! j = Some b ∧ Raw.id b = activityId d.

(** ** [src/lib/schedule-engine-ai.ts]: [buildDeterministicSchedule] *)

(** A [CategoryDefinition]; the fields that only the classification of an
    item and the estimate of a duration read ([unitGroup],
    [productivityPerDay], [keywords]) are left out. *)
Module Category.
Record CategoryDefinition := {
  id : string;
  name : string;
  order : Z;
  minDurationDays : Z;
}.
End Category.

#[global] Instance CategoryDefinition_eq_dec : EqDecision Category.CategoryDefinition.
Proof. solve_decision. Defined.

Definition CATEGORY_DEFINITIONS : list Category.CategoryDefinition :=
  [ {| Category.id := "site_preparation";
       Category.name := "Site Preparation & Mobilization";
       Category.order := 1; Category.minDurationDays := 2 |};
    {| Category.id := "excavation"; Category.name := "Excavation";
       Category.order := 2; Category.minDurationDays := 2 |};
    {| Category.id := "foundation"; Category.name := "Footing / Foundation";
       Category.order := 3; Category.minDurationDays := 3 |};
    {| Category.id := "rcc_columns"; Category.name := "RCC Columns & Vertical Members";
       Category.order := 4; Category.minDurationDays := 3 |};
    {| Category.id := "rcc_slab"; Category.name := "RCC Beams & Slabs";
       Category.order := 5; Category.minDurationDays := 4 |};
    {| Category.id := "masonry"; Category.name := "Masonry / Brickwork";
       Category.order := 6; Category.minDurationDays := 4 |};
    {| Category.id := "plumbing_rough_in"; Category.name := "Plumbing Rough-In";
       Category.order := 7; Category.minDurationDays := 3 |};
    {| Category.id := "electrical_rough_in"; Category.name := "Electrical Rough-In";
       Category.order := 8; Category.minDurationDays := 3 |};
    {| Category.id := "plaster"; Category.name := "Plastering";
       Category.order := 9; Category.minDurationDays := 4 |};
    {| Category.id := "waterproofing"; Category.name := "Waterproofing";
       Category.order := 10; Category.minDurationDays := 2 |};
    {| Category.id := "flooring"; Category.name := "Flooring & Tiling";
       Category.order := 11; Category.minDurationDays := 3 |};
    {| Category.id := "doors_windows"; Category.name := "Doors, Windows & Frames";
       Category.order := 12; Category.minDurationDays := 2 |};
    {| Category.id := "painting"; Category.name := "Painting & Coatings";
       Category.order := 13; Category.minDurationDays := 3 |};
    {| Category.id := "finishing"; Category.name := "Final Finishing & Fixtures";
       Category.order := 14; Category.minDurationDays := 3 |};
    {| Category.id := "external"; Category.name := "External Development";
       Category.order := 15; Category.minDurationDays := 2 |} ].

Module Rule.
Record DependencyRule := {
  predecessor : string;
  type : SchedulerDependencyType;
  lagDays : option Z;
}.
End Rule.

Definition rule (predecessor : string) (type : SchedulerDependencyType)
    (lagDays : option Z) : Rule.DependencyRule :=
  {| Rule.predecessor := predecessor; Rule.type := type; Rule.lagDays := lagDays |}.

Definition DEPENDENCY_RULES : list (string * list Rule.DependencyRule) :=
  [ ("excavation", [rule "site_preparation" FS None]);
    ("foundation", [rule "excavation" FS None]);
    ("rcc_columns", [rule "foundation" SS (Some 2)]);
    ("rcc_slab", [rule "rcc_columns" FS (Some 1)]);
    ("masonry", [rule "rcc_slab" SS (Some 2)]);
    ("plumbing_rough_in", [rule "masonry" SS (Some 2)]);
    ("electrical_rough_in", [rule "masonry" SS (Some 2)]);
    ("plaster", [rule "masonry" FS (Some 1); rule "plumbing_rough_in" FS None;
                 rule "electrical_rough_in" FS None]);
    ("waterproofing", [rule "plaster" FS (Some 1)]);
    ("flooring", [rule "plaster" FS (Some 2); rule "waterproofing" FS (Some 1)]);
    ("doors_windows", [rule "masonry" SS (Some 2)]);
    ("painting", [rule "plaster" FS (Some 2); rule "doors_windows" FS None;
                  rule "electrical_rough_in" FS None]);
    ("finishing", [rule "flooring" FS (Some 1); rule "painting" FS (Some 1);
                   rule "plumbing_rough_in" FS None]);
    ("external", [rule "site_preparation" SS (Some 5)]) ].

(** A [CategoryAggregate] without [quantity], a sum of floating-point
    numbers, and without [sampleItems]; both are read only for the duration
    and the notes of the activity. *)
Record CategoryAggregate := {
  category : Category.CategoryDefinition;
  itemCount : nat;
}.

(** The callback of [items.forEach], for an item that [classifyItem] gave
    the category [classified]. *)
Definition aggregateItem (aggregates : list (string * CategoryAggregate))
    (classified : option Category.CategoryDefinition)
    : list (string * CategoryAggregate) :=
  match classified with
  | None => aggregates
  | Some definition =>
      match orderedGet aggregates (Category.id definition) with
      | None =>
          orderedSet aggregates (Category.id definition)
            {| category := definition; itemCount := 1 |}
      | Some current =>
          orderedSet aggregates (Category.id definition)
            {| category := category current; itemCount := itemCount current + 1 |}
      end
  end.

(** The stable [sort] by [category.order], as an insertion sort. *)
Fixpoint insertByOrder (entry : CategoryAggregate) (sorted : list CategoryAggregate)
    : list CategoryAggregate :=
  match sorted with
  | [] => [entry]
  | other :: rest =>
      if decide (Category.order (category entry) ≤ Category.order (category other))
      then entry :: sorted
      else other :: insertByOrder entry rest
  end.

Definition sortByOrder (entries : list CategoryAggregate) : list CategoryAggregate :=
  foldr insertByOrder [] entries.

(** [selectedCategories], once site preparation is put before groundwork
    that lacks it. *)
Definition selectCategories (classified : list (option Category.CategoryDefinition))
    : list CategoryAggregate :=
  let aggregates := foldl aggregateItem [] classified in
  let selectedCategories := sortByOrder (map snd aggregates) in
  let has (categoryId : string) :=
    bool_decide (Exists (λ entry, Category.id (category entry) = categoryId)
                   selectedCategories) in
  let includesGroundwork := has "excavation" || has "foundation" in
  let hasSitePrep := has "site_preparation" in
  if includesGroundwork && negb hasSitePrep then
    match List.find (λ c, bool_decide (Category.id c = "site_preparation"))
            CATEGORY_DEFINITIONS with
    | Some sitePrepCategory =>
        {| category := sitePrepCategory; itemCount := 1 |} :: selectedCategories
    | None => selectedCategories
    end
  else selectedCategories.

(** [activityIdByCategory]. *)
Definition activityIdByCategory (selectedCategories : list CategoryAggregate)
    : list (string * string) :=
  foldl (λ m entry, orderedSet m (Category.id (category entry.2)) (indexLabel "A" entry.1))
    [] (imap (λ idx entry, (idx, entry)) selectedCategories).

(** The dependencies that the rules give the activity [activityId] of the
    category [categoryId], before the normalizer reads them. *)
Definition ruleDependencies (ids : list (string * string)) (ownId categoryId : string)
    : list SchedulerDependency :=
  omap (λ r,
          match orderedGet ids (Rule.predecessor r) with
          | None => None
          | Some predecessorId =>
              if decide (predecessorId = "" ∨ predecessorId = ownId) then None
              else Some {| activityId := predecessorId;
                           type := Rule.type r;
                           lagDays := Some (default 0 (Rule.lagDays r)) |}
          end)
       (default [] (orderedGet DEPENDENCY_RULES categoryId)).

Section Deterministic.
(** What [estimateDurationDays] returns for an aggregate, and the notes
    written for it: both are computed from its quantity with
    floating-point arithmetic. *)
Variable estimateDurationDays : CategoryAggregate → Z.
Variable notesOf : CategoryAggregate → string.

(** The activity at index [idx], with the dependencies that the second
    [forEach] gives it. *)
Definition deterministicActivity (selectedCategories : list CategoryAggregate)
    (idx : nat) (entry : CategoryAggregate) : Draft.Activity :=
  let ownId := indexLabel "A" idx in
  let categoryId := Category.id (category entry) in
  let fromRules :=
    ruleDependencies (activityIdByCategory selectedCategories) ownId categoryId in
  let dependencies :=
    match fromRules, idx with
    | [], S previous =>
        [ {| activityId := indexLabel "A" previous; type := FS; lagDays := Some 0 |} ]
    | _, _ => fromRules
    end in
  let normalized :=
    if decide (categoryId = "") then []
    else normalizeActivityDependencies (Some (map rawDependency dependencies)) (Some []) in
  {| Draft.id := ownId; Draft.name := Category.name (category entry);
     Draft.duration := estimateDurationDays entry;
     Draft.dependencies := normalized;
     Draft.predecessors :=
       if decide (categoryId = "") then []
       else derivePredecessorsFromDependencies normalized;
     Draft.status := NOT_STARTED;
     Draft.notes := Some (notesOf entry) |}.

(** [buildDeterministicSchedule(items)], given the category of each
    item. *)
Definition buildDeterministicSchedule
    (classified : list (option Category.CategoryDefinition)) : list Draft.Activity :=
  match selectCategories classified with
  | [] =>
      [ {| Draft.id := "A1"; Draft.name := "BOQ Scope Consolidation";
           Draft.duration := Z.max 3 ((Z.of_nat (length classified) + 2) `div` 3);
           Draft.dependencies := []; Draft.predecessors := [];
           Draft.status := NOT_STARTED;
           Draft.notes := Some "Unable to classify BOQ lines by work type; created a consolidated scope activity." |} ]
  | selectedCategories => imap (deterministicActivity selectedCategories) selectedCategories
  end.

End Deterministic.

(** The aggregates are in the order of the table. *)
Definition byOrder (a b : CategoryAggregate) : Prop :=
  Category.order (category a) ≤ Category.order (category b).

(** The category with the id [categoryId]. *)
Definition categoryOf (categoryId : string) : option Category.CategoryDefinition :=
  List.find (λ c, bool_decide (Category.id c = categoryId)) CATEGORY_DEFINITIONS.

(** Items of masonry, foundation, excavation and one that no keyword
    matches. *)
Definition classifiedExample : list (option Category.CategoryDefinition) :=
  [categoryOf "masonry"; categoryOf "foundation"; None; categoryOf "excavation";
   categoryOf "masonry"].

(** ** [generateScheduleFromBOQ] without a model *)

Definition statusName (s : SchedulerActivityStatus) : string :=
  match s with
  | NOT_STARTED => "NOT_STARTED"
  | IN_PROGRESS => "IN_PROGRESS"
  | COMPLETED => "COMPLETED"
  end.

(** An activity of the deterministic schedule as [sanitizeActivities] reads
    it. *)
Definition draftAsParsed (a : Draft.Activity) : ParsedEntry :=
  Parsed (JsString (Draft.id a)) (numberOfZ (Draft.duration a)) (JsString (Draft.name a))
    (JsString (statusName (Draft.status a)))
    (match Draft.notes a with Some s => JsString s | None => JsUndefined end)
    (Some (map rawDependency (Draft.dependencies a)))
    (Some (map JsString (Draft.predecessors a))).

(** [generateScheduleFromBOQ(items)] when [refineWithAI] returns the
    deterministic schedule: no model is configured, or the refinement
    failed. *)
Definition scheduleWithoutRefinement (estimateDurationDays : CategoryAggregate → Z)
    (notesOf : CategoryAggregate → string)
    (classified : list (option Category.CategoryDefinition))
    : option (list Draft.Activity) :=
  let deterministicSchedule :=
    buildDeterministicSchedule estimateDurationDays notesOf classified in
  sanitizeActivities (Some (map draftAsParsed deterministicSchedule)) deterministicSchedule.

(** The [i]-th draft is called [A(i+1)] and waits only for drafts before
    it. *)
Definition DraftInOrder (i : nat) (a : Draft.Activity) : Prop :=
  Draft.id a = indexLabel "A" i
  ∧ Forall (λ d, activityId d ≠ "" ∧ trim (activityId d) = activityId d
                 ∧ is_Some (lagDays d)) (Draft.dependencies a)
  ∧ Draft.predecessors a = derivePredecessorsFromDependencies (Draft.dependencies a)
  ∧ ∀ d, d ∈ Draft.dependencies a →
         ∃ j : nat, (j < i)%nat ∧ activityId d = indexLabel "A" j.

(** ** The timeline of the launched project *)





(** * Properties *)

(** ** The examples of the specification *)

Example coercion_examples :
  toPositiveDuration (JsNum (JsFinite (5 # 2))) = 3
  ∧ toPositiveDuration (JsNum (JsFinite (-4 # 1))) = 1
  ∧ toPositiveDuration (JsNum JsNaN) = 1
  ∧ toPositiveDuration JsUndefined = 1
  ∧ toValidStartDay (JsNum (JsFinite (37 # 10))) = 3
  ∧ toValidStartDay (JsNum (JsFinite (1 # 2))) = 1
  ∧ toValidStartDay JsUndefined = 1
  ∧ toLagDays (JsNum (JsFinite (3 # 2))) = 2
  ∧ toLagDays (JsNum (JsFinite (-5 # 2))) = -2
  ∧ toLagDays (JsString "2") = 0
  ∧ trim "  A1 " = "A1".
Proof. repeat split; vm_compute; reflexivity. Qed.

Example normalizer_example :
  normalizeActivityDependencies
    (Some [link " A " "FS" 0; Raw.NotAnObject; link "B" "XX" 1; link "A" "FS" 0;
           Raw.Dep (JsNum (JsFinite 1)) (JsString "SS") JsUndefined])
    (Some [JsString "A"; JsString "  "; JsNull; JsString "C"])
  = [ {| activityId := "A"; type := FS; lagDays := Some 0 |};
      {| activityId := "B"; type := FS; lagDays := Some 1 |};
      {| activityId := "C"; type := FS; lagDays := Some 0 |} ].
Proof. vm_compute. reflexivity. Qed.

Example single_activity :
  map computed <$> calculateSchedule [plainActivity "A" 5 [] []]
  = Some [("A", 5, Some 1, Some 5, 0, 0, true)].
Proof. vm_compute. reflexivity. Qed.

Example finish_to_start_chain :
  map computed <$> calculateSchedule
    [plainActivity "A" 3 [] []; plainActivity "B" 4 [link "A" "FS" 0] []]
  = Some [("A", 3, Some 1, Some 3, 0, 0, true);
          ("B", 4, Some 4, Some 7, 0, 0, true)].
Proof. vm_compute. reflexivity. Qed.

Example finish_to_start_with_lag :
  map computed <$> calculateSchedule
    [plainActivity "A" 3 [] []; plainActivity "B" 4 [link "A" "FS" 2] []]
  = Some [("A", 3, Some 1, Some 3, 0, 0, true);
          ("B", 4, Some 6, Some 9, 0, 0, true)].
Proof. vm_compute. reflexivity. Qed.

Example start_to_start :
  map computed <$> calculateSchedule
    [plainActivity "A" 5 [] []; plainActivity "B" 3 [link "A" "SS" 1] []]
  = Some [("A", 5, Some 1, Some 5, 0, 0, true);
          ("B", 3, Some 2, Some 4, 1, 1, false)].
Proof. vm_compute. reflexivity. Qed.

Example diamond_with_float :
  map computed <$> calculateSchedule diamond
  = Some [("A", 3, Some 1, Some 3, 0, 0, true);
          ("B", 2, Some 4, Some 5, 4, 4, false);
          ("C", 6, Some 4, Some 9, 0, 0, true);
          ("D", 1, Some 10, Some 10, 0, 0, true)].
Proof. vm_compute. reflexivity. Qed.

Example cycle_example :
  map computed <$> calculateSchedule twoCycle
  = Some [("A", 3, Some 1, Some 3, 0, 0, true);
          ("B", 4, Some 4, Some 7, 0, 0, true)].
Proof. vm_compute. reflexivity. Qed.

Example twoCycle_Cyclic : Cyclic (map normalizeActivity twoCycle).
Proof.
  exists "A". apply tc_l with "B".
  - eexists ("B", {| successorId := "A"; dependency := _ |}).
    split; [|done]. vm_compute. left.
  - apply tc_once. eexists ("A", {| successorId := "B"; dependency := _ |}).
    split; [|done]. vm_compute. right. left.
Qed.

Example manual_start_floor :
  map computed <$> calculateSchedule
    [ {| Raw.id := "A"; Raw.name := "A"; Raw.duration := numberOfZ 2;
         Raw.predecessors := Some []; Raw.dependencies := None;
         Raw.status := NOT_STARTED; Raw.manualStart := numberOfZ 10 |} ]
  = Some [("A", 2, Some 10, Some 11, 0, 0, true)].
Proof. vm_compute. reflexivity. Qed.

(** ** The insertion-ordered map *)

Section OrderedMapFacts.
Context {V : Type}.
Implicit Types (m : list (string * V)) (k : string) (v : V).

Lemma orderedGet_set_eq m k v : orderedGet (orderedSet m k v) k = Some v.
Proof.
  induction m as [|[k' v'] m IH]; simpl.
  - by rewrite decide_True.
  - destruct (decide (k' = k)) as [->|Hne]; simpl.
    + by rewrite decide_True.
    + by rewrite decide_False.
Qed.

Lemma orderedGet_set_ne m k k' v :
  k ≠ k' → orderedGet (orderedSet m k v) k' = orderedGet m k'.
Proof.
  intros Hne. induction m as [|[k0 v0] m IH]; simpl.
  - by rewrite decide_False.
  - destruct (decide (k0 = k)) as [->|Hk]; simpl.
    + by rewrite !decide_False.
    + by rewrite IH.
Qed.

Lemma orderedGet_set m k k' v :
  orderedGet (orderedSet m k v) k'
  = if decide (k = k') then Some v else orderedGet m k'.
Proof.
  destruct (decide (k = k')) as [->|Hne];
    auto using orderedGet_set_eq, orderedGet_set_ne.
Qed.

Lemma orderedGet_is_Some m k : is_Some (orderedGet m k) ↔ k ∈ map fst m.
Proof.
  induction m as [|[k' v'] m IH]; simpl.
  - rewrite elem_of_nil. split; [by intros [? ?]|done].
  - rewrite elem_of_cons. destruct (decide (k' = k)) as [->|Hne].
    + split; eauto.
    + rewrite IH. intuition congruence.
Qed.

Lemma orderedSet_keys_present m k v :
  k ∈ map fst m → map fst (orderedSet m k v) = map fst m.
Proof.
  induction m as [|[k' v'] m IH]; simpl.
  - by intros ?%elem_of_nil.
  - destruct (decide (k' = k)) as [->|Hne]; simpl; [done|].
    rewrite elem_of_cons. intros [?|Hin]; [congruence|]. by rewrite IH.
Qed.

Lemma orderedSet_keys_absent m k v :
  k ∉ map fst m → map fst (orderedSet m k v) = map fst m ++ [k].
Proof.
  induction m as [|[k' v'] m IH]; simpl; [done|].
  rewrite not_elem_of_cons. intros [Hne Hin].
  rewrite decide_False by done. simpl. by rewrite IH.
Qed.

Lemma orderedSet_keys_NoDup m k v :
  NoDup (map fst m) → NoDup (map fst (orderedSet m k v)).
Proof.
  intros Hnd. destruct (decide (k ∈ map fst m)) as [Hin|Hin].
  - by rewrite orderedSet_keys_present.
  - rewrite orderedSet_keys_absent by done.
    apply NoDup_app. split_and!; [done| |apply NoDup_singleton].
    intros x Hx ->%list_elem_of_singleton. done.
Qed.

End OrderedMapFacts.

(** ** Graph construction *)

Lemma leaving_app x (es1 es2 : list Edge) :
  leaving x (es1 ++ es2) = leaving x es1 ++ leaving x es2.
Proof. unfold leaving. by rewrite filter_app, map_app. Qed.

Lemma entering_app x (es1 es2 : list Edge) :
  entering x (es1 ++ es2) = (entering x es1 + entering x es2)%nat.
Proof. unfold entering. by rewrite filter_app, length_app. Qed.

Lemma buildActivityMap_lookup_from (l : list SchedulerActivity)
    (m : gmap string SchedulerActivity) x :
  foldl (λ m a, <[id a := a]> m) m l !! x
  = match list_find (λ a, id a = x) (reverse l) with
    | Some (_, a) => Some a
    | None => m !! x
    end.
Proof.
  revert m. induction l as [|a l IH]; intros m; simpl; [done|].
  rewrite IH, reverse_cons. clear IH.
  destruct (list_find (λ a, id a = x) (reverse l)) as [[i b]|] eqn:Hfind.
  - erewrite list_find_app_l by done. done.
  - rewrite list_find_app_r by done. simpl.
    destruct (decide (id a = x)) as [<-|Hne]; simpl.
    + by rewrite lookup_insert_eq.
    + by rewrite lookup_insert_ne.
Qed.

Lemma buildActivityMap_is_Some (l : list SchedulerActivity) x :
  is_Some (buildActivityMap l !! x) ↔ x ∈ map id l.
Proof.
  unfold buildActivityMap. rewrite buildActivityMap_lookup_from, lookup_empty.
  destruct (list_find _ _) as [[i a]|] eqn:Hfind.
  - apply list_find_Some in Hfind as (Hi & <- & _).
    split; [intros _|eauto].
    apply list_elem_of_fmap. exists a. split; [done|].
    apply elem_of_reverse. by eapply list_elem_of_lookup_2.
  - split; [by intros [? ?]|].
    intros (a & -> & Ha)%list_elem_of_fmap.
    eapply list_find_None, Forall_forall in Hfind; [|by apply elem_of_reverse].
    done.
Qed.

Lemma buildActivityMap_id (l : list SchedulerActivity) x a :
  buildActivityMap l !! x = Some a → id a = x ∧ a ∈ l.
Proof.
  unfold buildActivityMap. rewrite buildActivityMap_lookup_from, lookup_empty.
  destruct (list_find _ _) as [[i b]|] eqn:Hfind; [|done].
  intros [= ->]. apply list_find_Some in Hfind as (Hi & <- & _).
  split; [done|]. apply elem_of_reverse. by eapply list_elem_of_lookup_2.
Qed.

Lemma buildActivityMap_NoDup (l : list SchedulerActivity) a :
  NoDup (map id l) → a ∈ l → buildActivityMap l !! id a = Some a.
Proof.
  intros Hnd Ha.
  destruct (proj2 (buildActivityMap_is_Some l (id a))) as [b Hb].
  { apply list_elem_of_fmap. eauto. }
  rewrite Hb. f_equal.
  apply buildActivityMap_id in Hb as [Hid Hbl].
  apply list_elem_of_lookup in Ha as [i Hi].
  apply list_elem_of_lookup in Hbl as [j Hj].
  assert (i = j) as ->.
  { eapply NoDup_lookup; [done| |]; rewrite list_lookup_fmap.
    - by rewrite Hi.
    - rewrite Hj. simpl. by rewrite Hid. }
  congruence.
Qed.
Lemma initNode_fold (l : list SchedulerActivity) (g : Graph) :
  let g' := foldl initNode g l in
  activityMap g' = activityMap g
  ∧ (∀ x, successors g' !! x
          = if decide (x ∈ map id l) then Some [] else successors g !! x)
  ∧ (∀ x, orderedGet (inDegree g') x
          = if decide (x ∈ map id l) then Some 0 else orderedGet (inDegree g) x)
  ∧ (NoDup (map fst (inDegree g)) → NoDup (map fst (inDegree g'))).
Proof.
  revert g. induction l as [|a l IH]; intros g; simpl.
  - split_and!; try done.
  - destruct (IH (initNode g a)) as (HM & Hs & Hd & Hnd). split_and!.
    + by rewrite HM.
    + intros x. rewrite Hs. simpl.
      destruct (decide (x ∈ map id l)) as [Hin|Hin].
      * by rewrite decide_True by (by right).
      * destruct (decide (id a = x)) as [<-|Hne].
        -- rewrite lookup_insert_eq. by rewrite decide_True by (by left).
        -- rewrite lookup_insert_ne by done.
           rewrite decide_False; [done|]. rewrite not_elem_of_cons. done.
    + intros x. rewrite Hd. simpl.
      destruct (decide (x ∈ map id l)) as [Hin|Hin].
      * by rewrite decide_True by (by right).
      * rewrite orderedGet_set.
        destruct (decide (id a = x)) as [<-|Hne].
        -- by rewrite decide_True by (by left).
        -- rewrite decide_False; [done|]. rewrite not_elem_of_cons. done.
    + intros H. apply Hnd. simpl. by apply orderedSet_keys_NoDup.
Qed.

Lemma leaving_singleton x (e : Edge) :
  leaving x [e] = if decide (e.1 = x) then [e.2] else [].
Proof. unfold leaving. rewrite filter_cons. by destruct (decide (e.1 = x)). Qed.

Lemma entering_singleton x (e : Edge) :
  entering x [e] = if decide (successorId e.2 = x) then 1%nat else 0%nat.
Proof.
  unfold entering. rewrite filter_cons. by destruct (decide (successorId e.2 = x)).
Qed.

Lemma linkDependency_fold a (ds : list SchedulerDependency) (g : Graph) :
  is_Some (orderedGet (inDegree g) (id a)) →
  activityMap (foldl (linkDependency a) g ds) = activityMap g
  ∧ (∀ x, successors (foldl (linkDependency a) g ds) !! x
          = (λ rs, rs ++ leaving x (edgesVia (activityMap g) (id a) ds))
              <$> successors g !! x)
  ∧ (∀ x, orderedGet (inDegree (foldl (linkDependency a) g ds)) x
          = (λ v, v + Z.of_nat (entering x (edgesVia (activityMap g) (id a) ds)))
              <$> orderedGet (inDegree g) x)
  ∧ map fst (inDegree (foldl (linkDependency a) g ds)) = map fst (inDegree g).
Proof.
  revert g. induction ds as [|d ds IH]; intros g Hsome; cbn [foldl].
  - split_and!; [done| | |done]; intros x.
    + destruct (successors g !! x); simpl; [|done]. by rewrite app_nil_r.
    + destruct (orderedGet (inDegree g) x); simpl; [|done]. f_equal. unfold entering. simpl. lia.
  - assert (edgesVia (activityMap g) (id a) (d :: ds)
            = match activityMap g !! activityId d with
              | Some _ => [(activityId d, {| successorId := id a; dependency := d |})]
              | None => []
              end ++ edgesVia (activityMap g) (id a) ds) as ->.
    { unfold edgesVia. simpl. by destruct (activityMap g !! activityId d). }
    destruct (activityMap g !! activityId d) as [p|] eqn:Hp.
    2:{ assert (linkDependency a g d = g) as ->; [|by apply IH].
        unfold linkDependency. by rewrite Hp. }
    destruct (IH (linkDependency a g d)) as (HM & Hs & Hd & Hk).
    { unfold linkDependency. rewrite Hp. simpl. rewrite orderedGet_set_eq. eauto. }
    assert (activityMap (linkDependency a g d) = activityMap g) as HMg.
    { unfold linkDependency. by rewrite Hp. }
    rewrite HMg in *.
    split_and!; [done| | |]; [intros x..|].
    + rewrite Hs, leaving_app. unfold linkDependency. rewrite Hp. simpl.
      rewrite lookup_alter, leaving_singleton. simpl.
      destruct (decide (activityId d = x)) as [->|Hne]; simpl.
      * rewrite <- option_fmap_compose. apply option_fmap_ext.
        intros rs. simpl. by rewrite <- app_assoc.
      * done.
    + rewrite Hd, entering_app. unfold linkDependency. rewrite Hp. simpl.
      rewrite orderedGet_set, entering_singleton. simpl.
      destruct (decide (id a = x)) as [<-|Hne]; simpl.
      * destruct Hsome as [v ->]. simpl. f_equal. lia.
      * done.
    + rewrite Hk. unfold linkDependency. rewrite Hp. simpl.
      apply orderedSet_keys_present. by apply orderedGet_is_Some.
Qed.

Lemma linkActivity_fold (l : list SchedulerActivity) (g : Graph) :
  (∀ a, a ∈ l → is_Some (orderedGet (inDegree g) (id a))) →
  activityMap (foldl linkActivity g l) = activityMap g
  ∧ (∀ x, successors (foldl linkActivity g l) !! x
          = (λ rs, rs ++ leaving x (flat_map (edgesInto (activityMap g)) l))
              <$> successors g !! x)
  ∧ (∀ x, orderedGet (inDegree (foldl linkActivity g l)) x
          = (λ v, v + Z.of_nat (entering x (flat_map (edgesInto (activityMap g)) l)))
              <$> orderedGet (inDegree g) x)
  ∧ map fst (inDegree (foldl linkActivity g l)) = map fst (inDegree g).
Proof.
  revert g. induction l as [|a l IH]; intros g Hkeys; cbn [foldl flat_map].
  - split_and!; [done| | |done]; intros x.
    + destruct (successors g !! x); simpl; [|done]. by rewrite app_nil_r.
    + destruct (orderedGet (inDegree g) x); simpl; [|done]. f_equal.
      unfold entering. simpl. lia.
  - destruct (linkDependency_fold a (dependencies a) g) as (HM1 & Hs1 & Hd1 & Hk1).
    { apply Hkeys. by left. }
    fold (linkActivity g a) in HM1, Hs1, Hd1, Hk1.
    destruct (IH (linkActivity g a)) as (HM & Hs & Hd & Hk).
    { intros b Hb. rewrite Hd1.
      destruct (Hkeys b) as [v ->]; [by right|]. simpl. eauto. }
    rewrite HM1 in *. split_and!; [done| | |congruence]; intros x.
    + rewrite Hs, Hs1, leaving_app, <- option_fmap_compose.
      apply option_fmap_ext. intros rs. simpl. by rewrite <- app_assoc.
    + rewrite Hd, Hd1, entering_app, <- option_fmap_compose.
      apply option_fmap_ext. intros v. simpl. unfold edgesInto. lia.
Qed.

Lemma buildGraph_spec (l : list SchedulerActivity) :
  activityMap (buildGraph l) = buildActivityMap l
  ∧ (∀ x, successors (buildGraph l) !! x
          = if decide (x ∈ map id l) then Some (leaving x (edgesOf l)) else None)
  ∧ (∀ x, orderedGet (inDegree (buildGraph l)) x
          = if decide (x ∈ map id l)
            then Some (Z.of_nat (entering x (edgesOf l))) else None)
  ∧ NoDup (map fst (inDegree (buildGraph l))).
Proof.
  unfold buildGraph.
  set (g0 := Build_Graph _ _ _).
  destruct (initNode_fold l g0) as (HM0 & Hs0 & Hd0 & Hnd0).
  destruct (linkActivity_fold l (foldl initNode g0 l)) as (HM & Hs & Hd & Hk).
  { intros a Ha. rewrite Hd0, decide_True; [eauto|].
    apply list_elem_of_fmap. eauto. }
  rewrite HM0 in *. change (activityMap g0) with (buildActivityMap l) in *.
  fold (edgesOf l) in Hs, Hd.
  split_and!; [done|..].
  - intros x. rewrite Hs, Hs0. simpl. rewrite lookup_empty.
    by destruct (decide (x ∈ map id l)).
  - intros x. rewrite Hd, Hd0. simpl.
    by destruct (decide (x ∈ map id l)).
  - rewrite Hk. apply Hnd0. simpl. constructor.
Qed.

(** ** Kahn's algorithm *)

Lemma hits_cons x r rs :
  hits x (r :: rs) = ((if decide (successorId r = x) then 1 else 0) + hits x rs)%nat.
Proof. unfold hits. rewrite filter_cons. by destruct (decide (successorId r = x)). Qed.

Lemma releaseSuccessor_fold (rs : list SuccessorRelation) (c : list (string * Z))
    (q : list string) :
  (∀ r, r ∈ rs → successorId r ∈ map fst c) →
  ∃ c' pushed,
    foldl releaseSuccessor (c, q) rs = (c', q ++ pushed)
    ∧ map fst c' = map fst c
    ∧ (∀ x, orderedGet c' x = (λ v, v - Z.of_nat (hits x rs)) <$> orderedGet c x)
    ∧ ((∀ x v, orderedGet c x = Some v → Z.of_nat (hits x rs) ≤ v) →
       NoDup pushed
       ∧ ∀ x, x ∈ pushed ↔
              (0 < hits x rs)%nat ∧ orderedGet c x = Some (Z.of_nat (hits x rs))).
Proof.
  revert c q. induction rs as [|r rs IH]; intros c q Hkeys; cbn [foldl].
  - exists c, []. rewrite app_nil_r. split_and!; [done..| |].
    + intros x. destruct (orderedGet c x); simpl; [|done]. f_equal.
      unfold hits. simpl. lia.
    + intros _. split; [constructor|]. intros x. rewrite elem_of_nil.
      unfold hits. simpl. lia.
  - set (y := successorId r).
    assert (y ∈ map fst c) as Hy by (apply Hkeys; by left).
    destruct (proj2 (orderedGet_is_Some c y) Hy) as [vy Hvy].
    unfold releaseSuccessor at 2. cbn [fst snd]. fold y. rewrite Hvy. simpl.
    set (c1 := orderedSet c y (vy - 1)).
    set (now := if decide (vy - 1 = 0) then [y] else []).
    assert ((if decide (vy - 1 = 0) then q ++ [y] else q) = q ++ now) as ->.
    { unfold now. destruct (decide (vy - 1 = 0)); [done|by rewrite app_nil_r]. }
    assert (map fst c1 = map fst c) as Hk1 by (by apply orderedSet_keys_present).
    destruct (IH c1 (q ++ now)) as (c' & pushed & Hfold & Hk & Hget & Hpush).
    { intros r' Hr'. rewrite Hk1. apply Hkeys. by right. }
    exists c', (now ++ pushed). split_and!.
    + by rewrite Hfold, app_assoc.
    + congruence.
    + intros x. rewrite Hget, hits_cons. unfold c1. rewrite orderedGet_set.
      fold y. destruct (decide (y = x)) as [<-|Hne]; simpl.
      * rewrite Hvy. simpl. f_equal. lia.
      * destruct (orderedGet c x); simpl; [|done]. done.
    + intros Hle.
      assert (∀ x v, orderedGet c1 x = Some v → Z.of_nat (hits x rs) ≤ v) as Hle1.
      { intros x v. unfold c1. rewrite orderedGet_set.
        destruct (decide (y = x)) as [<-|Hne].
        - intros [= <-]. specialize (Hle y vy Hvy). rewrite hits_cons in Hle.
          fold y in Hle. rewrite decide_True in Hle by done. lia.
        - intros Hx. specialize (Hle x v Hx). rewrite hits_cons in Hle.
          fold y in Hle. rewrite decide_False in Hle by done. lia. }
      destruct (Hpush Hle1) as [Hnd Hin]. clear Hpush.
      assert (Hley := Hle y vy Hvy). rewrite hits_cons in Hley. fold y in Hley.
      rewrite decide_True in Hley by done.
      split.
      * apply NoDup_app. split_and!; [|  |done].
        -- unfold now. destruct (decide _); [apply NoDup_singleton|constructor].
        -- intros x. unfold now. destruct (decide (vy - 1 = 0)) as [Hz|Hz].
           ++ intros ->%list_elem_of_singleton. rewrite Hin. lia.
           ++ by intros ?%elem_of_nil.
      * intros x. rewrite elem_of_app, Hin, hits_cons. fold y.
        unfold c1. rewrite orderedGet_set. unfold now.
        destruct (decide (y = x)) as [<-|Hne].
        -- rewrite Hvy. destruct (decide (vy - 1 = 0)) as [Hz|Hz].
           ++ rewrite list_elem_of_singleton. split.
              ** intros _. split; [lia|]. f_equal. lia.
              ** auto.
           ++ rewrite elem_of_nil. split.
              ** intros [[]|[Hpos [= Heq]]]. split; [lia|]. f_equal. lia.
              ** intros [_ [= Heq]]. right. split; [lia|]. f_equal. lia.
        -- destruct (decide (vy - 1 = 0)) as [Hz|Hz].
           ++ rewrite list_elem_of_singleton. simpl.
              split; [intros [?|?]; [congruence|done]|auto].
           ++ rewrite elem_of_nil. simpl. split; [intros [[]|?]; done|auto].
Qed.

Lemma leaving_cons x (e : Edge) es :
  leaving x (e :: es) = (if decide (e.1 = x) then [e.2] else []) ++ leaving x es.
Proof. unfold leaving. rewrite filter_cons. by destruct (decide (e.1 = x)). Qed.

Lemma hits_app x rs1 rs2 : hits x (rs1 ++ rs2) = (hits x rs1 + hits x rs2)%nat.
Proof. unfold hits. by rewrite filter_app, length_app. Qed.

Lemma pending_cons (e : Edge) es done x :
  pending (e :: es) done x
  = ((if decide (successorId e.2 = x ∧ e.1 ∉ done) then 1 else 0)
     + pending es done x)%nat.
Proof.
  unfold pending. rewrite filter_cons.
  by destruct (decide (successorId e.2 = x ∧ e.1 ∉ done)).
Qed.

Lemma pending_snoc (edges : list Edge) done current x :
  current ∉ done →
  pending edges done x
  = (pending edges (done ++ [current]) x + hits x (leaving current edges))%nat.
Proof.
  intros Hcur. induction edges as [|e es IH]; [done|].
  rewrite !pending_cons, leaving_cons, hits_app, IH.
  assert (e.1 ∉ (done ++ [current]) ↔ (e.1 ∉ done) ∧ e.1 ≠ current) as Hsnoc.
  { rewrite elem_of_app, list_elem_of_singleton. tauto. }
  destruct (decide (e.1 = current)) as [He|He]; simpl.
  - rewrite hits_cons. change (hits x []) with 0%nat.
    destruct (decide (successorId e.2 = x)) as [Hx|Hx].
    + rewrite decide_True by (by rewrite He).
      rewrite decide_False by tauto. lia.
    + rewrite !decide_False by tauto. lia.
  - change (hits x []) with 0%nat.
    destruct (decide (successorId e.2 = x ∧ e.1 ∉ done)) as [Hd|Hd].
    + rewrite decide_True by tauto. lia.
    + rewrite decide_False by tauto. lia.
Qed.

Lemma pending_zero (edges : list Edge) done x :
  pending edges done x = 0%nat
  ↔ ∀ e, e ∈ edges → successorId e.2 = x → e.1 ∈ done.
Proof.
  induction edges as [|e es IH].
  - split; [|done]. by intros _ e ?%elem_of_nil.
  - rewrite pending_cons. split.
    + intros Hz e' [->|He']%elem_of_cons Hx.
      * destruct (decide (e.1 ∈ done)) as [|Hn]; [done|].
        rewrite decide_True in Hz by done. lia.
      * apply IH; [lia|done..].
    + intros Hall. rewrite decide_False.
      * simpl. apply IH. intros e' He'. apply Hall. by right.
      * intros [Hx Hn]. apply Hn, Hall; [by left|done].
Qed.

Section Kahn.
Context (edges : list Edge) (succs : gmap string (list SuccessorRelation))
        (nodes : list string).
Hypothesis succs_nodes : ∀ x, x ∈ nodes → succs !! x = Some (leaving x edges).
Hypothesis edges_nodes : ∀ e, e ∈ edges → successorId e.2 ∈ nodes.

Lemma kahnStep_inv st current rest :
  KahnInv edges nodes st → queue st = current :: rest →
  KahnInv edges nodes (kahnStep succs st current rest).
Proof.
  intros [Hnd Hnodes Hkeys Hcounts Hready Htopo] Hq. rewrite Hq in *.
  assert (current ∈ nodes) as Hcur.
  { apply Hnodes, elem_of_app. right. by left. }
  assert (current ∉ sortedOrder st) as Hfresh.
  { apply NoDup_app in Hnd as (_ & Hdisj & _). intros Hin.
    apply (Hdisj _ Hin). by left. }
  unfold kahnStep. rewrite succs_nodes by done. simpl.
  destruct (releaseSuccessor_fold (leaving current edges) (counts st) rest)
    as (c' & pushed & -> & Hk' & Hget & Hpush).
  { intros r Hr. rewrite Hkeys. unfold leaving in Hr.
    apply list_elem_of_fmap in Hr as (e & -> & He).
    apply list_elem_of_filter in He as [_ He]. by apply edges_nodes. }
  destruct Hpush as [Hpnd Hpin].
  { intros x v Hx. assert (x ∈ nodes) as Hxn.
    { rewrite <- Hkeys. apply orderedGet_is_Some. eauto. }
    rewrite Hcounts in Hx by done. injection Hx as <-.
    rewrite (pending_snoc _ _ current) by done. lia. }
  assert (∀ x, x ∈ pushed ↔
            x ∈ nodes ∧ (0 < hits x (leaving current edges))%nat
            ∧ pending edges (sortedOrder st ++ [current]) x = 0%nat) as Hpin'.
  { intros x. rewrite Hpin. split.
    - intros [Hpos Hx]. assert (x ∈ nodes) as Hxn.
      { rewrite <- Hkeys. apply orderedGet_is_Some. eauto. }
      rewrite Hcounts in Hx by done. injection Hx as Hx.
      rewrite (pending_snoc _ _ current) in Hx by done.
      split_and!; [done..|lia].
    - intros (Hxn & Hpos & Hz). split; [done|]. rewrite Hcounts by done.
      rewrite (pending_snoc _ _ current) by done. do 2 f_equal. lia. }
  split; simpl.
  - rewrite <- app_assoc. simpl.
    apply NoDup_app in Hnd as (Hnd1 & Hdisj & Hnd2).
    apply NoDup_cons in Hnd2 as [Hcr Hnd2].
    assert (∀ x, x ∈ pushed → x ∉ sortedOrder st ++ current :: rest) as Hnew.
    { intros x (Hxn & Hpos & _)%Hpin' Hold.
      apply Hready in Hold; [|done].
      rewrite (pending_snoc _ _ current) in Hold by done. lia. }
    apply NoDup_app. split_and!; [done| |].
    + intros x Hx. rewrite elem_of_cons, elem_of_app.
      intros [->|[Hr|Hp]]; [done| |].
      * apply (Hdisj _ Hx). by right.
      * apply (Hnew _ Hp), elem_of_app. by left.
    + apply NoDup_cons. split.
      * rewrite elem_of_app. intros [?|Hp]; [done|].
        apply (Hnew _ Hp), elem_of_app. right. by left.
      * apply NoDup_app. split_and!; [done| |done].
        intros x Hx Hp. apply (Hnew _ Hp), elem_of_app. right. by right.
  - intros x. rewrite <- app_assoc. simpl.
    rewrite elem_of_app, elem_of_cons, elem_of_app.
    intros [Hx|[->|[Hx|Hx]]]; [| done | |by apply Hpin' in Hx as [? _]];
      apply Hnodes; rewrite elem_of_app, elem_of_cons; auto.
  - congruence.
  - intros x Hx. rewrite Hget, Hcounts by done. simpl. f_equal.
    rewrite (pending_snoc _ _ current) by done. lia.
  - intros x Hx. rewrite <- app_assoc. simpl. split.
    + intros Hz. destruct (decide (pending edges (sortedOrder st) x = 0%nat)) as [Hold|Hold].
      * apply Hready in Hold; [|done]. revert Hold.
        rewrite !elem_of_app, !elem_of_cons, elem_of_app. tauto.
      * rewrite elem_of_app, elem_of_cons, elem_of_app. right. right. right.
        apply Hpin'. split_and!; [done| |done].
        rewrite (pending_snoc _ _ current) in Hold by done. lia.
    + intros Hin.
      assert (x ∈ sortedOrder st ++ current :: rest ∨ x ∈ pushed) as [Hold|Hp].
      { revert Hin. rewrite !elem_of_app, !elem_of_cons, elem_of_app. tauto. }
      * apply Hready in Hold; [|done].
        rewrite (pending_snoc _ _ current) in Hold by done. lia.
      * by apply Hpin' in Hp as (_ & _ & ?).
  - intros l1 x l2 Heq e He Hx.
    destruct (decide (l2 = [])) as [->|Hl2].
    + apply app_inj_tail in Heq as [<- <-].
      apply (pending_zero edges (sortedOrder st) current); [|done..].
      apply Hready; [done|]. apply elem_of_app. right. by left.
    + destruct (exists_last Hl2) as (l2' & y & ->).
      rewrite app_comm_cons, app_assoc in Heq.
      apply app_inj_tail in Heq as [Heq _].
      by eapply Htopo.
Qed.

Lemma kahnLoop_inv fuel st :
  KahnInv edges nodes st →
  (length nodes ≤ fuel + length (sortedOrder st))%nat →
  ∃ st', kahnLoop fuel succs st = Some (sortedOrder st')
         ∧ queue st' = [] ∧ KahnInv edges nodes st'.
Proof.
  revert st. induction fuel as [|fuel IH]; intros st Hinv Hfuel.
  - destruct (queue st) as [|current rest] eqn:Hq.
    + exists st. simpl. rewrite Hq. done.
    + exfalso. destruct Hinv as [Hnd Hnodes _ _ _ _].
      assert (length (sortedOrder st ++ queue st) ≤ length nodes)%nat as Hlen.
      { apply submseteq_length, NoDup_submseteq; done. }
      rewrite length_app, Hq in Hlen. simpl in *. lia.
  - destruct (queue st) as [|current rest] eqn:Hq.
    + exists st. simpl. rewrite Hq. done.
    + simpl. rewrite Hq. apply IH.
      * by apply kahnStep_inv.
      * unfold kahnStep. destruct (foldl _ _ _). simpl.
        rewrite length_app. simpl. lia.
Qed.
End Kahn.

Lemma edgesOf_endpoints (l : list SchedulerActivity) (e : Edge) :
  e ∈ edgesOf l →
  ∃ a, a ∈ l ∧ dependency e.2 ∈ dependencies a ∧ successorId e.2 = id a
       ∧ e.1 = activityId (dependency e.2) ∧ e.1 ∈ map id l.
Proof.
  unfold edgesOf. rewrite list_elem_of_In, in_flat_map.
  intros (a & Ha%list_elem_of_In & He%list_elem_of_In).
  unfold edgesInto, edgesVia in He.
  apply list_elem_of_omap in He as (d & Hd & He).
  destruct (buildActivityMap l !! activityId d) as [p|] eqn:Hp; [|done].
  injection He as <-. simpl. exists a. split_and!; try done.
  apply buildActivityMap_is_Some. eauto.
Qed.

Lemma edgesOf_elem (l : list SchedulerActivity) a d :
  a ∈ l → d ∈ dependencies a → activityId d ∈ map id l →
  (activityId d, {| successorId := id a; dependency := d |}) ∈ edgesOf l.
Proof.
  intros Ha Hd Hin. unfold edgesOf. rewrite list_elem_of_In, in_flat_map.
  exists a. split; [by apply list_elem_of_In|]. apply list_elem_of_In.
  unfold edgesInto, edgesVia. apply list_elem_of_omap. exists d. split; [done|].
  apply buildActivityMap_is_Some in Hin as [p ->]. done.
Qed.

Lemma pending_nil_done (edges : list Edge) x : pending edges [] x = entering x edges.
Proof.
  unfold pending, entering. f_equal. apply list_filter_iff.
  intros e. rewrite elem_of_nil. tauto.
Qed.

Lemma initialQueue_elem (c : list (string * Z)) x :
  NoDup (map fst c) → x ∈ initialQueue c ↔ orderedGet c x = Some 0.
Proof.
  unfold initialQueue. induction c as [|[k v] c IH]; simpl.
  - intros _. rewrite elem_of_nil. done.
  - intros [Hk Hnd]%NoDup_cons. rewrite filter_cons. simpl.
    destruct (decide (k = x)) as [->|Hne].
    + destruct (decide (v = 0)) as [->|Hv]; simpl.
      * split; [done|]. intros _. by left.
      * split; [|congruence]. intros Hin. destruct Hk.
        apply list_elem_of_fmap in Hin as ([k' v'] & -> & Hin).
        apply list_elem_of_filter in Hin as [_ Hin].
        apply list_elem_of_fmap. by exists (k', v').
    + rewrite <- IH by done. destruct (decide (v = 0)); simpl; [|done].
      rewrite elem_of_cons. split; [intros [?|?]; [congruence|done]|auto].
Qed.

Lemma initialQueue_NoDup (c : list (string * Z)) :
  NoDup (map fst c) → NoDup (initialQueue c).
Proof.
  unfold initialQueue. induction c as [|[k v] c IH]; simpl; [constructor|].
  intros [Hk Hnd]%NoDup_cons. rewrite filter_cons. simpl.
  destruct (decide (v = 0)); simpl; [|auto].
  apply NoDup_cons. split; [|auto]. intros Hin. destruct Hk.
  apply list_elem_of_fmap in Hin as ([k' v'] & -> & Hin).
  apply list_elem_of_filter in Hin as [_ Hin].
  apply list_elem_of_fmap. by exists (k', v').
Qed.

Lemma topologicalOrder_spec (l : list SchedulerActivity) :
  ∃ order, topologicalOrder l = Some order ∧ TopologicalOrder l order.
Proof.
  destruct (buildGraph_spec l) as (HM & Hs & Hd & Hnd).
  set (g := buildGraph l) in *.
  assert (∀ x, x ∈ map fst (inDegree g) ↔ x ∈ map id l) as Hnodes.
  { intros x. rewrite <- orderedGet_is_Some, Hd.
    destruct (decide (x ∈ map id l)); split; eauto; [by intros [? ?]|done]. }
  destruct (kahnLoop_inv (edgesOf l) (successors g) (map fst (inDegree g)))
    with (fuel := length l)
         (st := {| counts := inDegree g; queue := initialQueue (inDegree g);
                   sortedOrder := [] |})
    as (st' & Hloop & Hq & Hinv).
  - intros x Hx%Hnodes. by rewrite Hs, decide_True.
  - intros e (a & Ha & _ & -> & _)%edgesOf_endpoints.
    apply Hnodes, list_elem_of_fmap. eauto.
  - split; simpl.
    + by apply initialQueue_NoDup.
    + intros x Hx. apply initialQueue_elem in Hx; [|done].
      apply orderedGet_is_Some. eauto.
    + done.
    + intros x Hx%Hnodes. by rewrite Hd, decide_True, pending_nil_done.
    + intros x Hx%Hnodes. rewrite initialQueue_elem, Hd, decide_True by done.
      rewrite pending_nil_done. split; [by intros ->|]. intros [= ?]. lia.
    + intros l1 x l2 Heq. by destruct l1.
  - assert (length (map fst (inDegree g)) ≤ length (map id l))%nat as Hlen.
    { apply submseteq_length, NoDup_submseteq; [done|]. intros x. apply Hnodes. }
    rewrite (length_map id) in Hlen. simpl. lia.
  - exists (sortedOrder st'). split; [done|].
    destruct Hinv as [Hnd' Hin' _ _ Hready Htopo]. rewrite Hq, app_nil_r in *.
    split; [done| | |done].
    + intros x Hx. by apply Hnodes, Hin'.
    + intros x Hx%Hnodes. rewrite <- Hready by done. apply pending_zero.
Qed.

Lemma TopologicalOrder_complete (l : list SchedulerActivity) order :
  TopologicalOrder l order → length order = length l →
  NoDup (map id l) ∧ order ≡ₚ map id l.
Proof.
  intros [Hnd Hids _ _] Hlen.
  assert (order ≡ₚ map id l) as Hperm.
  { apply submseteq_length_Permutation.
    - by apply NoDup_submseteq.
    - rewrite length_map. lia. }
  split; [|done]. by rewrite <- Hperm.
Qed.

(** ** Forward pass *)

Lemma constrainStart_ext (early early' : EarlyDates) dur (ds : list SchedulerDependency) s :
  (∀ d, d ∈ ds →
     earlyStart early !! activityId d = earlyStart early' !! activityId d
     ∧ earlyFinish early !! activityId d = earlyFinish early' !! activityId d) →
  foldl (constrainStart early dur) s ds = foldl (constrainStart early' dur) s ds.
Proof.
  revert s. induction ds as [|d ds IH]; intros s Hext; simpl; [done|].
  rewrite IH by (intros d' Hd'; apply Hext; by right).
  f_equal. unfold constrainStart.
  destruct (Hext d) as [-> ->]; [by left|done].
Qed.

Lemma insert_is_Some_snoc (m : gmap string Z) (l1 : list string) x v :
  (∀ y, is_Some (m !! y) ↔ y ∈ l1) →
  ∀ y, is_Some (<[x := v]> m !! y) ↔ y ∈ l1 ++ [x].
Proof.
  intros Hm y.
  rewrite lookup_insert_is_Some', Hm, elem_of_app, list_elem_of_singleton.
  split; intros [?|?]; auto.
Qed.

Lemma boundLatestStart_ext (late late' : LateDates) dur
    (rs : list SuccessorRelation) s :
  (∀ r, r ∈ rs →
     lateStart late !! successorId r = lateStart late' !! successorId r
     ∧ lateFinish late !! successorId r = lateFinish late' !! successorId r) →
  foldl (boundLatestStart late dur) s rs = foldl (boundLatestStart late' dur) s rs.
Proof.
  revert s. induction rs as [|r rs IH]; intros s Hext; simpl; [done|].
  rewrite IH by (intros r' Hr'; apply Hext; by right).
  f_equal. unfold boundLatestStart.
  destruct (Hext r) as [-> ->]; [by left|done].
Qed.

Lemma insert_is_Some_cons (m : gmap string Z) (l2 : list string) x v :
  (∀ y, is_Some (m !! y) ↔ y ∈ l2) →
  ∀ y, is_Some (<[x := v]> m !! y) ↔ y ∈ x :: l2.
Proof.
  intros Hm y. rewrite lookup_insert_is_Some', Hm, elem_of_cons.
  split; intros [?|?]; auto.
Qed.

Lemma leaving_elem x (edges : list Edge) r : r ∈ leaving x edges ↔ (x, r) ∈ edges.
Proof.
  unfold leaving. rewrite list_elem_of_fmap. split.
  - intros ([p r'] & -> & [Hp Hin]%list_elem_of_filter). simpl in *. by subst.
  - intros Hin. exists (x, r). split; [done|]. by apply list_elem_of_filter.
Qed.

Section Acyclic.
Context (l : list SchedulerActivity) (order : list string).
Hypothesis order_spec : TopologicalOrder l order.
Hypothesis order_length : length order = length l.

Local Abbreviation M := (buildActivityMap l).

Lemma ids_NoDup : NoDup (map id l).
Proof. by destruct (TopologicalOrder_complete l order). Qed.

Lemma order_elem x : x ∈ order ↔ x ∈ map id l.
Proof.
  destruct (TopologicalOrder_complete l order) as [_ Hperm]; [done..|].
  by rewrite Hperm.
Qed.

Lemma activity_lookup a : a ∈ l → M !! id a = Some a.
Proof. apply buildActivityMap_NoDup, ids_NoDup. Qed.

(** A predecessor of [x] that exists comes before [x] in the order. *)
Lemma predecessor_before l1 x l2 a d :
  order = l1 ++ x :: l2 → a ∈ l → id a = x → d ∈ dependencies a →
  activityId d ∈ map id l → activityId d ∈ l1.
Proof.
  intros Heq Ha Hid Hd Hin.
  eapply (order_topo l order order_spec l1 x l2 Heq
            (activityId d, {| successorId := id a; dependency := d |}));
    [by apply edgesOf_elem|done].
Qed.

Lemma forwardPass_prefix l1 l2 :
  order = l1 ++ l2 →
  let early := forwardPass M l1 in
  (∀ x, is_Some (earlyStart early !! x) ↔ x ∈ l1)
  ∧ (∀ x, is_Some (earlyFinish early !! x) ↔ x ∈ l1)
  ∧ (∀ a, a ∈ l → id a ∈ l1 →
       ∃ s, earlyStart early !! id a = Some s
            ∧ earlyFinish early !! id a = Some (s + duration a - 1)
            ∧ s = foldl (constrainStart early (duration a))
                    (toValidStartDay (manualStart a)) (dependencies a)).
Proof.
  revert l2. induction l1 as [|x l1 IH] using rev_ind; intros l2 Heq.
  - simpl. split_and!.
    + intros x. rewrite lookup_empty, elem_of_nil. split; [by intros [? ?]|done].
    + intros x. rewrite lookup_empty, elem_of_nil. split; [by intros [? ?]|done].
    + by intros a _ ?%elem_of_nil.
  - rewrite <- app_assoc in Heq. simpl in Heq.
    destruct (IH (x :: l2) Heq) as (HS & HF & Hval). clear IH.
    unfold forwardPass in *. rewrite foldl_app. simpl.
    set (early := foldl (forwardStep M) _ l1) in *.
    assert (x ∈ map id l) as Hx.
    { apply order_elem. rewrite Heq, elem_of_app, elem_of_cons. auto. }
    apply list_elem_of_fmap in Hx as (a & -> & Ha).
    assert (id a ∉ l1) as Hfresh.
    { pose proof (order_NoDup l order order_spec) as Hnd.
      rewrite Heq in Hnd. apply NoDup_app in Hnd as (_ & Hdisj & _).
      intros Hin. apply (Hdisj _ Hin). by left. }
    unfold forwardStep. rewrite activity_lookup by done. simpl.
    set (start := foldl (constrainStart early (duration a)) _ _).
    split_and!.
    + by apply insert_is_Some_snoc.
    + by apply insert_is_Some_snoc.
    + intros b Hb Hin.
      assert (∀ d, d ∈ dependencies b → activityId d ≠ id a) as Hnodep.
      { intros d Hd Heqd.
        destruct (decide (id b = id a)) as [Hba|Hba].
        - apply Hfresh. rewrite <- Heqd.
          eapply (predecessor_before l1 (id a) l2 b d); try done.
          rewrite Heqd. apply list_elem_of_fmap. eauto.
        - apply elem_of_app in Hin as [Hin|Hin%list_elem_of_singleton]; [|done].
          apply list_elem_of_split in Hin as (p1 & p2 & ->).
          rewrite <- app_assoc in Heq. simpl in Heq.
          assert (activityId d ∈ p1) as Hp.
          { eapply (predecessor_before p1 (id b) _ b d); try done.
            rewrite Heqd. apply list_elem_of_fmap. eauto. }
          apply Hfresh. rewrite <- Heqd, elem_of_app. auto. }
      assert (∀ s, foldl (constrainStart early (duration b)) s (dependencies b)
                 = foldl (constrainStart
                            {| earlyStart := <[id a := start]> (earlyStart early);
                               earlyFinish := <[id a := start + duration a - 1]>
                                                (earlyFinish early) |}
                            (duration b)) s (dependencies b)) as Hsame.
      { intros s. apply constrainStart_ext. intros d Hd. simpl.
        rewrite !lookup_insert_ne by (by apply not_eq_sym, Hnodep). done. }
      destruct (decide (id b = id a)) as [Hba|Hba].
      * assert (b = a) as ->.
        { pose proof (activity_lookup b Hb) as Hlb. rewrite Hba in Hlb.
          rewrite activity_lookup in Hlb by done. congruence. }
        exists start. simpl. rewrite !lookup_insert_eq.
        split_and!; [done..|]. unfold start. apply Hsame.
      * apply elem_of_app in Hin as [Hin|Hin%list_elem_of_singleton]; [|done].
        destruct (Hval b Hb Hin) as (s & Hs & Hf & Hseq).
        exists s. simpl. rewrite !lookup_insert_ne by done.
        split_and!; [done..|]. rewrite <- Hsame. done.
Qed.

Lemma forwardPass_spec :
  let early := forwardPass M order in
  (∀ x, is_Some (earlyStart early !! x) ↔ x ∈ map id l)
  ∧ (∀ x, is_Some (earlyFinish early !! x) ↔ x ∈ map id l)
  ∧ (∀ a, a ∈ l →
       ∃ s, earlyStart early !! id a = Some s
            ∧ earlyFinish early !! id a = Some (s + duration a - 1)
            ∧ s = foldl (constrainStart early (duration a))
                    (toValidStartDay (manualStart a)) (dependencies a)).
Proof.
  destruct (forwardPass_prefix order []) as (HS & HF & Hval).
  { by rewrite app_nil_r. }
  split_and!.
  - intros x. by rewrite HS, order_elem.
  - intros x. by rewrite HF, order_elem.
  - intros a Ha. apply Hval; [done|]. apply order_elem, list_elem_of_fmap. eauto.
Qed.

(** *** Backward pass *)

Local Abbreviation g := (buildGraph l).
Local Abbreviation E := (edgesOf l).

Lemma graph_activityMap : activityMap g = M.
Proof. by destruct (buildGraph_spec l) as (? & _). Qed.

Lemma graph_successors a : a ∈ l → successors g !! id a = Some (leaving (id a) E).
Proof.
  intros Ha. destruct (buildGraph_spec l) as (_ & Hs & _).
  rewrite Hs, decide_True; [done|]. apply list_elem_of_fmap. eauto.
Qed.

(** A successor comes after its predecessor in the order. *)
Lemma successor_after l1 x l2 r :
  order = l1 ++ x :: l2 → r ∈ leaving x E → successorId r ∈ l2.
Proof.
  intros Heq Hr%leaving_elem.
  pose proof (order_NoDup l order order_spec) as Hnd. rewrite Heq in Hnd.
  apply NoDup_app in Hnd as (_ & Hdisj & [Hx _]%NoDup_cons).
  assert (successorId r ∈ order) as Hin.
  { apply order_elem. apply edgesOf_endpoints in Hr as (a & Ha & _ & Hsucc & _).
    simpl in Hsucc. rewrite Hsucc. apply list_elem_of_fmap. eauto. }
  assert (∀ p1 p2, order = p1 ++ successorId r :: p2 → x ∈ p1) as Hbefore.
  { intros p1 p2 Hsplit.
    by apply (order_topo l order order_spec p1 _ p2 Hsplit (x, r)). }
  rewrite Heq in Hin, Hbefore.
  apply elem_of_app in Hin as [Hin|[Hin|Hin]%elem_of_cons]; [| |done].
  - apply list_elem_of_split in Hin as (p1 & p2 & ->).
    destruct (Hdisj x); [|by left].
    rewrite elem_of_app. left. apply (Hbefore p1 (p2 ++ x :: l2)).
    by rewrite <- app_assoc.
  - destruct (Hdisj x); [|by left]. apply (Hbefore l1 l2). by rewrite Hin.
Qed.

Lemma backwardPass_suffix projectDuration l1 l2 :
  order = l1 ++ l2 →
  let late := foldl (backwardStep g projectDuration)
                {| lateStart := ∅; lateFinish := ∅ |} (reverse l2) in
  (∀ x, is_Some (lateStart late !! x) ↔ x ∈ l2)
  ∧ (∀ x, is_Some (lateFinish late !! x) ↔ x ∈ l2)
  ∧ (∀ a, a ∈ l → id a ∈ l2 →
       ∃ ls, lateStart late !! id a = Some ls
             ∧ lateFinish late !! id a = Some (ls + duration a - 1)
             ∧ ls = Z.max 1
                      (foldl (boundLatestStart late (duration a))
                         (projectDuration - duration a + 1)
                         (leaving (id a) E))).
Proof.
  revert l1. induction l2 as [|x l2 IH]; intros l1 Heq.
  - simpl. split_and!.
    + intros x. rewrite lookup_empty, elem_of_nil. split; [by intros [? ?]|done].
    + intros x. rewrite lookup_empty, elem_of_nil. split; [by intros [? ?]|done].
    + by intros a _ ?%elem_of_nil.
  - destruct (IH (l1 ++ [x])) as (HS & HF & Hval).
    { by rewrite <- app_assoc. }
    clear IH. rewrite reverse_cons, foldl_app. simpl.
    set (late := foldl (backwardStep g projectDuration) _ (reverse l2)) in *.
    assert (x ∈ map id l) as Hx.
    { apply order_elem. rewrite Heq, elem_of_app, elem_of_cons. auto. }
    apply list_elem_of_fmap in Hx as (a & -> & Ha).
    assert (id a ∉ l2) as Hfresh.
    { pose proof (order_NoDup l order order_spec) as Hnd.
      rewrite Heq in Hnd.
      by apply NoDup_app in Hnd as (_ & _ & [? _]%NoDup_cons). }
    unfold backwardStep. rewrite graph_activityMap, activity_lookup by done.
    rewrite graph_successors by done. simpl.
    set (ls := Z.max 1 _).
    split_and!.
    + by apply insert_is_Some_cons.
    + by apply insert_is_Some_cons.
    + intros b Hb Hin.
      assert (∀ r, r ∈ leaving (id b) E → successorId r ≠ id a) as Hnosucc.
      { intros r Hr Heqr. apply Hfresh. rewrite <- Heqr.
        apply elem_of_cons in Hin as [Hba|Hin].
        - rewrite Hba in Hr. by eapply successor_after.
        - apply list_elem_of_split in Hin as (p1 & p2 & ->).
          assert (successorId r ∈ p2) as Hp.
          { apply (successor_after (l1 ++ id a :: p1) (id b) p2); [|done].
            by rewrite <- app_assoc. }
          rewrite elem_of_app, elem_of_cons. auto. }
      assert (∀ s, foldl (boundLatestStart late (duration b)) s (leaving (id b) E)
                 = foldl (boundLatestStart
                            {| lateStart := <[id a := ls]> (lateStart late);
                               lateFinish := <[id a := ls + duration a - 1]>
                                               (lateFinish late) |}
                            (duration b)) s (leaving (id b) E)) as Hsame.
      { intros s. apply boundLatestStart_ext. intros r Hr. simpl.
        rewrite !lookup_insert_ne by (by apply not_eq_sym, Hnosucc). done. }
      destruct (decide (id b = id a)) as [Hba|Hba].
      * assert (b = a) as ->.
        { pose proof (activity_lookup b Hb) as Hlb. rewrite Hba in Hlb.
          rewrite activity_lookup in Hlb by done. congruence. }
        exists ls. simpl. rewrite !lookup_insert_eq.
        split_and!; [done..|]. unfold ls. f_equal. apply Hsame.
      * apply elem_of_cons in Hin as [?|Hin]; [done|].
        destruct (Hval b Hb Hin) as (s & Hs & Hf & Hseq).
        exists s. simpl. rewrite !lookup_insert_ne by done.
        split_and!; [done..|]. rewrite <- Hsame. done.
Qed.

Lemma backwardPass_spec projectDuration :
  let late := backwardPass g projectDuration order in
  (∀ x, is_Some (lateStart late !! x) ↔ x ∈ map id l)
  ∧ (∀ a, a ∈ l →
       ∃ ls, lateStart late !! id a = Some ls
             ∧ lateFinish late !! id a = Some (ls + duration a - 1)
             ∧ ls = Z.max 1
                      (foldl (boundLatestStart late (duration a))
                         (projectDuration - duration a + 1)
                         (leaving (id a) E))).
Proof.
  destruct (backwardPass_suffix projectDuration [] order) as (HS & HF & Hval);
    [done|].
  split.
  - intros x. unfold backwardPass. by rewrite HS, order_elem.
  - intros a Ha. apply Hval; [done|]. apply order_elem, list_elem_of_fmap. eauto.
Qed.
End Acyclic.

(** ** The passes in closed form *)

Lemma maximum_base x y xs : maximum (Z.max x y) xs = Z.max y (maximum x xs).
Proof. unfold maximum. induction xs as [|z zs IH]; simpl; lia. Qed.

Lemma minimum_base x y xs : minimum (Z.min x y) xs = Z.min y (minimum x xs).
Proof. unfold minimum. induction xs as [|z zs IH]; simpl; lia. Qed.

Lemma foldl_max_maximum x xs : foldl Z.max x xs = maximum x xs.
Proof.
  revert x. induction xs as [|y ys IH]; intros x; simpl; [done|].
  by rewrite IH, maximum_base.
Qed.

Lemma foldl_min_minimum x xs : foldl Z.min x xs = minimum x xs.
Proof.
  revert x. induction xs as [|y ys IH]; intros x; simpl; [done|].
  by rewrite IH, minimum_base.
Qed.

Lemma maximum_ge x xs : x ≤ maximum x xs ∧ ∀ y, y ∈ xs → y ≤ maximum x xs.
Proof.
  unfold maximum. induction xs as [|z zs [IH1 IH2]]; simpl.
  - split; [lia|]. by intros y ?%elem_of_nil.
  - split; [lia|]. intros y [->|Hy]%elem_of_cons; [lia|].
    specialize (IH2 y Hy). lia.
Qed.

Lemma maximum_attained x xs : maximum x xs = x ∨ maximum x xs ∈ xs.
Proof.
  unfold maximum. induction xs as [|z zs IH]; simpl; [by left|].
  destruct (Z.max_spec z (foldr Z.max x zs)) as [[_ ->]|[_ ->]].
  - destruct IH as [IH|IH]; [by left|]. right. by right.
  - right. by left.
Qed.

Lemma minimum_le x xs : minimum x xs ≤ x ∧ ∀ y, y ∈ xs → minimum x xs ≤ y.
Proof.
  unfold minimum. induction xs as [|z zs [IH1 IH2]]; simpl.
  - split; [lia|]. by intros y ?%elem_of_nil.
  - split; [lia|]. intros y [->|Hy]%elem_of_cons; [lia|].
    specialize (IH2 y Hy). lia.
Qed.

Lemma minimum_attained x xs : minimum x xs = x ∨ minimum x xs ∈ xs.
Proof.
  unfold minimum. induction xs as [|z zs IH]; simpl; [by left|].
  destruct (Z.min_spec z (foldr Z.min x zs)) as [[_ ->]|[_ ->]].
  - right. by left.
  - destruct IH as [IH|IH]; [by left|]. right. by right.
Qed.

Lemma minimum_glb x xs c : c ≤ x → (∀ y, y ∈ xs → c ≤ y) → c ≤ minimum x xs.
Proof.
  intros Hx Hxs. destruct (minimum_attained x xs) as [->|Hin]; [done|].
  by apply Hxs.
Qed.

Lemma constrainStart_fold early dur s ds :
  foldl (constrainStart early dur) s ds = maximum s (omap (edgeStart early dur) ds).
Proof.
  rewrite <- foldl_max_maximum. revert s.
  induction ds as [|d ds IH]; intros s; simpl; [done|].
  rewrite IH. unfold constrainStart, edgeStart.
  destruct (earlyStart early !! activityId d); simpl; [|done].
  destruct (earlyFinish early !! activityId d); simpl; done.
Qed.

Lemma boundLatestStart_fold late dur s rs :
  foldl (boundLatestStart late dur) s rs = minimum s (omap (edgeBound late dur) rs).
Proof.
  rewrite <- foldl_min_minimum. revert s.
  induction rs as [|r rs IH]; intros s; simpl; [done|].
  rewrite IH. unfold boundLatestStart, edgeBound.
  destruct (lateStart late !! successorId r); simpl; [|done].
  destruct (lateFinish late !! successorId r); simpl; done.
Qed.

(** [omap] of a function that is defined exactly on [P]. *)
Lemma omap_defined {A B} (f : A → option B) (P : A → Prop) `{∀ x, Decision (P x)}
    (xs : list A) :
  (∀ x, x ∈ xs → is_Some (f x) ↔ P x) →
  Forall2 (λ x y, f x = Some y) (filter P xs) (omap f xs).
Proof.
  induction xs as [|x xs IH]; intros Hdef; simpl; [constructor|].
  rewrite filter_cons.
  assert (Forall2 (λ x y, f x = Some y) (filter P xs) (omap f xs)) as IH'.
  { apply IH. intros y Hy. apply Hdef. by right. }
  destruct (decide (P x)) as [HP|HP].
  - destruct (proj2 (Hdef x ltac:(by left)) HP) as [y Hy]. rewrite Hy.
    by constructor.
  - destruct (f x) as [y|] eqn:Hy; [|done].
    destruct HP. apply Hdef; [by left|eauto].
Qed.

Lemma omap_total {A B} (f : A → option B) (xs : list A) :
  (∀ x, x ∈ xs → is_Some (f x)) →
  Forall2 (λ x y, f x = Some y) xs (omap f xs).
Proof.
  induction xs as [|x xs IH]; intros Hdef; simpl; [constructor|].
  destruct (Hdef x) as [y Hy]; [by left|]. rewrite Hy. constructor; [done|].
  apply IH. intros z Hz. apply Hdef. by right.
Qed.

Lemma leaving_edgesVia (M : gmap string SchedulerActivity) x sid ds :
  is_Some (M !! x) →
  leaving x (edgesVia M sid ds)
  = map (λ d, {| successorId := sid; dependency := d |})
      (filter (λ d, activityId d = x) ds).
Proof.
  intros Hx. induction ds as [|d ds IH]; [done|].
  rewrite filter_cons.
  assert (edgesVia M sid (d :: ds)
          = match M !! activityId d with
            | Some _ => [(activityId d, {| successorId := sid; dependency := d |})]
            | None => []
            end ++ edgesVia M sid ds) as ->.
  { unfold edgesVia. simpl. by destruct (M !! activityId d). }
  rewrite leaving_app, IH.
  destruct (decide (activityId d = x)) as [->|Hne].
  - destruct Hx as [p ->]. rewrite leaving_singleton. simpl.
    by rewrite decide_True.
  - destruct (M !! activityId d); [|done].
    rewrite leaving_singleton. simpl. by rewrite decide_False.
Qed.

Lemma leaving_edgesOf (l : list SchedulerActivity) x :
  x ∈ map id l → leaving x (edgesOf l) = successorEdges l x.
Proof.
  intros Hx%buildActivityMap_is_Some. unfold edgesOf, successorEdges.
  generalize (buildActivityMap l) Hx. intros M HM. clear Hx.
  induction l as [|a l IH]; [done|]. simpl.
  rewrite leaving_app, IH. f_equal. by apply leaving_edgesVia.
Qed.

Lemma maximum_ext x xs ys : (∀ v, v ∈ xs ↔ v ∈ ys) → maximum x xs = maximum x ys.
Proof.
  intros Hext.
  destruct (maximum_ge x xs) as [Hx1 Hxs], (maximum_ge x ys) as [Hx2 Hys].
  apply Z.le_antisymm.
  - destruct (maximum_attained x xs) as [->|Hin]; [done|]. by apply Hys, Hext.
  - destruct (maximum_attained x ys) as [->|Hin]; [done|]. by apply Hxs, Hext.
Qed.

Lemma projectDurationOf_ge (m : gmap string Z) k v :
  m !! k = Some v → v ≤ projectDurationOf m.
Proof.
  intros Hk. unfold projectDurationOf.
  apply (maximum_ge 1 (map snd (map_to_list m))).
  apply list_elem_of_fmap. exists (k, v). split; [done|].
  by apply elem_of_map_to_list.
Qed.


Section AcyclicDates.
Context (l : list SchedulerActivity) (order : list string).
Hypothesis order_spec : TopologicalOrder l order.
Hypothesis order_length : length order = length l.

Local Abbreviation g := (buildGraph l).
Local Abbreviation early := (forwardPass (activityMap g) order).
Local Abbreviation projectDuration := (projectDurationOf (earlyFinish early)).
Local Abbreviation late := (backwardPass g projectDuration order).

Lemma edgeStart_is_Some a d :
  is_Some (edgeStart early (duration a) d) ↔ activityId d ∈ map id l.
Proof.
  rewrite graph_activityMap.
  destruct (forwardPass_spec l order order_spec order_length) as (HS & HF & _).
  rewrite <- HS. unfold edgeStart.
  destruct (earlyStart _ !! activityId d) as [ps|] eqn:Hps; simpl.
  - destruct (proj2 (HF (activityId d))) as [pf ->]; [apply HS; eauto|].
    simpl. split; eauto.
  - split; by intros [? ?].
Qed.

(** Earliest dates of an activity, from those of its predecessors. *)
Lemma earlyDates_closed a :
  a ∈ l →
  ∃ s starts,
    earlyStart early !! id a = Some s
    ∧ earlyFinish early !! id a = Some (s + duration a - 1)
    ∧ Forall2 (λ d v, edgeStart early (duration a) d = Some v)
        (filter (λ d, activityId d ∈ map id l) (dependencies a)) starts
    ∧ s = maximum (toValidStartDay (manualStart a)) starts.
Proof.
  intros Ha. rewrite graph_activityMap.
  destruct (forwardPass_spec l order order_spec order_length) as (_ & _ & Hval).
  destruct (Hval a Ha) as (s & Hs & Hf & Heq).
  exists s, (omap (edgeStart (forwardPass (buildActivityMap l) order) (duration a))
               (dependencies a)).
  split_and!; [done..| |by rewrite <- constrainStart_fold].
  apply omap_defined. intros d _. rewrite <- graph_activityMap.
  apply edgeStart_is_Some.
Qed.


Lemma edgeBound_is_Some a r :
  r ∈ successorEdges l (id a) → a ∈ l →
  is_Some (edgeBound late (duration a) r).
Proof.
  intros Hr Ha.
  destruct (backwardPass_spec l order order_spec order_length projectDuration)
    as (HS & Hval).
  rewrite <- leaving_edgesOf in Hr by (apply list_elem_of_fmap; eauto).
  apply leaving_elem, edgesOf_endpoints in Hr as (b & Hb & _ & Hsucc & _).
  simpl in Hsucc. destruct (Hval b Hb) as (ls & Hls & Hlf & _).
  unfold edgeBound. rewrite Hsucc, Hls, Hlf. simpl. eauto.
Qed.

(** Latest dates of an activity, from those of its successors. *)
Lemma lateDates_closed a :
  a ∈ l →
  ∃ ls bounds,
    lateStart late !! id a = Some ls
    ∧ lateFinish late !! id a = Some (ls + duration a - 1)
    ∧ Forall2 (λ r v, edgeBound late (duration a) r = Some v)
        (successorEdges l (id a)) bounds
    ∧ ls = Z.max 1 (minimum (projectDuration - duration a + 1) bounds).
Proof.
  intros Ha.
  destruct (backwardPass_spec l order order_spec order_length projectDuration)
    as (_ & Hval).
  destruct (Hval a Ha) as (ls & Hls & Hlf & Heq).
  rewrite leaving_edgesOf in Heq by (apply list_elem_of_fmap; eauto).
  exists ls, (omap (edgeBound late (duration a)) (successorEdges l (id a))).
  split_and!; [done..| |by rewrite <- boundLatestStart_fold].
  apply omap_total. intros r Hr. by apply edgeBound_is_Some.
Qed.
End AcyclicDates.

(** ** Floats are not negative *)

(** What the forward pass guarantees across one edge, and what follows for
    the bound and the slack of that edge. *)
Lemma edge_bound_ge_start d es dur esb durb lsb :
  earliestStartFromDependency d es (es + dur - 1) durb ≤ esb →
  esb ≤ lsb →
  es ≤ latestStartUpperBoundFromSuccessor (type d) (default 0 (lagDays d)) dur
         lsb (lsb + durb - 1).
Proof.
  unfold earliestStartFromDependency, latestStartUpperBoundFromSuccessor.
  destruct (type d); lia.
Qed.

Lemma edge_slack_nonneg d es dur esb durb :
  earliestStartFromDependency d es (es + dur - 1) durb ≤ esb →
  0 ≤ freeFloatAgainstSuccessor d es (es + dur - 1) esb (esb + durb - 1).
Proof.
  unfold earliestStartFromDependency, freeFloatAgainstSuccessor.
  destruct (type d); lia.
Qed.

Lemma toValidStartDay_ge_1 v : 1 ≤ toValidStartDay v.
Proof.
  unfold toValidStartDay. destruct (finiteNumber v) as [q|]; [|done].
  destruct (Qle_bool 1 q) eqn:Hq; [|done].
  apply Qle_bool_iff in Hq. change 1 with (Qfloor 1). by apply Qfloor_resp_le.
Qed.

Lemma toPositiveDuration_ge_1 v : 1 ≤ toPositiveDuration v.
Proof.
  unfold toPositiveDuration. destruct (finiteNumber v) as [q|]; [|done].
  destruct (Qle_bool q 0) eqn:Hq; [done|].
  assert (0 < q)%Q as Hpos.
  { apply Qnot_le_lt. intros Hle%Qle_bool_iff. congruence. }
  assert (0 < Qceiling q); [|lia].
  apply Z.lt_nge. intros Hle.
  assert (q <= 0)%Q; [|by apply Qlt_not_le in Hpos].
  apply Qle_trans with (inject_Z (Qceiling q)); [apply Qle_ceiling|].
  change 0%Q with (inject_Z 0). by rewrite <- Zle_Qle.
Qed.

Section AcyclicFloats.
Context (l : list SchedulerActivity) (order : list string).
Hypothesis order_spec : TopologicalOrder l order.
Hypothesis order_length : length order = length l.

Local Abbreviation g := (buildGraph l).
Local Abbreviation early := (forwardPass (activityMap g) order).
Local Abbreviation projectDuration := (projectDurationOf (earlyFinish early)).
Local Abbreviation late := (backwardPass g projectDuration order).

(** The earliest start of a successor respects the edge. *)
Lemma successor_start_ge a b d es esb :
  a ∈ l → b ∈ l → d ∈ dependencies b → activityId d = id a →
  earlyStart early !! id a = Some es →
  earlyStart early !! id b = Some esb →
  earliestStartFromDependency d es (es + duration a - 1) (duration b) ≤ esb.
Proof.
  intros Ha Hb Hd Hda Hes Hesb.
  destruct (earlyDates_closed l order order_spec order_length a Ha)
    as (s & _ & Hs & Hf & _ & _).
  destruct (earlyDates_closed l order order_spec order_length b Hb)
    as (sb & starts & Hsb & _ & Hall & Hmax).
  assert (s = es) as -> by congruence. assert (sb = esb) as -> by congruence.
  assert (d ∈ filter (λ d, activityId d ∈ map id l) (dependencies b)) as Hin.
  { apply list_elem_of_filter. split; [|done].
    rewrite Hda. apply list_elem_of_fmap. eauto. }
  apply list_elem_of_lookup in Hin as [i Hi].
  destruct (Forall2_lookup_l _ _ _ _ _ Hall Hi) as (v & Hv & Hedge).
  unfold edgeStart in Hedge. rewrite Hda, Hes, Hf in Hedge. simpl in Hedge.
  injection Hedge as <-. rewrite Hmax. apply maximum_ge.
  by eapply list_elem_of_lookup_2.
Qed.

Lemma late_ge_early_suffix l1 l2 :
  order = l1 ++ l2 →
  ∀ a es ls, a ∈ l → id a ∈ l2 →
    earlyStart early !! id a = Some es → lateStart late !! id a = Some ls →
    es ≤ ls.
Proof.
  revert l1. induction l2 as [|x l2 IH]; intros l1 Heq a es ls Ha Hin Hes Hls.
  { by apply elem_of_nil in Hin. }
  apply elem_of_cons in Hin as [Hx|Hin].
  2:{ eapply (IH (l1 ++ [x])); [by rewrite <- app_assoc|done..]. }
  destruct (lateDates_closed l order order_spec order_length a Ha)
    as (ls' & bounds & Hls' & _ & Hall & Hmin).
  assert (ls' = ls) as -> by congruence. rewrite Hmin.
  destruct (earlyDates_closed l order order_spec order_length a Ha)
    as (s & _ & Hs & Hf & _ & _).
  assert (s = es) as -> by congruence.
  etrans; [|apply Z.le_max_r]. apply minimum_glb.
  - pose proof (projectDurationOf_ge _ _ _ Hf). lia.
  - intros v Hv. apply list_elem_of_lookup in Hv as [i Hi].
    destruct (Forall2_lookup_r _ _ _ _ _ Hall Hi) as (r & Hr & Hbound).
    apply list_elem_of_lookup_2 in Hr.
    pose proof Hr as Hr'.
    rewrite <- leaving_edgesOf in Hr' by (apply list_elem_of_fmap; eauto).
    assert (successorId r ∈ l2) as Hafter.
    { apply (successor_after l order order_spec order_length l1 (id a) l2); [|done].
      by rewrite Hx. }
    apply leaving_elem, edgesOf_endpoints in Hr' as (b & Hb & Hd & Hsucc & Hpred & _).
    simpl in Hd, Hsucc, Hpred. rewrite Hsucc in Hafter.
    destruct (earlyDates_closed l order order_spec order_length b Hb)
      as (esb & _ & Hesb & _ & _ & _).
    destruct (lateDates_closed l order order_spec order_length b Hb)
      as (lsb & _ & Hlsb & Hlfb & _ & _).
    unfold edgeBound in Hbound. rewrite Hsucc, Hlsb, Hlfb in Hbound.
    simpl in Hbound. injection Hbound as <-.
    apply edge_bound_ge_start with (esb := esb).
    + by apply successor_start_ge.
    + eapply (IH (l1 ++ [x])); [by rewrite <- app_assoc|done..].
Qed.

Lemma late_ge_early a es ls :
  a ∈ l → earlyStart early !! id a = Some es → lateStart late !! id a = Some ls →
  es ≤ ls.
Proof.
  intros Ha. apply (late_ge_early_suffix [] order); [done..|].
  apply (order_elem l order order_spec order_length), list_elem_of_fmap. eauto.
Qed.

Lemma early_start_ge_1 a es :
  a ∈ l → earlyStart early !! id a = Some es → 1 ≤ es.
Proof.
  intros Ha Hes.
  destruct (earlyDates_closed l order order_spec order_length a Ha)
    as (s & starts & Hs & _ & _ & Hmax).
  assert (s = es) as -> by congruence. rewrite Hmax.
  destruct (maximum_ge (toValidStartDay (manualStart a)) starts) as [Hge _].
  pose proof (toValidStartDay_ge_1 (manualStart a)). lia.
Qed.
End AcyclicFloats.

(** ** The returned list *)

Lemma insertByStartDay_Permutation a (l : list SchedulerActivity) :
  insertByStartDay a l ≡ₚ a :: l.
Proof.
  induction l as [|b l IH]; simpl; [done|].
  destruct (decide (startDayKey a ≤ startDayKey b)); [done|].
  rewrite IH. apply Permutation_swap.
Qed.

Lemma sortByStartDay_Permutation (l : list SchedulerActivity) :
  sortByStartDay l ≡ₚ l.
Proof.
  induction l as [|a l IH]; simpl; [done|].
  by rewrite insertByStartDay_Permutation, IH.
Qed.

Lemma elem_of_sortByStartDay r (l : list SchedulerActivity) :
  r ∈ sortByStartDay l ↔ r ∈ l.
Proof. by rewrite sortByStartDay_Permutation. Qed.

Lemma calculateSchedule_total (acts : list Raw.Activity) :
  ∃ order,
    topologicalOrder (map normalizeActivity acts) = Some order
    ∧ TopologicalOrder (map normalizeActivity acts) order
    ∧ calculateSchedule acts
      = Some (if decide (length order ≠ length acts)
              then sequentialFallback (map normalizeActivity acts)
              else criticalPath (map normalizeActivity acts) order).
Proof.
  destruct (topologicalOrder_spec (map normalizeActivity acts)) as (order & Ho & Hspec).
  exists order. split_and!; [done..|].
  destruct acts as [|a acts].
  - simpl. destruct Hspec as [_ Hids _ _]. destruct order as [|x order].
    + done.
    + specialize (Hids x ltac:(by left)). by apply elem_of_nil in Hids.
  - unfold calculateSchedule. rewrite Ho. simpl. rewrite length_map.
    by destruct (decide _).
Qed.

Lemma Math_min_minimum v vs : Math_min (v :: vs) = Some (minimum v vs).
Proof. simpl. by rewrite foldl_min_minimum. Qed.

Section AcyclicResult.
Context (l : list SchedulerActivity) (order : list string).
Hypothesis order_spec : TopologicalOrder l order.
Hypothesis order_length : length order = length l.

Local Abbreviation g := (buildGraph l).
Local Abbreviation early := (forwardPass (activityMap g) order).
Local Abbreviation projectDuration := (projectDurationOf (earlyFinish early)).
Local Abbreviation late := (backwardPass g projectDuration order).

Lemma successorSlack_is_Some a r es ef :
  a ∈ l → r ∈ successorEdges l (id a) → is_Some (successorSlack early es ef r).
Proof.
  intros Ha Hr.
  rewrite <- leaving_edgesOf in Hr by (apply list_elem_of_fmap; eauto).
  apply leaving_elem, edgesOf_endpoints in Hr as (b & Hb & _ & Hsucc & _).
  simpl in Hsucc.
  destruct (earlyDates_closed l order order_spec order_length b Hb)
    as (esb & _ & Hesb & Hefb & _ & _).
  unfold successorSlack. rewrite Hsucc, Hesb, Hefb. eauto.
Qed.

(** The record [annotate] builds for an activity of the input. *)
Lemma annotate_acyclic a :
  a ∈ l →
  ∃ es ls slacks,
    earlyStart early !! id a = Some es
    ∧ lateStart late !! id a = Some ls
    ∧ Forall2 (λ r v, successorSlack early es (es + duration a - 1) r = Some v)
        (successorEdges l (id a)) slacks
    ∧ annotate g early late a
      = {| id := id a; name := name a; duration := duration a;
           predecessors := predecessors a; dependencies := dependencies a;
           startDay := Some es; endDay := Some (es + duration a - 1);
           status := status a;
           isCritical := bool_decide (ls - es = 0);
           totalFloat := ls - es;
           freeFloat := match slacks with
                        | [] => ls - es
                        | v :: vs => minimum v vs
                        end;
           manualStart := manualStart a |}.
Proof.
  intros Ha.
  destruct (earlyDates_closed l order order_spec order_length a Ha)
    as (es & _ & Hes & Hef & _ & _).
  destruct (lateDates_closed l order order_spec order_length a Ha)
    as (ls & _ & Hls & _ & _ & _).
  exists es, ls,
    (omap (successorSlack early es (es + duration a - 1)) (successorEdges l (id a))).
  split_and!; [done..| |].
  - apply omap_total. intros r Hr. by apply (successorSlack_is_Some a).
  - unfold annotate. rewrite Hes, Hef, Hls, graph_successors by done. simpl.
    rewrite leaving_edgesOf by (apply list_elem_of_fmap; eauto).
    f_equal.
    destruct (successorEdges l (id a)) as [|r rs] eqn:Hrs; [done|].
    destruct (successorSlack_is_Some a r es (es + duration a - 1)) as [v Hv];
      [done|rewrite Hrs; by left|].
    cbn [omap list_omap]. rewrite Hv.
    by rewrite Math_min_minimum.
Qed.

Lemma elem_of_criticalPath r :
  r ∈ criticalPath l order ↔ ∃ a, a ∈ l ∧ r = annotate g early late a.
Proof.
  unfold criticalPath. rewrite elem_of_sortByStartDay, list_elem_of_fmap.
  split; intros (a & ? & ?); eauto.
Qed.
End AcyclicResult.

(** ** The sequential fallback *)

Lemma toPositiveDuration_numberOfZ n : 1 ≤ n → toPositiveDuration (numberOfZ n) = n.
Proof.
  intros Hn. unfold toPositiveDuration, numberOfZ. simpl.
  destruct (Qle_bool (inject_Z n) 0) eqn:Hq.
  - apply Qle_bool_iff in Hq. change 0%Q with (inject_Z 0) in Hq.
    rewrite <- Zle_Qle in Hq. lia.
  - apply Qceiling_Z.
Qed.


Lemma elem_of_sequentialFrom cursor (l : list SchedulerActivity) r :
  1 ≤ cursor → r ∈ sequentialFrom cursor l →
  ∃ a s, a ∈ l ∧ id r = id a
         ∧ duration r = toPositiveDuration (numberOfZ (duration a))
         ∧ startDay r = Some s ∧ 1 ≤ s
         ∧ endDay r = Some (s + duration r - 1)
         ∧ totalFloat r = 0 ∧ freeFloat r = 0 ∧ isCritical r = true.
Proof.
  revert cursor. induction l as [|a l IH]; intros cursor Hc; simpl.
  { by intros ?%elem_of_nil. }
  intros [->|Hin]%elem_of_cons.
  - exists a, (Z.max cursor (toValidStartDay (manualStart a))). simpl.
    split_and!; try done; [by left|lia].
  - pose proof (toPositiveDuration_ge_1 (numberOfZ (duration a))).
    apply IH in Hin as (b & s & Hb & Hrest); [|lia].
    exists b, s. split; [by right|done].
Qed.

Lemma elem_of_normalized (acts : list Raw.Activity) a :
  a ∈ map normalizeActivity acts →
  ∃ raw, raw ∈ acts ∧ a = normalizeActivity raw
         ∧ id a = Raw.id raw
         ∧ duration a = toPositiveDuration (Raw.duration raw)
         ∧ 1 ≤ duration a.
Proof.
  intros (raw & -> & Hraw)%list_elem_of_fmap. exists raw.
  split_and!; try done. apply toPositiveDuration_ge_1.
Qed.

(** In the acyclic branch no latest start lies before the earliest start
    and no slack against a successor is negative. *)
Lemma acyclic_floats (l : list SchedulerActivity) (order : list string) a :
  TopologicalOrder l order → length order = length l → a ∈ l →
  let early := forwardPass (activityMap (buildGraph l)) order in
  let late := backwardPass (buildGraph l) (projectDurationOf (earlyFinish early))
                order in
  ∃ es ls slacks,
    earlyStart early !! id a = Some es
    ∧ lateStart late !! id a = Some ls
    ∧ 1 ≤ es ∧ es ≤ ls
    ∧ Forall2 (λ r v, successorSlack early es (es + duration a - 1) r = Some v)
        (successorEdges l (id a)) slacks
    ∧ Forall (λ v, 0 ≤ v) slacks
    ∧ annotate (buildGraph l) early late a
      = {| id := id a; name := name a; duration := duration a;
           predecessors := predecessors a; dependencies := dependencies a;
           startDay := Some es; endDay := Some (es + duration a - 1);
           status := status a;
           isCritical := bool_decide (ls - es = 0);
           totalFloat := ls - es;
           freeFloat := match slacks with
                        | [] => ls - es
                        | v :: vs => minimum v vs
                        end;
           manualStart := manualStart a |}.
Proof.
  intros Hspec Hlen Ha early late. subst late early.
  destruct (annotate_acyclic _ _ Hspec Hlen a Ha)
    as (es & ls & slacks & Hes & Hls & Hslacks & Hann).
  exists es, ls, slacks. split_and!; try done.
  - by apply (early_start_ge_1 _ _ Hspec Hlen a).
  - by apply (late_ge_early _ _ Hspec Hlen a).
  - apply Forall_forall. intros w Hw. apply list_elem_of_lookup in Hw as [i Hi].
    destruct (Forall2_lookup_r _ _ _ _ _ Hslacks Hi) as (rel & Hrel & Hslack).
    apply list_elem_of_lookup_2 in Hrel.
    rewrite <- leaving_edgesOf in Hrel by (apply list_elem_of_fmap; eauto).
    apply leaving_elem, edgesOf_endpoints in Hrel
      as (b & Hb & Hd & Hsucc & Hpred & _).
    simpl in Hd, Hsucc, Hpred.
    destruct (earlyDates_closed _ _ Hspec Hlen b Hb)
      as (esb & _ & Hesb & Hefb & _ & _).
    unfold successorSlack in Hslack. rewrite Hsucc, Hesb, Hefb in Hslack.
    injection Hslack as <-. apply edge_slack_nonneg.
    by apply (successor_start_ge _ _ Hspec Hlen a b).
Qed.

Lemma TopologicalOrder_length (l : list SchedulerActivity) order :
  TopologicalOrder l order → (length order ≤ length l)%nat.
Proof.
  intros [Hnd Hids _ _]. rewrite <- (length_map id l).
  by apply submseteq_length, NoDup_submseteq.
Qed.

(** Kahn's order leaves out the activities of a cycle. *)
Lemma waitsFor_before (l : list SchedulerActivity) order x p :
  TopologicalOrder l order → tc (waitsFor l) x p →
  ∀ l1 l2, order = l1 ++ x :: l2 → p ∈ l1.
Proof.
  intros Hspec Htc.
  induction Htc as [x p (e & He & <- & <-)|x z p (e & He & <- & <-) _ IH];
    intros l1 l2 Heq.
  - by apply (order_topo l order Hspec l1 _ l2 Heq e).
  - assert (e.1 ∈ l1) as (p1 & p2 & ->)%list_elem_of_split
      by by apply (order_topo l order Hspec l1 _ l2 Heq e).
    rewrite elem_of_app. left. apply (IH p1 (p2 ++ successorId e.2 :: l2)).
    by rewrite Heq, <- app_assoc.
Qed.

Lemma cycle_shortens_order (l : list SchedulerActivity) order :
  TopologicalOrder l order → Cyclic l → (length order < length l)%nat.
Proof.
  intros Hspec [x Hx].
  pose proof (TopologicalOrder_length l order Hspec) as Hle.
  destruct (decide (length order = length l)) as [Hlen|]; [|lia].
  assert (x ∈ order) as (l1 & l2 & Heq)%list_elem_of_split.
  { apply (order_elem l order Hspec Hlen).
    assert (∃ p, waitsFor l x p) as (p & e & He & _ & <-)
      by (inversion Hx; eauto).
    apply edgesOf_endpoints in He as (a & Ha & _ & -> & _).
    apply list_elem_of_fmap. eauto. }
  pose proof (waitsFor_before l order x x Hspec Hx l1 l2 Heq) as Hin.
  pose proof (order_NoDup l order Hspec) as Hnd. rewrite Heq in Hnd.
  apply NoDup_app in Hnd as (_ & Hdisj & _). destruct (Hdisj x Hin). by left.
Qed.

(** The fields every returned activity has, in either branch. *)
Lemma calculateSchedule_fields (acts : list Raw.Activity) :
  ∃ result,
    calculateSchedule acts = Some result
    ∧ Forall (λ r,
        ∃ raw s,
          raw ∈ acts ∧ id r = Raw.id raw
          ∧ duration r = toPositiveDuration (Raw.duration raw)
          ∧ startDay r = Some s ∧ 1 ≤ s
          ∧ endDay r = Some (s + duration r - 1)
          ∧ 0 ≤ totalFloat r ∧ 0 ≤ freeFloat r) result.
Proof.
  destruct (calculateSchedule_total acts) as (order & Ho & Hspec & ->).
  eexists. split; [done|]. apply Forall_forall. intros r Hr.
  destruct (decide (length order ≠ length acts)) as [Hcyc|Hlen%dec_stable].
  - apply elem_of_sequentialFrom in Hr as (a & s & Ha & Hid & Hdur & Hs & Hs1 & He & -> & -> & _);
      [|done].
    apply elem_of_normalized in Ha as (raw & Hraw & _ & Hida & Hdura & Hge).
    exists raw, s. rewrite toPositiveDuration_numberOfZ in Hdur by done.
    split_and!; try done; congruence.
  - rewrite <- (length_map normalizeActivity) in Hlen.
    apply (elem_of_criticalPath _ _) in Hr as (a & Ha & ->).
    destruct (acyclic_floats _ _ a Hspec Hlen Ha)
      as (es & ls & slacks & Hes & Hls & Hge & Hle & Hslacks & Hnonneg & ->).
    simpl. apply elem_of_normalized in Ha as (raw & Hraw & _ & Hida & Hdura & Hdge).
    exists raw, es. split_and!; try done; [lia|].
    destruct slacks as [|v vs]; [lia|].
    apply Forall_cons in Hnonneg as [Hv Hvs].
    apply minimum_glb; [done|]. intros w Hw.
    by eapply Forall_forall in Hvs.
Qed.

(** ** The acyclic branch of [calculateSchedule] *)

Lemma normalized_ids (acts : list Raw.Activity) :
  map id (map normalizeActivity acts) = map Raw.id acts.
Proof. rewrite map_map. by apply map_ext. Qed.

Lemma calculateSchedule_acyclic (acts : list Raw.Activity) order :
  topologicalOrder (map normalizeActivity acts) = Some order →
  length order = length acts →
  TopologicalOrder (map normalizeActivity acts) order
  ∧ calculateSchedule acts = Some (criticalPath (map normalizeActivity acts) order).
Proof.
  intros Horder Hlen.
  destruct (calculateSchedule_total acts) as (order' & Ho & Hspec & ->).
  assert (order' = order) as -> by congruence.
  by rewrite decide_False by (intros ?; done).
Qed.


(** ** The normalizer *)

Lemma append_cons c (a b : string) : String c a +:+ b = String c (a +:+ b).
Proof. done. Qed.

Lemma append_empty (b : string) : "" +:+ b = b.
Proof. done. Qed.

Lemma append_assoc (a b c : string) : (a +:+ b) +:+ c = a +:+ b +:+ c.
Proof.
  induction a as [|x a IH]; [done|]. by rewrite !append_cons, IH.
Qed.

Lemma split_at_last_bar s1 s2 p1 p2 :
  hasBar p1 = false → hasBar p2 = false →
  s1 +:+ String "|" p1 = s2 +:+ String "|" p2 → s1 = s2 ∧ p1 = p2.
Proof.
  intros Hp1 Hp2. revert s2.
  assert (∀ s p, hasBar (s +:+ String "|" p) = true) as Hbar.
  { intros s p. induction s as [|c s IH]; [done|].
    rewrite append_cons. simpl. by destruct (decide (c = "|"%char)). }
  induction s1 as [|c1 s1 IH]; intros [|c2 s2];
    rewrite ?append_cons, ?append_empty.
  - by intros [= ->].
  - intros [= <- ->]. by rewrite Hbar in Hp1.
  - intros [= -> <-]. by rewrite Hbar in Hp2.
  - intros [= -> Heq]. destruct (IH s2 Heq) as [-> ->]. done.
Qed.

Lemma hasBar_pretty_N_go x s : hasBar s = false → hasBar (pretty_N_go x s) = false.
Proof.
  revert s. induction (N.lt_wf_0 x) as [x _ IH]; intros s Hs.
  destruct (decide (0 < x)%N) as [Hx|Hx].
  - rewrite pretty_N_go_step by done. apply IH.
    + by apply N.div_lt.
    + simpl. rewrite decide_False; [done|].
      unfold pretty_N_char. by repeat case_match.
  - assert (x = 0%N) as -> by lia. by rewrite pretty_N_go_0.
Qed.

Lemma hasBar_numberToString n : hasBar (numberToString n) = false.
Proof.
  assert (∀ p : positive, hasBar (pretty p) = false) as Hpos.
  { intros p. unfold pretty, pretty_positive, pretty, pretty_N.
    rewrite decide_False by done. by apply hasBar_pretty_N_go. }
  unfold numberToString, pretty, pretty_Z. destruct n as [|p|p]; [done|apply Hpos|].
  simpl. apply Hpos.
Qed.

Lemma typeName_inj t1 t2 : typeName t1 = typeName t2 → t1 = t2.
Proof. by destruct t1, t2. Qed.

Lemma dependencyKey_inj d1 d2 :
  is_Some (lagDays d1) → is_Some (lagDays d2) →
  dependencyKey d1 = dependencyKey d2 → d1 = d2.
Proof.
  destruct d1 as [a1 t1 l1], d2 as [a2 t2 l2]. simpl.
  intros [n1 ->] [n2 ->]. unfold dependencyKey. simpl. intros Heq.
  assert (∀ (a t r : string), a +:+ "|" +:+ t +:+ "|" +:+ r
                   = (a +:+ String "|" t) +:+ String "|" r) as Hassoc.
  { intros a t r. by rewrite append_assoc. }
  rewrite !Hassoc in Heq.
  apply split_at_last_bar in Heq as [Heq Hn]; [|apply hasBar_numberToString..].
  apply split_at_last_bar in Heq as [-> Ht]; [|by destruct t1|by destruct t2].
  apply typeName_inj in Ht as ->.
  apply (inj pretty) in Hn as ->. done.
Qed.

Lemma append_spec st d :
  NormalizerInv st → activityId d ≠ "" → is_Some (lagDays d) →
  NormalizerInv (append st d)
  ∧ normalized (append st d) = addFirst (normalized st) d.
Proof.
  intros [Hlag Hseen] Hid Hd. unfold append, addFirst.
  rewrite decide_False by done.
  destruct (decide (dependencyKey d ∈ seen st)) as [Hin|Hin].
  - apply Hseen in Hin as (d' & Hd' & Hkey).
    apply dependencyKey_inj in Hkey as ->; [|by apply Hlag|done].
    rewrite decide_True by done. done.
  - rewrite decide_False.
    2:{ intros Hd'. apply Hin, Hseen. eauto. }
    split; [|done]. split; simpl.
    + intros d' [Hd'|Hd'%list_elem_of_singleton]%elem_of_app; [auto|by subst].
    + intros k. rewrite elem_of_union, elem_of_singleton, Hseen. split.
      * intros [->|(d' & Hd' & <-)].
        -- exists d. split; [|done]. apply elem_of_app. right. by left.
        -- exists d'. split; [|done]. apply elem_of_app. by left.
      * intros (d' & [Hd'|Hd'%list_elem_of_singleton]%elem_of_app & <-);
          [eauto|subst; auto].
Qed.

Lemma coerceDependency_wf entry d :
  coerceDependency entry = Some d → activityId d ≠ "" ∧ is_Some (lagDays d).
Proof.
  destruct entry as [|[| |?|?|rawId] rawType rawLag]; simpl; try done.
  destruct (decide (trim rawId = "")); [done|]. intros [= <-]. simpl. eauto.
Qed.

Lemma coercePredecessor_wf predId d :
  coercePredecessor predId = Some d → activityId d ≠ "" ∧ is_Some (lagDays d).
Proof.
  destruct predId as [| |?|?|rawId]; simpl; try done.
  destruct (decide (trim rawId = "")); [done|]. intros [= <-]. simpl. eauto.
Qed.

Lemma appendDependency_coerce st entry :
  appendDependency st entry
  = match coerceDependency entry with Some d => append st d | None => st end.
Proof.
  destruct entry as [|[| |?|?|rawId] rawType rawLag]; simpl; try done.
  by destruct (decide (trim rawId = "")).
Qed.

Lemma appendPredecessor_coerce st predId :
  appendPredecessor st predId
  = match coercePredecessor predId with Some d => append st d | None => st end.
Proof.
  destruct predId as [| |?|?|rawId]; simpl; try done.
  by destruct (decide (trim rawId = "")).
Qed.

Lemma append_fold {A} (step : NormalizerState → A → NormalizerState)
    (coerce : A → option SchedulerDependency) (entries : list A) st :
  (∀ st x, step st x = match coerce x with Some d => append st d | None => st end) →
  (∀ x d, coerce x = Some d → activityId d ≠ "" ∧ is_Some (lagDays d)) →
  NormalizerInv st →
  NormalizerInv (foldl step st entries)
  ∧ normalized (foldl step st entries)
    = foldl addFirst (normalized st) (omap coerce entries).
Proof.
  intros Hstep Hwf. revert st.
  induction entries as [|x entries IH]; intros st Hinv; simpl; [done|].
  rewrite Hstep. destruct (coerce x) as [d|] eqn:Hx; [|by apply IH].
  destruct (Hwf x d Hx) as [Hid Hlag].
  destruct (append_spec st d Hinv Hid Hlag) as [Hinv' Hnorm].
  destruct (IH _ Hinv') as [Hinv'' ->]. by rewrite Hnorm.
Qed.

Lemma addFirst_keepFirst acc ds :
  foldl addFirst acc ds = acc ++ filter (λ d, d ∉ acc) (keepFirst ds).
Proof.
  revert acc. induction ds as [|d ds IH]; intros acc; simpl.
  - by rewrite app_nil_r.
  - rewrite IH, filter_cons. unfold addFirst.
    destruct (decide (d ∈ acc)) as [Hin|Hin].
    + rewrite decide_False by (intros Hn; by apply Hn). f_equal.
      rewrite list_filter_filter. apply list_filter_iff.
      intros d'. split; [|by intros [? ?]]. intros Hd'. split; [done|]. congruence.
    + rewrite decide_True by done. rewrite <- app_assoc. simpl. do 2 f_equal.
      rewrite list_filter_filter. apply list_filter_iff.
      intros d'. rewrite elem_of_app, list_elem_of_singleton.
      split; [|intros [? ?] [?|?]; done]. intros Hd'. split; auto.
Qed.

Lemma filter_all {A} (P : A → Prop) `{∀ x, Decision (P x)} (l : list A) :
  (∀ x, P x) → filter P l = l.
Proof.
  intros HP. induction l as [|x l IH]; [done|].
  by rewrite filter_cons_True, IH.
Qed.

Lemma normalizeActivityDependencies_closed
    (dependencies : option (list Raw.Dependency))
    (predecessors : option (list JsValue)) :
  normalizeActivityDependencies dependencies predecessors
  = keepFirst (candidateDependencies dependencies predecessors).
Proof.
  unfold normalizeActivityDependencies, candidateDependencies.
  set (st0 := {| seen := ∅; normalized := [] |}).
  assert (NormalizerInv st0) as Hinv0.
  { split; simpl.
    - by intros d ?%elem_of_nil.
    - intros k. rewrite elem_of_empty. split; [done|].
      by intros (d & ?%elem_of_nil & _). }
  destruct (append_fold appendDependency coerceDependency
              (default [] dependencies) st0) as [Hinv1 Hnorm1];
    [apply appendDependency_coerce|apply coerceDependency_wf|done|].
  destruct (append_fold appendPredecessor coercePredecessor
              (default [] predecessors) _
              appendPredecessor_coerce coercePredecessor_wf Hinv1) as [_ ->].
  rewrite Hnorm1. simpl. rewrite <- foldl_app, addFirst_keepFirst. simpl.
  apply filter_all. intros d. apply not_elem_of_nil.
Qed.

(** ** Links that the engine discards *)

Lemma keepFirst_elem l d : d ∈ keepFirst l ↔ d ∈ l.
Proof.
  induction l as [|x l IH]; simpl; [done|].
  rewrite !elem_of_cons, list_elem_of_filter, IH.
  destruct (decide (d = x)) as [->|Hne]; [split; auto|].
  split; [intros [?|[_ ?]]; auto|intros [?|?]; auto].
Qed.

Lemma keepFirst_NoDup l : NoDup (keepFirst l).
Proof.
  induction l as [|x l IH]; simpl; [constructor|].
  apply NoDup_cons. split.
  - rewrite list_elem_of_filter. by intros [? _].
  - by apply NoDup_filter.
Qed.



Lemma keepFirst_filter (P : SchedulerDependency → Prop) `{∀ d, Decision (P d)} l :
  filter P (keepFirst l) = keepFirst (filter P l).
Proof.
  induction l as [|x l IH]; simpl; [done|].
  rewrite !filter_cons. destruct (decide (P x)) as [Hx|Hx]; simpl.
  - f_equal. rewrite <- IH, !list_filter_filter. apply list_filter_iff.
    intros d. split; intros [? ?]; done.
  - rewrite <- IH, list_filter_filter. apply list_filter_iff.
    intros d. split; [by intros [? _]|]. intros Hd. split; [done|]. congruence.
Qed.

Lemma omap_cons_eq {A B} (f : A → option B) x (l : list A) :
  omap f (x :: l) = match f x with Some y => y :: omap f l | None => omap f l end.
Proof. done. Qed.

(** Dropping entries that a filter on the result would drop anyway. *)
Lemma filter_omap_filter {A} (P : SchedulerDependency → Prop) `{∀ d, Decision (P d)}
    (K : A → Prop) `{∀ x, Decision (K x)}
    (f : A → option SchedulerDependency) (l : list A) :
  (∀ x d, ¬K x → f x = Some d → ¬P d) →
  filter P (omap f (filter K l)) = filter P (omap f l).
Proof.
  intros Hdrop. induction l as [|x l IH]; [done|].
  rewrite filter_cons, (omap_cons_eq f x l).
  destruct (decide (K x)) as [Hx|Hx].
  - rewrite omap_cons_eq. destruct (f x) as [d|]; [|done].
    by rewrite !filter_cons, IH.
  - rewrite IH. destruct (f x) as [d|] eqn:Hfx; [|done].
    rewrite filter_cons_False; [done|]. by eapply Hdrop.
Qed.

(** The dependencies the engine keeps for an activity. *)
Lemma normalizeActivity_dependencies (a : Raw.Activity) :
  dependencies (normalizeActivity a)
  = keepFirst (filter (λ d, activityId d ≠ Raw.id a)
                 (candidateDependencies (Raw.dependencies a) (Raw.predecessors a))).
Proof.
  simpl. by rewrite normalizeActivityDependencies_closed, keepFirst_filter.
Qed.

Lemma coerceDependency_listed entry d :
  coerceDependency entry = Some d →
  ∃ rawId, listedId entry = Some rawId ∧ activityId d = trim rawId.
Proof.
  destruct entry as [|[| |?|?|rawId] rawType rawLag]; simpl; try done.
  destruct (decide (trim rawId = "")); [done|]. intros [= <-]. eauto.
Qed.

Lemma coercePredecessor_listed predId d :
  coercePredecessor predId = Some d →
  ∃ rawId, stringOf predId = Some rawId ∧ activityId d = trim rawId.
Proof.
  destruct predId as [| |?|?|rawId]; simpl; try done.
  destruct (decide (trim rawId = "")); [done|]. intros [= <-]. eauto.
Qed.


(** ** The schedule depends on the set of existing links only *)

Lemma calculateSchedule_scheduleOf (acts : list Raw.Activity) :
  calculateSchedule acts = scheduleOf (map normalizeActivity acts).
Proof.
  destruct (calculateSchedule_total acts) as (order & Ho & _ & ->).
  unfold scheduleOf. rewrite Ho. simpl. by rewrite length_map.
Qed.

Lemma elem_of_edgesOf (l : list SchedulerActivity) (e : Edge) :
  e ∈ edgesOf l ↔
  ∃ a d, a ∈ l ∧ d ∈ dependencies a ∧ activityId d ∈ map id l
         ∧ e = (activityId d, {| successorId := id a; dependency := d |}).
Proof.
  split.
  - intros He. destruct (edgesOf_endpoints l e He) as (a & Ha & Hd & Hs & Hp & Hin).
    exists a, (dependency e.2). destruct e as [p [s d]]. simpl in *.
    split_and!; [done..|congruence|congruence].
  - intros (a & d & Ha & Hd & Hin & ->). by apply edgesOf_elem.
Qed.

Lemma minimum_ext x xs ys : (∀ v, v ∈ xs ↔ v ∈ ys) → minimum x xs = minimum x ys.
Proof.
  intros Hext.
  destruct (minimum_le x xs) as [Hx1 Hxs], (minimum_le x ys) as [Hx2 Hys].
  apply Z.le_antisymm.
  - destruct (minimum_attained x ys) as [->|Hin]; [done|]. by apply Hxs, Hext.
  - destruct (minimum_attained x xs) as [->|Hin]; [done|]. by apply Hys, Hext.
Qed.

Lemma Math_min_ext xs ys : (∀ v, v ∈ xs ↔ v ∈ ys) → Math_min xs = Math_min ys.
Proof.
  intros Hext. destruct xs as [|x xs], ys as [|y ys]; [done| | |].
  - exfalso. eapply elem_of_nil, Hext. by left.
  - exfalso. eapply elem_of_nil, Hext. by left.
  - rewrite !Math_min_minimum. f_equal.
    assert (∀ z zs, z :: zs ≠ [] → (∀ v, v ∈ z :: zs → minimum z zs ≤ v)
                    ∧ minimum z zs ∈ z :: zs) as Hleast.
    { intros z zs _. destruct (minimum_le z zs) as [Hz Hzs]. split.
      - intros v [->|Hv]%elem_of_cons; auto.
      - destruct (minimum_attained z zs) as [->|Hin]; [by left|by right]. }
    destruct (Hleast x xs) as [Hlex Hinx]; [done|].
    destruct (Hleast y ys) as [Hley Hiny]; [done|].
    apply Z.le_antisymm; [by apply Hlex, Hext|by apply Hley, Hext].
Qed.

Lemma SameConstraints_ids ids (l l' : list SchedulerActivity) :
  Forall2 (SameConstraints ids) l l' → map id l = map id l'.
Proof.
  induction 1 as [|a a' k k' (Hid & _) _ IH]; [done|]. simpl. by rewrite Hid, IH.
Qed.

Section Invariance.
Context (l l' : list SchedulerActivity).
Hypothesis same : Forall2 (SameConstraints (map id l)) l l'.

Lemma same_ids : map id l = map id l'.
Proof. by eapply SameConstraints_ids. Qed.

Lemma same_length : length l = length l'.
Proof. by eapply Forall2_length. Qed.

Lemma same_pair_l a :
  a ∈ l → ∃ a', a' ∈ l' ∧ SameConstraints (map id l) a a'.
Proof.
  intros [i Hi]%list_elem_of_lookup.
  destruct (Forall2_lookup_l _ _ _ _ _ same Hi) as (a' & Ha' & Hsame).
  exists a'. split; [by eapply list_elem_of_lookup_2|done].
Qed.

Lemma same_pair_r a' :
  a' ∈ l' → ∃ a, a ∈ l ∧ SameConstraints (map id l) a a'.
Proof.
  intros [i Hi]%list_elem_of_lookup.
  destruct (Forall2_lookup_r _ _ _ _ _ same Hi) as (a & Ha & Hsame).
  exists a. split; [by eapply list_elem_of_lookup_2|done].
Qed.

Lemma same_edges e : e ∈ edgesOf l ↔ e ∈ edgesOf l'.
Proof.
  rewrite !elem_of_edgesOf, <- same_ids. split.
  - intros (a & d & Ha & Hd & Hin & ->).
    destruct (same_pair_l a Ha) as (a' & Ha' & Hid & _ & _ & Hperm).
    exists a', d. rewrite <- Hid. split_and!; try done.
    assert (d ∈ filter (λ d, activityId d ∈ map id l) (dependencies a')) as Hd'.
    { rewrite <- Hperm. by apply list_elem_of_filter. }
    by apply list_elem_of_filter in Hd' as [_ ?].
  - intros (a' & d & Ha' & Hd & Hin & ->).
    destruct (same_pair_r a' Ha') as (a & Ha & Hid & _ & _ & Hperm).
    exists a, d. rewrite Hid. split_and!; try done.
    assert (d ∈ filter (λ d, activityId d ∈ map id l) (dependencies a)) as Hd'.
    { rewrite Hperm. by apply list_elem_of_filter. }
    by apply list_elem_of_filter in Hd' as [_ ?].
Qed.
End Invariance.

Lemma SameConstraints_sym (l l' : list SchedulerActivity) :
  Forall2 (SameConstraints (map id l)) l l' →
  Forall2 (SameConstraints (map id l')) l' l.
Proof.
  intros Hsame. rewrite <- (same_ids l l' Hsame).
  apply Forall2_flip. eapply Forall2_impl; [exact Hsame|].
  intros a a' (? & ? & ? & ?). by split_and!.
Qed.

(** The order Kahn's algorithm finds is contained in any other one. *)
Lemma order_subset (l l' : list SchedulerActivity) order order' :
  Forall2 (SameConstraints (map id l)) l l' →
  TopologicalOrder l order → TopologicalOrder l' order' →
  ∀ x, x ∈ order → x ∈ order'.
Proof.
  intros Hsame Ho Ho'.
  assert (∀ l1 l2, order = l1 ++ l2 → ∀ x, x ∈ l1 → x ∈ order') as Hprefix.
  { induction l1 as [|y l1 IH] using rev_ind; intros l2 Heq x Hx.
    { by apply elem_of_nil in Hx. }
    rewrite <- app_assoc in Heq. simpl in Heq.
    apply elem_of_app in Hx as [Hx|Hx%list_elem_of_singleton].
    { by apply (IH (y :: l2)). }
    subst x. apply (order_closed l' order' Ho').
    - rewrite <- (same_ids l l' Hsame). apply (order_ids l order Ho).
      rewrite Heq, elem_of_app, elem_of_cons. auto.
    - intros e He%(same_edges l l' Hsame) Hy.
      apply (IH (y :: l2) Heq).
      by apply (order_topo l order Ho l1 y l2 Heq e). }
  intros x Hx. apply (Hprefix order []); [by rewrite app_nil_r|done].
Qed.

Lemma order_length_same (l l' : list SchedulerActivity) order order' :
  Forall2 (SameConstraints (map id l)) l l' →
  TopologicalOrder l order → TopologicalOrder l' order' →
  length order = length order'.
Proof.
  intros Hsame Ho Ho'. apply Permutation_length, NoDup_Permutation.
  - apply (order_NoDup l order Ho).
  - apply (order_NoDup l' order' Ho').
  - intros x. split.
    + by apply (order_subset l l').
    + apply (order_subset l' l); [by apply SameConstraints_sym|done..].
Qed.

Section InvariantDates.
Context (l l' : list SchedulerActivity) (order order' : list string).
Hypothesis same : Forall2 (SameConstraints (map id l)) l l'.
Hypothesis order_spec : TopologicalOrder l order.
Hypothesis order_spec' : TopologicalOrder l' order'.
Hypothesis order_length : length order = length l.

Local Abbreviation early := (forwardPass (buildActivityMap l) order).
Local Abbreviation early' := (forwardPass (buildActivityMap l') order').

Lemma order_length' : length order' = length l'.
Proof.
  rewrite <- (order_length_same l l' order order'), <- (same_length l l'); done.
Qed.

Lemma early_same_prefix l1 l2 :
  order = l1 ++ l2 →
  ∀ x, x ∈ l1 →
    earlyStart early !! x = earlyStart early' !! x
    ∧ earlyFinish early !! x = earlyFinish early' !! x.
Proof.
  destruct (forwardPass_spec l order order_spec order_length) as (HS & HF & Hval).
  destruct (forwardPass_spec l' order' order_spec' order_length')
    as (HS' & HF' & Hval').
  revert l2. induction l1 as [|y l1 IH] using rev_ind; intros l2 Heq x Hx.
  { by apply elem_of_nil in Hx. }
  rewrite <- app_assoc in Heq. simpl in Heq.
  apply elem_of_app in Hx as [Hx|Hx%list_elem_of_singleton].
  { by apply (IH (y :: l2)). }
  subst x.
  assert (y ∈ map id l) as (a & -> & Ha)%list_elem_of_fmap.
  { apply (order_ids l order order_spec). rewrite Heq, elem_of_app, elem_of_cons. auto. }
  destruct (same_pair_l l l' same a Ha) as (a' & Ha' & Hid & Hdur & Hman & Hperm).
  destruct (Hval a Ha) as (s & Hs & Hf & Heqs).
  destruct (Hval' a' Ha') as (s' & Hs' & Hf' & Heqs').
  rewrite constrainStart_fold in Heqs, Heqs'.
  rewrite <- Hid, <- Hdur, <- Hman in *.
  assert (s = s') as <-; [|by rewrite Hs, Hs', Hf, Hf'].
  rewrite Heqs, Heqs'. apply maximum_ext. intros v.
  assert (∀ d, d ∈ dependencies a → activityId d ∈ map id l →
            edgeStart early (duration a) d = edgeStart early' (duration a) d) as Hedge.
  { intros d Hd Hin. unfold edgeStart.
    destruct (IH (id a :: l2) Heq (activityId d)) as [-> ->]; [|done].
    by apply (predecessor_before l order order_spec l1 (id a) l2 a d). }
  assert (∀ d, is_Some (edgeStart early (duration a) d) → activityId d ∈ map id l)
    as Hdef.
  { intros d [v' Hv']. apply HS. unfold edgeStart in Hv'.
    destruct (earlyStart early !! activityId d); [eauto|done]. }
  assert (∀ d, is_Some (edgeStart early' (duration a) d) → activityId d ∈ map id l)
    as Hdef'.
  { intros d [v' Hv']. rewrite (same_ids l l' same). apply HS'.
    unfold edgeStart in Hv'.
    destruct (earlyStart early' !! activityId d); [eauto|done]. }
  rewrite !list_elem_of_omap. split.
  - intros (d & Hd & Hv). assert (activityId d ∈ map id l) as Hin by eauto.
    exists d. split.
    + assert (d ∈ filter (λ d, activityId d ∈ map id l) (dependencies a')) as Hd'.
      { rewrite <- Hperm. by apply list_elem_of_filter. }
      by apply list_elem_of_filter in Hd' as [_ ?].
    + by rewrite <- Hedge.
  - intros (d & Hd & Hv). assert (activityId d ∈ map id l) as Hin by eauto.
    assert (d ∈ dependencies a) as Hda.
    { assert (d ∈ filter (λ d, activityId d ∈ map id l) (dependencies a)) as Hd'.
      { rewrite Hperm. by apply list_elem_of_filter. }
      by apply list_elem_of_filter in Hd' as [_ ?]. }
    exists d. split; [done|]. by rewrite Hedge.
Qed.

Lemma early_same : early = early'.
Proof.
  destruct (forwardPass_spec l order order_spec order_length) as (HS & HF & _).
  destruct (forwardPass_spec l' order' order_spec' order_length') as (HS' & HF' & _).
  assert (∀ x, earlyStart early !! x = earlyStart early' !! x
               ∧ earlyFinish early !! x = earlyFinish early' !! x) as Hall.
  { intros x. destruct (decide (x ∈ map id l)) as [Hin|Hin].
    - apply (early_same_prefix order []); [by rewrite app_nil_r|].
      by apply (order_elem l order order_spec order_length).
    - assert (∀ (m : gmap string Z), ¬ is_Some (m !! x) → m !! x = None) as Hnone.
      { intros m. by rewrite eq_None_not_Some. }
      rewrite !Hnone; [done|..]; rewrite ?HS, ?HF, ?HS', ?HF', <- ?(same_ids l l' same);
        done. }
  destruct early as [es ef], early' as [es' ef']. simpl in *.
  f_equal; apply map_eq; intros x; apply Hall.
Qed.
End InvariantDates.

Section InvariantLateDates.
Context (l l' : list SchedulerActivity) (order order' : list string).
Hypothesis same : Forall2 (SameConstraints (map id l)) l l'.
Hypothesis order_spec : TopologicalOrder l order.
Hypothesis order_spec' : TopologicalOrder l' order'.
Hypothesis order_length : length order = length l.
Context (projectDuration : Z).

Local Abbreviation late := (backwardPass (buildGraph l) projectDuration order).
Local Abbreviation late' := (backwardPass (buildGraph l') projectDuration order').

Lemma late_same_suffix l1 l2 :
  order = l1 ++ l2 →
  ∀ x, x ∈ l2 →
    lateStart late !! x = lateStart late' !! x
    ∧ lateFinish late !! x = lateFinish late' !! x.
Proof.
  pose proof (order_length' l l' order order' same order_spec order_spec'
                order_length) as order_length'.
  destruct (backwardPass_spec l order order_spec order_length projectDuration)
    as (HS & Hval).
  destruct (backwardPass_spec l' order' order_spec' order_length' projectDuration)
    as (HS' & Hval').
  revert l1. induction l2 as [|y l2 IH]; intros l1 Heq x Hx.
  { by apply elem_of_nil in Hx. }
  apply elem_of_cons in Hx as [->|Hx].
  2:{ apply (IH (l1 ++ [y])); [by rewrite <- app_assoc|done]. }
  assert (y ∈ map id l) as (a & -> & Ha)%list_elem_of_fmap.
  { apply (order_ids l order order_spec). rewrite Heq, elem_of_app, elem_of_cons. auto. }
  destruct (same_pair_l l l' same a Ha) as (a' & Ha' & Hid & Hdur & _).
  destruct (Hval a Ha) as (ls & Hls & Hlf & Heqs).
  destruct (Hval' a' Ha') as (ls' & Hls' & Hlf' & Heqs').
  rewrite boundLatestStart_fold in Heqs, Heqs'.
  rewrite <- Hid, <- Hdur in *.
  assert (ls = ls') as <-; [|by rewrite Hls, Hls', Hlf, Hlf'].
  rewrite Heqs, Heqs'. f_equal. apply minimum_ext. intros v.
  assert (∀ r, r ∈ leaving (id a) (edgesOf l) →
            edgeBound late (duration a) r = edgeBound late' (duration a) r) as Hedge.
  { intros r Hr. unfold edgeBound.
    destruct (IH (l1 ++ [id a]) ltac:(by rewrite <- app_assoc) (successorId r))
      as [-> ->]; [|done].
    by apply (successor_after l order order_spec order_length l1 (id a) l2 r). }
  assert (∀ r, r ∈ leaving (id a) (edgesOf l) ↔ r ∈ leaving (id a) (edgesOf l'))
    as Hleave.
  { intros r. rewrite !leaving_elem. apply (same_edges l l' same). }
  rewrite !list_elem_of_omap. split.
  - intros (r & Hr & Hv). exists r. split; [by apply Hleave|]. by rewrite <- Hedge.
  - intros (r & Hr%Hleave & Hv). exists r. split; [done|]. by rewrite Hedge.
Qed.

Lemma lateStart_same : lateStart late = lateStart late'.
Proof.
  pose proof (order_length' l l' order order' same order_spec order_spec'
                order_length) as order_length'.
  destruct (backwardPass_spec l order order_spec order_length projectDuration)
    as (HS & _).
  destruct (backwardPass_spec l' order' order_spec' order_length' projectDuration)
    as (HS' & _).
  apply map_eq. intros x. destruct (decide (x ∈ map id l)) as [Hin|Hin].
  - apply (late_same_suffix [] order); [done|].
    by apply (order_elem l order order_spec order_length).
  - assert (∀ (m : gmap string Z), ¬ is_Some (m !! x) → m !! x = None) as Hnone.
    { intros m. by rewrite eq_None_not_Some. }
    rewrite !Hnone; [done|..]; rewrite ?HS, ?HS', <- ?(same_ids l l' same); done.
Qed.
End InvariantLateDates.

Lemma map_Forall2_eq {A B} (f : A → B) (xs ys : list A) :
  Forall2 (λ a b, f a = f b) xs ys → map f xs = map f ys.
Proof. induction 1 as [|x y xs ys Hxy _ IH]; simpl; congruence. Qed.

Lemma insertByStartDay_computed a b (xs ys : list SchedulerActivity) :
  computed a = computed b →
  Forall2 (λ a b, computed a = computed b) xs ys →
  Forall2 (λ a b, computed a = computed b)
    (insertByStartDay a xs) (insertByStartDay b ys).
Proof.
  intros Hab. assert (startDayKey a = startDayKey b) as Hkey.
  { unfold startDayKey. unfold computed in Hab. congruence. }
  induction 1 as [|x y xs ys Hxy Hrest IH]; simpl.
  - by repeat constructor.
  - assert (startDayKey x = startDayKey y) as <-.
    { unfold startDayKey. unfold computed in Hxy. congruence. }
    rewrite <- Hkey. destruct (decide (startDayKey a ≤ startDayKey x)).
    + by repeat constructor.
    + by constructor.
Qed.

Lemma sortByStartDay_computed (xs ys : list SchedulerActivity) :
  Forall2 (λ a b, computed a = computed b) xs ys →
  Forall2 (λ a b, computed a = computed b) (sortByStartDay xs) (sortByStartDay ys).
Proof.
  induction 1 as [|x y xs ys Hxy _ IH]; simpl; [constructor|].
  by apply insertByStartDay_computed.
Qed.

Lemma sequentialFrom_computed ids cursor (l l' : list SchedulerActivity) :
  Forall2 (SameConstraints ids) l l' →
  map computed (sequentialFrom cursor l) = map computed (sequentialFrom cursor l').
Proof.
  intros Hsame. revert cursor.
  induction Hsame as [|a a' l l' (Hid & Hdur & Hman & _) _ IH]; intros cursor;
    simpl; [done|].
  rewrite IH. unfold computed at 1 3. simpl. by rewrite Hid, Hdur, Hman.
Qed.

Lemma computed_annotate g early late a :
  let start := default 1 (earlyStart early !! id a) in
  let finish := default (duration a) (earlyFinish early !! id a) in
  let total := default start (lateStart late !! id a) - start in
  computed (annotate g early late a)
  = (id a, duration a, Some start, Some finish, total,
     default total
       (Math_min (omap (successorSlack early start finish)
                    (default [] (successors g !! id a)))),
     bool_decide (total = 0)).
Proof.
  unfold annotate, computed. simpl.
  by destruct (default [] (successors g !! id a)).
Qed.

Lemma criticalPath_computed (l l' : list SchedulerActivity) order order' :
  Forall2 (SameConstraints (map id l)) l l' →
  TopologicalOrder l order → TopologicalOrder l' order' →
  length order = length l →
  map computed (criticalPath l order) = map computed (criticalPath l' order').
Proof.
  intros Hsame Ho Ho' Hlen.
  unfold criticalPath. apply map_Forall2_eq, sortByStartDay_computed.
  rewrite !graph_activityMap.
  rewrite <- (early_same l l' order order' Hsame Ho Ho' Hlen).
  set (early := forwardPass (buildActivityMap l) order).
  set (pd := projectDurationOf (earlyFinish early)).
  pose proof (lateStart_same l l' order order' Hsame Ho Ho' Hlen pd) as Hlate.
  set (late := backwardPass (buildGraph l) pd order) in *.
  set (late' := backwardPass (buildGraph l') pd order') in *.
  apply Forall2_fmap, Forall2_same_length_lookup.
  split; [by apply same_length|]. intros i a a' Ha Ha'.
  destruct (Forall2_lookup_l _ _ _ _ _ Hsame Ha) as (a'' & Ha'' & Hid & Hdur & Hman & _).
  assert (a'' = a') as -> by congruence.
  apply list_elem_of_lookup_2 in Ha, Ha'.
  assert (∀ v, v ∈ default [] (successors (buildGraph l) !! id a)
               ↔ v ∈ default [] (successors (buildGraph l') !! id a')) as Hsucc.
  { intros r. rewrite !graph_successors by done. simpl. rewrite <- Hid.
    rewrite !leaving_elem. apply (same_edges l l' Hsame). }
  rewrite !computed_annotate. cbv zeta. rewrite <- Hlate, <- Hid, <- Hdur.
  set (start := default 1 (earlyStart early !! id a)).
  set (finish := default (duration a) (earlyFinish early !! id a)).
  assert (Math_min (omap (successorSlack early start finish)
                      (default [] (successors (buildGraph l) !! id a)))
          = Math_min (omap (successorSlack early start finish)
                        (default [] (successors (buildGraph l') !! id a))))
    as ->; [|done].
  rewrite <- Hid in Hsucc.
  apply Math_min_ext. intros v. rewrite !list_elem_of_omap.
  split; intros (r & Hr & Hv); exists r; (split; [by apply Hsucc|done]).
Qed.

Lemma scheduleOf_invariant (l l' : list SchedulerActivity) :
  Forall2 (SameConstraints (map id l)) l l' →
  map computed <$> scheduleOf l = map computed <$> scheduleOf l'.
Proof.
  intros Hsame. unfold scheduleOf.
  destruct (topologicalOrder_spec l) as (order & -> & Ho).
  destruct (topologicalOrder_spec l') as (order' & -> & Ho'). simpl.
  rewrite <- (order_length_same l l' order order' Hsame Ho Ho').
  rewrite <- (same_length l l' Hsame). f_equal.
  destruct (decide (length order ≠ length l)) as [Hcyc|Hlen%dec_stable].
  - unfold sequentialFallback. by eapply sequentialFrom_computed.
  - by apply criticalPath_computed.
Qed.

(** ** Duplicate and dangling links *)

Lemma SameLinks_SameConstraints ids (a a' : Raw.Activity) :
  SameLinks a a' → SameConstraints ids (normalizeActivity a) (normalizeActivity a').
Proof.
  intros (Hid & Hdur & Hman & Hlinks).
  split_and!; [done|simpl; by rewrite Hdur|done|].
  rewrite !normalizeActivity_dependencies.
  apply NoDup_Permutation.
  - apply NoDup_filter, keepFirst_NoDup.
  - apply NoDup_filter, keepFirst_NoDup.
  - intros d. rewrite !list_elem_of_filter, !keepFirst_elem, !list_elem_of_filter.
    rewrite Hid, Hlinks. done.
Qed.

Lemma SameLinks_schedule (acts acts' : list Raw.Activity) :
  Forall2 SameLinks acts acts' →
  map computed <$> calculateSchedule acts = map computed <$> calculateSchedule acts'.
Proof.
  intros Hsame. rewrite !calculateSchedule_scheduleOf.
  apply scheduleOf_invariant. apply Forall2_fmap.
  eapply Forall2_impl; [exact Hsame|]. intros a a'.
  apply SameLinks_SameConstraints.
Qed.

Lemma SameLinks_refl a : SameLinks a a.
Proof. by split_and!. Qed.

Lemma coerce_typedLink P : coerceDependency (typedLink P) = coercePredecessor (JsString P).
Proof.
  unfold typedLink. simpl. destruct (decide (trim P = "")); [done|].
  do 2 f_equal.
Qed.

Lemma dropDangling_ids ids (acts : list Raw.Activity) :
  map Raw.id (map (dropDangling ids) acts) = map Raw.id acts.
Proof. rewrite map_map. by apply map_ext. Qed.

Lemma dropDangling_existing ids (a : Raw.Activity) :
  filter (λ d, activityId d ∈ ids) (dependencies (normalizeActivity (dropDangling ids a)))
  = filter (λ d, activityId d ∈ ids) (dependencies (normalizeActivity a)).
Proof.
  rewrite !normalizeActivity_dependencies, !keepFirst_filter. f_equal.
  rewrite !list_filter_filter. unfold candidateDependencies. simpl.
  rewrite !filter_app. f_equal.
  - destruct (Raw.dependencies a) as [entries|]; [|done]. simpl.
    apply filter_omap_filter. intros entry d Hdrop%dec_stable Hd [Hin _].
    rewrite Hd in Hdrop. done.
  - destruct (Raw.predecessors a) as [preds|]; [|done]. simpl.
    apply filter_omap_filter. intros predId d Hdrop%dec_stable Hd [Hin _].
    rewrite Hd in Hdrop. done.
Qed.

Lemma edgesVia_existing (M M' : gmap string SchedulerActivity)
    (ids : list string) sid ds ds' :
  (∀ x, is_Some (M !! x) ↔ x ∈ ids) → (∀ x, is_Some (M' !! x) ↔ x ∈ ids) →
  filter (λ d, activityId d ∈ ids) ds = filter (λ d, activityId d ∈ ids) ds' →
  edgesVia M sid ds = edgesVia M' sid ds'.
Proof.
  intros HM HM' Hfilter.
  assert (∀ (N : gmap string SchedulerActivity) l,
            (∀ x, is_Some (N !! x) ↔ x ∈ ids) →
            edgesVia N sid l
            = map (λ d, (activityId d, {| successorId := sid; dependency := d |}))
                (filter (λ d, activityId d ∈ ids) l)) as Hform.
  { intros N l HN. unfold edgesVia. induction l as [|d l IH]; [done|].
    rewrite omap_cons_eq, filter_cons, IH.
    destruct (decide (activityId d ∈ ids)) as [Hin|Hin].
    - apply HN in Hin as [p ->]. done.
    - destruct (N !! activityId d) as [p|] eqn:Hp; [|done].
      destruct Hin. apply HN. eauto. }
  by rewrite (Hform M), (Hform M'), Hfilter.
Qed.

Lemma edgesInto_existing (M M' : gmap string SchedulerActivity)
    (ids : list string) (k k' : list SchedulerActivity) :
  (∀ x, is_Some (M !! x) ↔ x ∈ ids) → (∀ x, is_Some (M' !! x) ↔ x ∈ ids) →
  Forall2 (λ a a', id a = id a'
                   ∧ filter (λ d, activityId d ∈ ids) (dependencies a)
                     = filter (λ d, activityId d ∈ ids) (dependencies a')) k k' →
  flat_map (edgesInto M) k = flat_map (edgesInto M') k'.
Proof.
  intros HM HM'. induction 1 as [|a a' k k' [Hid Hdeps] _ IH]; [done|]. simpl.
  rewrite IH. f_equal. unfold edgesInto. rewrite <- Hid.
  by apply (edgesVia_existing M M' ids).
Qed.

Lemma edgesOf_existing (l l' : list SchedulerActivity) :
  Forall2 (λ a a', id a = id a'
                   ∧ filter (λ d, activityId d ∈ map id l) (dependencies a)
                     = filter (λ d, activityId d ∈ map id l) (dependencies a')) l l' →
  edgesOf l = edgesOf l'.
Proof.
  intros Hsame.
  assert (map id l = map id l') as Hids.
  { clear -Hsame. induction Hsame as [|a a' k k' [Hid _] _ IH]; [done|].
    simpl. by rewrite Hid, IH. }
  unfold edgesOf. apply (edgesInto_existing _ _ (map id l)); [..|done].
  - intros x. apply buildActivityMap_is_Some.
  - intros x. rewrite Hids. apply buildActivityMap_is_Some.
Qed.

(** * The claims of the specification *)










(** C6. Duplicate link.  An activity that lists the link to [P] both as a
    typed dependency (FS, lag 0) and as a legacy predecessor gets, like
    every other activity, the same id, duration, dates, floats and
    criticality as when the link is listed in only one of the two lists,
    whichever it is. *)
Theorem duplicate_link_counts_once (before after : list Raw.Activity)
    (a : Raw.Activity) (D1 D2 : list Raw.Dependency) (L1 L2 : list JsValue)
    (P : string) :
  let both := withLinks a (D1 ++ typedLink P :: D2) (L1 ++ JsString P :: L2) in
  let typedOnly := withLinks a (D1 ++ typedLink P :: D2) (L1 ++ L2) in
  let legacyOnly := withLinks a (D1 ++ D2) (L1 ++ JsString P :: L2) in
  map computed <$> calculateSchedule (before ++ both :: after)
    = map computed <$> calculateSchedule (before ++ typedOnly :: after)
  ∧ map computed <$> calculateSchedule (before ++ both :: after)
    = map computed <$> calculateSchedule (before ++ legacyOnly :: after).
Proof.
  intros both typedOnly legacyOnly.
  assert (∀ b b', SameLinks b b' →
            Forall2 SameLinks (before ++ b :: after) (before ++ b' :: after)) as Hlist.
  { intros b b' Hb. apply Forall2_app; [|constructor; [done|]];
      apply Forall_Forall2_diag, Forall_forall; intros ? _; apply SameLinks_refl. }
  split; apply SameLinks_schedule, Hlist; (split_and!; [done..|]); intros d;
    unfold candidateDependencies; simpl;
    rewrite !omap_app, !omap_cons_eq, coerce_typedLink;
    destruct (coercePredecessor (JsString P)) as [p|];
    rewrite ?elem_of_app, ?elem_of_cons, ?elem_of_app; tauto.
Qed.




(** C8. Dangling reference.  [calculateSchedule] returns a schedule for
    every input, and the input without its dangling links (entries that
    name, once normalized, the id of no activity) has the same successor
    lists, the same in-degrees, and the same id, duration, dates, floats
    and criticality for every activity. *)
Theorem dangling_link_is_ignored (acts : list Raw.Activity) :
  let ids := map Raw.id acts in
  let pruned := map (dropDangling ids) acts in
  let g := buildGraph (map normalizeActivity acts) in
  let g' := buildGraph (map normalizeActivity pruned) in
  ∃ result,
    calculateSchedule acts = Some result
    ∧ map computed <$> calculateSchedule pruned = Some (map computed result)
    ∧ successors g = successors g'
    ∧ ∀ x, orderedGet (inDegree g) x = orderedGet (inDegree g') x.
Proof.
  intros ids pruned g g'. subst g g'.
  destruct (calculateSchedule_total acts) as (order & _ & _ & Hresult).
  eexists. split; [exact Hresult|].
  assert (Forall2 (λ a a', id a = id a' ∧ duration a = duration a'
                     ∧ manualStart a = manualStart a'
                     ∧ filter (λ d, activityId d ∈ ids) (dependencies a)
                       = filter (λ d, activityId d ∈ ids) (dependencies a'))
            (map normalizeActivity acts) (map normalizeActivity pruned)) as Hsame.
  { unfold pruned. rewrite map_map. apply Forall2_fmap, Forall_Forall2_diag.
    apply Forall_forall. intros a _. split_and!; [done..|].
    by rewrite dropDangling_existing. }
  assert (map id (map normalizeActivity acts) = ids) as Hids by apply normalized_ids.
  assert (map id (map normalizeActivity pruned) = ids) as Hids'.
  { unfold pruned. by rewrite normalized_ids, dropDangling_ids. }
  assert (edgesOf (map normalizeActivity acts)
          = edgesOf (map normalizeActivity pruned)) as Hedges.
  { apply edgesOf_existing. rewrite Hids.
    eapply Forall2_impl; [exact Hsame|]. by intros a a' (? & _ & _ & ?). }
  destruct (buildGraph_spec (map normalizeActivity acts)) as (_ & Hs & Hd & _).
  destruct (buildGraph_spec (map normalizeActivity pruned)) as (_ & Hs' & Hd' & _).
  split_and!.
  - trans (map computed <$> calculateSchedule acts); [|by rewrite Hresult].
    symmetry. rewrite !calculateSchedule_scheduleOf. apply scheduleOf_invariant.
    rewrite Hids. eapply Forall2_impl; [exact Hsame|].
    intros a a' (Hid & Hdur & Hman & Hdeps). split_and!; [done..|].
    by rewrite Hdeps.
  - apply map_eq. intros x. by rewrite Hs, Hs', Hids, Hids', Hedges.
  - intros x. by rewrite Hd, Hd', Hids, Hids', Hedges.
Qed.



(** * Further properties of the code *)

Lemma rev_app_append s1 s2 t :
  String.rev_app (s1 +:+ s2) t = String.rev_app s2 (String.rev_app s1 t).
Proof.
  revert t. induction s1 as [|c s1 IH]; intros t; [done|].
  rewrite append_cons. simpl. apply IH.
Qed.

Lemma rev_app_rev s t : String.rev_app s t = String.rev s +:+ t.
Proof.
  unfold String.rev. revert t. induction s as [|c s IH]; intros t; [done|].
  simpl. rewrite IH, (IH (String c "")), append_assoc. done.
Qed.

Lemma rev_cons c s : String.rev (String c s) = String.rev s +:+ String c "".
Proof. unfold String.rev at 1. simpl. apply rev_app_rev. Qed.

Lemma append_empty_r (s : string) : s +:+ "" = s.
Proof. induction s as [|c s IH]; [done|]. by rewrite append_cons, IH. Qed.

Lemma rev_append s1 s2 : String.rev (s1 +:+ s2) = String.rev s2 +:+ String.rev s1.
Proof.
  unfold String.rev at 1. rewrite rev_app_append, rev_app_rev.
  by rewrite (rev_app_rev s1 ""), append_empty_r.
Qed.

Lemma rev_involutive s : String.rev (String.rev s) = s.
Proof.
  induction s as [|c s IH]; [done|].
  by rewrite rev_cons, rev_append, IH.
Qed.

Lemma trimStart_clean s : startsClean s → trimStart s = s.
Proof. destruct s as [|c s]; [done|]. simpl. by intros ->. Qed.

Lemma trimStart_startsClean s : startsClean (trimStart s).
Proof.
  induction s as [|c s IH]; [done|]. simpl.
  destruct (isWhiteSpace c) eqn:Hc; [done|]. simpl. done.
Qed.

(** [trimStart] stops at the latest before a character that is no white
    space. *)
Lemma trimStart_snoc u c :
  isWhiteSpace c = false →
  ∃ w, trimStart (u +:+ String c "") = w +:+ String c "".
Proof.
  intros Hc. induction u as [|a u [w IH]].
  - exists "". simpl. by rewrite Hc.
  - rewrite append_cons. simpl. destruct (isWhiteSpace a).
    + by exists w.
    + exists (String a u). by rewrite append_cons.
Qed.

Lemma trimEnd_startsClean t : startsClean t → startsClean (trimEnd t).
Proof.
  destruct t as [|c t]; [done|]. simpl. intros Hc. unfold trimEnd.
  rewrite rev_cons. destruct (trimStart_snoc (String.rev t) c Hc) as [w ->].
  rewrite rev_append. simpl. done.
Qed.

Lemma trim_startsClean s : startsClean (trim s).
Proof. apply trimEnd_startsClean, trimStart_startsClean. Qed.

Lemma trim_endsClean s : startsClean (String.rev (trim s)).
Proof.
  unfold trim, trimEnd. rewrite rev_involutive. apply trimStart_startsClean.
Qed.

Lemma trim_clean s : startsClean s → startsClean (String.rev s) → trim s = s.
Proof.
  intros Hs He. unfold trim, trimEnd.
  by rewrite (trimStart_clean s), (trimStart_clean (String.rev s)), rev_involutive.
Qed.

Lemma trim_idemp s : trim (trim s) = trim s.
Proof. apply trim_clean; [apply trim_startsClean|apply trim_endsClean]. Qed.

Lemma uniqueInOrder_elem seenIds ids x :
  x ∈ uniqueInOrder seenIds ids ↔ x ∈ ids ∧ x ∉ seenIds.
Proof.
  revert seenIds. induction ids as [|y ids IH]; intros seenIds; simpl.
  - rewrite !elem_of_nil. tauto.
  - destruct (decide (y ∈ seenIds)) as [Hy|Hy].
    + rewrite IH, elem_of_cons. split; [tauto|]. intros [[->|?] ?]; tauto.
    + rewrite !elem_of_cons, IH, elem_of_cons.
      destruct (decide (x = y)) as [->|]; tauto.
Qed.

Lemma uniqueInOrder_NoDup seenIds ids : NoDup (uniqueInOrder seenIds ids).
Proof.
  revert seenIds. induction ids as [|y ids IH]; intros seenIds; simpl.
  - constructor.
  - destruct (decide (y ∈ seenIds)); [apply IH|].
    constructor; [|apply IH]. rewrite uniqueInOrder_elem, elem_of_cons. tauto.
Qed.


Lemma uniqueInOrder_NoDup_id ids : NoDup ids → uniqueInOrder [] ids = ids.
Proof.
  assert (∀ seenIds, NoDup ids → (∀ x, x ∈ ids → x ∉ seenIds) →
            uniqueInOrder seenIds ids = ids) as H.
  { induction ids as [|y ids IH]; intros seenIds Hnd Hdisj; [done|]. simpl.
    apply NoDup_cons in Hnd as [Hy Hnd].
    rewrite decide_False by (apply Hdisj; by left). f_equal. apply IH; [done|].
    intros x Hx. rewrite elem_of_cons. intros [->|?]; [done|].
    apply (Hdisj x); [by right|done]. }
  intros Hnd. apply H; [done|]. intros x _. apply not_elem_of_nil.
Qed.

Lemma candidate_wf dependencies predecessors d :
  d ∈ candidateDependencies dependencies predecessors →
  activityId d ≠ "" ∧ trim (activityId d) = activityId d ∧ is_Some (lagDays d).
Proof.
  unfold candidateDependencies. rewrite elem_of_app, !list_elem_of_omap.
  intros [(entry & _ & Hd)|(predId & _ & Hd)].
  - destruct (coerceDependency_wf _ _ Hd) as [? ?].
    destruct (coerceDependency_listed _ _ Hd) as (rawId & _ & Hid).
    split_and!; [done| |done]. by rewrite Hid, trim_idemp.
  - destruct (coercePredecessor_wf _ _ Hd) as [? ?].
    destruct (coercePredecessor_listed _ _ Hd) as (rawId & _ & Hid).
    split_and!; [done| |done]. by rewrite Hid, trim_idemp.
Qed.

Lemma filter_all_elem {A} (P : A → Prop) `{∀ x, Decision (P x)} (l : list A) :
  (∀ x, x ∈ l → P x) → filter P l = l.
Proof.
  induction l as [|x l IH]; intros HP; [done|].
  rewrite filter_cons_True, IH; [done| |].
  - intros y Hy. apply HP. by right.
  - apply HP. by left.
Qed.

Lemma keepFirst_NoDup_id l : NoDup l → keepFirst l = l.
Proof.
  induction 1 as [|d l Hd _ IH]; [done|]. simpl. rewrite IH. f_equal.
  apply filter_all_elem. by intros d' Hd' ->.
Qed.

Lemma keepFirst_app l1 l2 :
  keepFirst (l1 ++ l2)
  = keepFirst l1 ++ filter (λ d, d ∉ l1) (keepFirst l2).
Proof.
  induction l1 as [|d l1 IH]; simpl.
  - symmetry. apply filter_all. intros d. apply not_elem_of_nil.
  - f_equal. rewrite IH, filter_app. f_equal.
    rewrite list_filter_filter. apply list_filter_iff.
    intros d'. rewrite elem_of_cons. split; [intros [? ?] [?|?]; done|].
    intros Hd'. split; [|tauto]. intros ->. tauto.
Qed.

Lemma Math_round_inject_Z n : Math_round (inject_Z n) = n.
Proof.
  unfold Math_round.
  assert (inject_Z n + (1 # 2) == (2 * n + 1) # 2)%Q as ->.
  { unfold Qeq, inject_Z, Qplus. simpl. lia. }
  unfold Qfloor. simpl. symmetry. apply (Z.div_unique _ 2 n 1); lia.
Qed.

Lemma toLagDays_numberOfZ n : toLagDays (numberOfZ n) = n.
Proof. apply Math_round_inject_Z. Qed.

Lemma isDependencyType_typeName t : isDependencyType (JsString (typeName t)) = Some t.
Proof. by destruct t. Qed.

Lemma coerce_rawDependency d :
  activityId d ≠ "" → trim (activityId d) = activityId d → is_Some (lagDays d) →
  coerceDependency (rawDependency d) = Some d.
Proof.
  destruct d as [x t [lag|]]; cbn [activityId type lagDays];
    intros Hx Htrim [? [= <-]].
  unfold rawDependency, coerceDependency. cbn [activityId type lagDays].
  rewrite Htrim, decide_False by done.
  by rewrite isDependencyType_typeName, toLagDays_numberOfZ.
Qed.

Lemma coerce_fsLink x :
  x ≠ "" → trim x = x → coercePredecessor (JsString x) = Some (fsLink x).
Proof. intros Hx Htrim. simpl. by rewrite Htrim, decide_False. Qed.

Lemma normalized_wf ds ps d :
  d ∈ normalizeActivityDependencies ds ps →
  activityId d ≠ "" ∧ trim (activityId d) = activityId d ∧ is_Some (lagDays d).
Proof.
  rewrite normalizeActivityDependencies_closed, keepFirst_elem.
  apply candidate_wf.
Qed.

Lemma normalized_NoDup ds ps : NoDup (normalizeActivityDependencies ds ps).
Proof. rewrite normalizeActivityDependencies_closed. apply keepFirst_NoDup. Qed.

Lemma omap_coerce_rawDependency (D : list SchedulerDependency) :
  Forall (λ d, activityId d ≠ "" ∧ trim (activityId d) = activityId d
               ∧ is_Some (lagDays d)) D →
  omap coerceDependency (map rawDependency D) = D.
Proof.
  induction 1 as [|d D (? & ? & ?) _ IH]; [done|].
  cbn [map]. rewrite omap_cons_eq, coerce_rawDependency by done. simpl. by rewrite IH.
Qed.

Lemma omap_coerce_fsLink (ids : list string) :
  Forall (λ x, x ≠ "" ∧ trim x = x) ids →
  omap coercePredecessor (map JsString ids) = map fsLink ids.
Proof.
  induction 1 as [|x ids [? ?] _ IH]; [done|].
  cbn [map]. rewrite omap_cons_eq, coerce_fsLink by done. simpl. by rewrite IH.
Qed.

Lemma filter_map_fsLink (P : SchedulerDependency → Prop) `{∀ d, Decision (P d)} ids :
  filter P (map fsLink ids) = map fsLink (filter (λ x, P (fsLink x)) ids).
Proof.
  induction ids as [|x ids IH]; [done|]. cbn [map].
  rewrite !filter_cons. destruct (decide (P (fsLink x))); cbn [map]; by rewrite IH.
Qed.

Lemma derive_elem D x :
  x ∈ derivePredecessorsFromDependencies D
  ↔ x ≠ "" ∧ ∃ d, d ∈ D ∧ trim (activityId d) = x.
Proof.
  unfold derivePredecessorsFromDependencies.
  rewrite uniqueInOrder_elem, list_elem_of_filter, list_elem_of_fmap.
  split.
  - intros [[? (d & -> & ?)] _]. eauto.
  - intros [? (d & ? & <-)]. split_and!; eauto. apply not_elem_of_nil.
Qed.

(** X1.  The normalizer emits only links with an id that is not empty and has no
    surrounding white space, and with a lag; no link twice. *)
Theorem normalized_links_well_formed (dependencies : option (list Raw.Dependency))
    (predecessors : option (list JsValue)) :
  let result := normalizeActivityDependencies dependencies predecessors in
  NoDup result
  ∧ Forall (λ d, activityId d ≠ "" ∧ trim (activityId d) = activityId d
                 ∧ ∃ lag, lagDays d = Some lag) result.
Proof.
  intros result. split; [apply normalized_NoDup|].
  apply Forall_forall. intros d Hd. by apply normalized_wf in Hd.
Qed.


(** The normalizer on dependencies that are well formed already and on
    legacy ids that are. *)
Lemma renormalize_closed (D : list SchedulerDependency) (ids : list string) :
  NoDup D →
  Forall (λ d, activityId d ≠ "" ∧ trim (activityId d) = activityId d
               ∧ is_Some (lagDays d)) D →
  NoDup ids → Forall (λ x, x ≠ "" ∧ trim x = x) ids →
  normalizeActivityDependencies (Some (map rawDependency D)) (Some (map JsString ids))
  = D ++ map fsLink (filter (λ x, fsLink x ∉ D) ids).
Proof.
  intros Hnd Hwf Hndi Hids.
  rewrite normalizeActivityDependencies_closed. unfold candidateDependencies.
  cbn [default from_option Datatypes.id].
  rewrite omap_coerce_rawDependency, omap_coerce_fsLink by done.
  rewrite keepFirst_app, (keepFirst_NoDup_id D Hnd).
  rewrite keepFirst_NoDup_id, filter_map_fsLink; [done|].
  apply NoDup_fmap_2; [by intros x y [= ->]|done].
Qed.

Lemma derive_wf (D : list SchedulerDependency) :
  Forall (λ x, x ≠ "" ∧ trim x = x) (derivePredecessorsFromDependencies D).
Proof.
  apply Forall_forall. intros x (? & d & Hd & <-)%derive_elem. by rewrite trim_idemp.
Qed.

(** X3.  Normalizing the normalized dependencies again, as the stored activity
    has them, changes nothing when the legacy list is empty or missing;
    with the derived predecessor ids as legacy list, it appends a
    finish-to-start link without lag for every id that has none. *)
Theorem renormalize_adds_legacy_links (dependencies : option (list Raw.Dependency))
    (predecessors : option (list JsValue)) :
  let D := normalizeActivityDependencies dependencies predecessors in
  let ids := derivePredecessorsFromDependencies D in
  normalizeActivityDependencies (Some (map rawDependency D)) (Some (map JsString ids))
  = D ++ map fsLink (filter (λ x, fsLink x ∉ D) ids)
  ∧ normalizeActivityDependencies (Some (map rawDependency D)) (Some []) = D
  ∧ normalizeActivityDependencies (Some (map rawDependency D)) None = D.
Proof.
  intros D ids.
  assert (Forall (λ d, activityId d ≠ "" ∧ trim (activityId d) = activityId d
                       ∧ is_Some (lagDays d)) D) as Hwf.
  { apply Forall_forall. intros d. apply normalized_wf. }
  assert (NoDup D) as Hnd by apply normalized_NoDup.
  split_and!.
  - apply renormalize_closed; [done..|apply uniqueInOrder_NoDup|apply derive_wf].
  - pose proof (renormalize_closed D [] Hnd Hwf) as Hclosed.
    simpl in Hclosed. rewrite app_nil_r in Hclosed. apply Hclosed; constructor.
  - rewrite normalizeActivityDependencies_closed. unfold candidateDependencies.
    cbn [default from_option Datatypes.id].
    rewrite omap_coerce_rawDependency by done.
    change (omap coercePredecessor []) with (@nil SchedulerDependency).
    by rewrite app_nil_r, (keepFirst_NoDup_id D Hnd).
Qed.

Lemma toValidStartDay_numberOfZ n : 1 ≤ n → toValidStartDay (numberOfZ n) = n.
Proof.
  intros Hn. unfold toValidStartDay, numberOfZ. simpl.
  destruct (Qle_bool 1 (inject_Z n)) eqn:Hq.
  - apply Qfloor_Z.
  - assert (Qle_bool 1 (inject_Z n) = true) as Ht; [|congruence].
    apply Qle_bool_iff. change 1%Q with (inject_Z 1). by rewrite <- Zle_Qle.
Qed.

(** X4.  [toPositiveDuration] and [toValidStartDay] return whole days from 1 on:
    a finite positive duration is rounded up by less than a day, a finite
    start day from 1 on is rounded down by less than a day, every other
    value gives 1; a value they returned is returned as it is. *)
Theorem day_coercions_round_within_a_day (v : JsValue) :
  let d := toPositiveDuration v in
  let s := toValidStartDay v in
  (1 ≤ d ∧ 1 ≤ s)
  ∧ (∀ q, finiteNumber v = Some q → (0 < q)%Q →
       (q <= inject_Z d)%Q ∧ (inject_Z (d - 1) < q)%Q)
  ∧ (∀ q, finiteNumber v = Some q → (1 <= q)%Q →
       (inject_Z s <= q)%Q ∧ (q < inject_Z (s + 1))%Q)
  ∧ ((∀ q, finiteNumber v = Some q → (q <= 0)%Q) → d = 1)
  ∧ ((∀ q, finiteNumber v = Some q → (q < 1)%Q) → s = 1)
  ∧ toPositiveDuration (numberOfZ d) = d
  ∧ toValidStartDay (numberOfZ s) = s.
Proof.
  intros d s. subst d s.
  pose proof (toPositiveDuration_ge_1 v) as Hd.
  pose proof (toValidStartDay_ge_1 v) as Hs.
  split_and!; [done..| | | | | |].
  - intros q Hq Hpos. unfold toPositiveDuration. rewrite Hq.
    destruct (Qle_bool q 0) eqn:Hle.
    + apply Qle_bool_iff in Hle. by apply Qle_not_lt in Hle.
    + split; [apply Qle_ceiling|apply Qceiling_lt].
  - intros q Hq Hone. unfold toValidStartDay. rewrite Hq.
    apply Qle_bool_iff in Hone. rewrite Hone.
    split; [apply Qfloor_le|apply Qlt_floor].
  - intros Hnon. unfold toPositiveDuration.
    destruct (finiteNumber v) as [q|]; [|done].
    specialize (Hnon q eq_refl). apply Qle_bool_iff in Hnon. by rewrite Hnon.
  - intros Hnon. unfold toValidStartDay.
    destruct (finiteNumber v) as [q|]; [|done].
    specialize (Hnon q eq_refl). destruct (Qle_bool 1 q) eqn:Hle; [|done].
    apply Qle_bool_iff in Hle. by apply Qle_not_lt in Hle.
  - by apply toPositiveDuration_numberOfZ.
  - by apply toValidStartDay_numberOfZ.
Qed.

(** X5.  [toLagDays] returns the whole number nearest to a finite lag, the upper
    one of two that are equally near, and 0 for every other value; a lag it
    returned is returned as it is. *)
Theorem lag_rounds_to_nearest (v : JsValue) :
  let lag := toLagDays v in
  (∀ q, finiteNumber v = Some q →
     (q - (1 # 2) < inject_Z lag)%Q ∧ (inject_Z lag <= q + (1 # 2))%Q)
  ∧ (finiteNumber v = None → lag = 0)
  ∧ toLagDays (numberOfZ lag) = lag.
Proof.
  intros lag. subst lag. split_and!.
  - intros q Hq. unfold toLagDays. rewrite Hq. unfold Math_round.
    pose proof (Qfloor_le (q + (1 # 2))) as Hle.
    pose proof (Qlt_floor (q + (1 # 2))) as Hlt.
    rewrite inject_Z_plus in Hlt. change (inject_Z 1) with 1%Q in Hlt.
    revert Hle Hlt. generalize (inject_Z (Qfloor (q + (1 # 2)))). intros z Hle Hlt.
    split; lra.
  - unfold toLagDays. by intros ->.
  - apply toLagDays_numberOfZ.
Qed.

Lemma sequentialFrom_givenFields cursor (l : list SchedulerActivity) :
  map givenFields (sequentialFrom cursor l) = map givenFields l.
Proof.
  revert cursor. induction l as [|a l IH]; intros cursor; [done|].
  simpl. by rewrite IH.
Qed.

Lemma annotate_givenFields g early late (l : list SchedulerActivity) :
  map givenFields (map (annotate g early late) l) = map givenFields l.
Proof. induction l as [|a l IH]; [done|]. simpl. by rewrite IH. Qed.

Lemma sequentialFrom_ids cursor (l : list SchedulerActivity) :
  map id (sequentialFrom cursor l) = map id l.
Proof.
  revert cursor. induction l as [|a l IH]; intros cursor; [done|].
  simpl. by rewrite IH.
Qed.

Lemma annotate_ids g early late (l : list SchedulerActivity) :
  map id (map (annotate g early late) l) = map id l.
Proof. induction l as [|a l IH]; [done|]. simpl. by rewrite IH. Qed.

Lemma calculateSchedule_givenFields (acts : list Raw.Activity) :
  ∃ result,
    calculateSchedule acts = Some result
    ∧ map givenFields result ≡ₚ map givenFields (map normalizeActivity acts).
Proof.
  destruct (calculateSchedule_total acts) as (order & _ & _ & ->).
  eexists. split; [done|]. destruct (decide _).
  - unfold sequentialFallback. by rewrite sequentialFrom_givenFields.
  - unfold criticalPath. by rewrite sortByStartDay_Permutation, annotate_givenFields.
Qed.

Lemma insertByStartDay_sorted a (l : list SchedulerActivity) :
  StronglySorted byStartDay l → StronglySorted byStartDay (insertByStartDay a l).
Proof.
  induction 1 as [|b l Hl IH Hb]; simpl.
  - by repeat constructor.
  - destruct (decide (startDayKey a ≤ startDayKey b)) as [Hab|Hab].
    + constructor; [by constructor|]. constructor; [done|].
      eapply Forall_impl; [exact Hb|]. unfold byStartDay. intros c ?. lia.
    + constructor; [done|]. rewrite insertByStartDay_Permutation.
      constructor; [unfold byStartDay; lia|done].
Qed.

Lemma sortByStartDay_sorted (l : list SchedulerActivity) :
  StronglySorted byStartDay (sortByStartDay l).
Proof.
  induction l as [|a l IH]; simpl; [constructor|]. by apply insertByStartDay_sorted.
Qed.

(** Equal keys keep their place: the sort is stable. *)
Lemma insertByStartDay_ties k a (l : list SchedulerActivity) :
  filter (λ r, startDayKey r = k) (insertByStartDay a l)
  = filter (λ r, startDayKey r = k) (a :: l).
Proof.
  induction l as [|b l IH]; simpl; [done|].
  destruct (decide (startDayKey a ≤ startDayKey b)) as [Hab|Hab]; [done|].
  rewrite (filter_cons _ b), IH, !filter_cons.
  destruct (decide (startDayKey b = k)), (decide (startDayKey a = k)); try done.
  lia.
Qed.

Lemma sortByStartDay_ties k (l : list SchedulerActivity) :
  filter (λ r, startDayKey r = k) (sortByStartDay l)
  = filter (λ r, startDayKey r = k) l.
Proof.
  induction l as [|a l IH]; simpl; [done|].
  by rewrite insertByStartDay_ties, !filter_cons, IH.
Qed.

Lemma sequentialFrom_sorted cursor (l : list SchedulerActivity) :
  Forall (λ r, cursor ≤ startDayKey r) (sequentialFrom cursor l)
  ∧ StronglySorted byStartDay (sequentialFrom cursor l).
Proof.
  revert cursor. induction l as [|a l IH]; intros cursor; simpl.
  - split; constructor.
  - pose proof (toPositiveDuration_ge_1 (numberOfZ (duration a))) as Hd.
    destruct (IH (Z.max cursor (toValidStartDay (manualStart a))
                  + toPositiveDuration (numberOfZ (duration a)) - 1 + 1))
      as [Hall Hsorted].
    split.
    + constructor; [unfold startDayKey; simpl; lia|].
      eapply Forall_impl; [exact Hall|]. intros r ?. cbv beta in *. lia.
    + constructor; [done|].
      eapply Forall_impl; [exact Hall|]. intros r Hr.
      unfold byStartDay, startDayKey in *.
      cbn [startDay default from_option Datatypes.id] in *. lia.
Qed.

Lemma filter_ext_elem {A} (P Q : A → Prop) `{∀ x, Decision (P x), ∀ x, Decision (Q x)}
    (l : list A) :
  (∀ x, x ∈ l → P x ↔ Q x) → filter P l = filter Q l.
Proof.
  induction l as [|x l IH]; intros HPQ; [done|].
  rewrite !filter_cons, IH by (intros y Hy; apply HPQ; by right).
  destruct (decide (P x)) as [HP|HP], (decide (Q x)) as [HQ|HQ]; try done;
    apply HPQ in HP || apply HPQ in HQ; try done; by left.
Qed.

Lemma annotate_startDay g early late a :
  ∃ s, startDay (annotate g early late a) = Some s.
Proof. unfold annotate. simpl. eauto. Qed.

Lemma result_startDay (acts : list Raw.Activity) result r :
  calculateSchedule acts = Some result → r ∈ result →
  startDay r = Some (startDayKey r).
Proof.
  intros Hresult Hr. destruct (calculateSchedule_fields acts) as (result' & Hres' & Hall).
  assert (result' = result) as -> by congruence.
  rewrite Forall_forall in Hall. destruct (Hall r Hr) as (_ & s & _ & _ & _ & Hs & _).
  unfold startDayKey. by rewrite Hs.
Qed.

(** X6.  The returned list holds every activity of the input once: id, name,
    status and manual start as given, with the normalized dependencies and
    the predecessor ids derived from them. *)
Theorem schedule_keeps_every_activity (acts : list Raw.Activity) :
  ∃ result,
    calculateSchedule acts = Some result
    ∧ length result = length acts
    ∧ map givenFields result
      ≡ₚ map (λ a, (Raw.id a, Raw.name a, Raw.status a, Raw.manualStart a,
                     dependencies (normalizeActivity a),
                     derivePredecessorsFromDependencies
                       (dependencies (normalizeActivity a)))) acts.
Proof.
  destruct (calculateSchedule_givenFields acts) as (result & Hresult & Hperm).
  exists result. rewrite map_map in Hperm. split_and!; [done| |done].
  apply Permutation_length in Hperm. by rewrite !length_map in Hperm.
Qed.

(** X7.  The returned list is in the order of the start days, and activities
    that start on the same day are in the order of the input. *)
Theorem schedule_sorted_by_start_day (acts : list Raw.Activity) :
  ∃ result starts,
    calculateSchedule acts = Some result
    ∧ map startDay result = map Some starts
    ∧ StronglySorted Z.le starts
    ∧ ∀ s, map id (filter (λ r, startDay r = Some s) result)
           `sublist_of` map Raw.id acts.
Proof.
  destruct (calculateSchedule_total acts) as (order & _ & _ & Hresult).
  eexists _, (map startDayKey _). split; [exact Hresult|].
  assert (∀ r, r ∈ (if decide (length order ≠ length acts)
                    then sequentialFallback (map normalizeActivity acts)
                    else criticalPath (map normalizeActivity acts) order) →
               startDay r = Some (startDayKey r)) as Hstart.
  { intros r. apply (result_startDay acts _ r Hresult). }
  split_and!.
  - rewrite map_map. apply map_ext_in. intros r Hr%list_elem_of_In. by apply Hstart.
  - apply StronglySorted_fmap with (R1 := byStartDay); [done|].
    destruct (decide _); [apply sequentialFrom_sorted|apply sortByStartDay_sorted].
  - intros s.
    rewrite (filter_ext_elem _ (λ r, startDayKey r = s)).
    + destruct (decide _).
      * etrans; [apply fmap_sublist, sublist_filter|].
        unfold sequentialFallback. by rewrite sequentialFrom_ids, normalized_ids.
      * unfold criticalPath. rewrite sortByStartDay_ties.
        etrans; [apply fmap_sublist, sublist_filter|].
        by rewrite annotate_ids, normalized_ids.
    + intros r Hr. rewrite (Hstart r Hr). split; [by intros [= ->]|by intros ->].
Qed.

Lemma result_given (acts : list Raw.Activity) result r :
  calculateSchedule acts = Some result → r ∈ result →
  ∃ raw, raw ∈ acts ∧ givenFields r = givenFields (normalizeActivity raw).
Proof.
  intros Hresult Hr.
  destruct (calculateSchedule_givenFields acts) as (result' & Hres' & Hperm).
  assert (result' = result) as -> by congruence.
  assert (givenFields r ∈ map givenFields result) as Hin
    by (apply list_elem_of_fmap; eauto).
  rewrite Hperm, map_map in Hin. apply list_elem_of_fmap in Hin as (raw & ? & ?). eauto.
Qed.

(** X8.  No returned activity lists its own id, neither among its dependencies
    nor among its predecessors; its predecessors are the ids its
    dependencies name. *)
Theorem schedule_lists_no_own_id (acts : list Raw.Activity) :
  ∃ result,
    calculateSchedule acts = Some result
    ∧ Forall (λ r,
        (id r ∉ map activityId (dependencies r))
        ∧ (id r ∉ predecessors r)
        ∧ NoDup (dependencies r) ∧ NoDup (predecessors r)
        ∧ ∀ x, x ∈ predecessors r ↔ ∃ d, d ∈ dependencies r ∧ activityId d = x)
        result.
Proof.
  destruct (calculateSchedule_total acts) as (order & _ & _ & Hresult).
  eexists. split; [exact Hresult|]. apply Forall_forall. intros r Hr.
  destruct (result_given acts _ r Hresult Hr) as (raw & Hraw & [= Hid _ _ _ Hdeps Hpreds]).
  cbn [normalizeActivity id dependencies predecessors] in Hid, Hdeps, Hpreds.
  set (D := normalizeActivityDependencies (Raw.dependencies raw) (Raw.predecessors raw))
    in *.
  assert (∀ x, x ∈ predecessors r ↔ ∃ d, d ∈ dependencies r ∧ activityId d = x)
    as Hiff.
  { intros x. rewrite Hpreds, Hdeps, derive_elem. split.
    - intros [_ (d & Hd & <-)]. exists d. split; [done|].
      apply list_elem_of_filter in Hd as [_ Hd].
      by apply normalized_wf in Hd as (_ & -> & _).
    - intros (d & Hd & <-). pose proof Hd as [_ (? & ? & _)%normalized_wf]%list_elem_of_filter.
      eauto. }
  assert (id r ∉ map activityId (dependencies r)) as Hself.
  { rewrite Hdeps, Hid. intros (d & Heq & [Hne _]%list_elem_of_filter)%list_elem_of_fmap.
    by destruct Hne. }
  split_and!; [done| | | |done].
  - rewrite Hiff. intros (d & Hd & Heq). apply Hself, list_elem_of_fmap. eauto.
  - rewrite Hdeps. apply NoDup_filter, normalized_NoDup.
  - rewrite Hpreds. apply uniqueInOrder_NoDup.
Qed.

Lemma Forall2_elem_r {A B} (R : A → B → Prop) (xs : list A) (ys : list B) y :
  Forall2 R xs ys → y ∈ ys → ∃ x, x ∈ xs ∧ R x y.
Proof.
  intros HR (i & Hi)%list_elem_of_lookup.
  destruct (Forall2_lookup_r _ _ _ _ _ HR Hi) as (x & Hx & ?).
  exists x. split; [|done]. apply list_elem_of_lookup. eauto.
Qed.

Lemma Forall2_elem_l {A B} (R : A → B → Prop) (xs : list A) (ys : list B) x :
  Forall2 R xs ys → x ∈ xs → ∃ y, y ∈ ys ∧ R x y.
Proof.
  intros HR (i & Hi)%list_elem_of_lookup.
  destruct (Forall2_lookup_l _ _ _ _ _ HR Hi) as (y & Hy & ?).
  exists y. split; [|done]. apply list_elem_of_lookup. eauto.
Qed.

Lemma maximum_lub x xs c : x ≤ c → (∀ y, y ∈ xs → y ≤ c) → maximum x xs ≤ c.
Proof.
  intros Hx Hxs. destruct (maximum_attained x xs) as [->| ?]; [done|by apply Hxs].
Qed.

Lemma earliestStart_mono d ps ps' pdur dur :
  ps ≤ ps' →
  earliestStartFromDependency d ps (ps + pdur - 1) dur
  ≤ earliestStartFromDependency d ps' (ps' + pdur - 1) dur.
Proof. unfold earliestStartFromDependency. destruct (type d); simpl; lia. Qed.

Lemma elem_of_ids (l : list SchedulerActivity) x :
  x ∈ map id l → ∃ a, a ∈ l ∧ id a = x.
Proof. intros (a & -> & ?)%list_elem_of_fmap. eauto. Qed.

Section AcyclicSchedule.
Context (l : list SchedulerActivity) (order : list string).
Hypothesis order_spec : TopologicalOrder l order.
Hypothesis order_length : length order = length l.

Local Abbreviation g := (buildGraph l).
Local Abbreviation early := (forwardPass (activityMap g) order).
Local Abbreviation projectDuration := (projectDurationOf (earlyFinish early)).
Local Abbreviation late := (backwardPass g projectDuration order).

(** What [criticalPath] returns for one activity. *)
Lemma criticalPath_dates r :
  r ∈ criticalPath l order ↔
  ∃ a es ls,
    a ∈ l
    ∧ earlyStart early !! id a = Some es
    ∧ lateStart late !! id a = Some ls
    ∧ r = annotate g early late a
    ∧ id r = id a ∧ duration r = duration a
    ∧ dependencies r = dependencies a ∧ manualStart r = manualStart a
    ∧ startDay r = Some es ∧ endDay r = Some (es + duration a - 1)
    ∧ totalFloat r = ls - es ∧ isCritical r = bool_decide (ls - es = 0).
Proof.
  rewrite elem_of_criticalPath. split.
  - intros (a & Ha & ->).
    destruct (annotate_acyclic l order order_spec order_length a Ha)
      as (es & ls & slacks & Hes & Hls & _ & Hann).
    exists a, es, ls. rewrite Hann. by split_and!.
  - intros (a & es & ls & Ha & _ & _ & -> & _). eauto.
Qed.

Lemma same_id_same_activity a b : a ∈ l → b ∈ l → id a = id b → a = b.
Proof.
  intros Ha Hb Hid.
  pose proof (activity_lookup l order order_spec order_length a Ha) as Hla.
  pose proof (activity_lookup l order order_spec order_length b Hb) as Hlb.
  rewrite Hid in Hla. congruence.
Qed.

Lemma early_start_ge_manual a es :
  a ∈ l → earlyStart early !! id a = Some es →
  toValidStartDay (manualStart a) ≤ es.
Proof.
  intros Ha Hes.
  destruct (earlyDates_closed l order order_spec order_length a Ha)
    as (s & starts & Hs & _ & _ & ->).
  assert (es = maximum (toValidStartDay (manualStart a)) starts) as -> by congruence.
  by destruct (maximum_ge (toValidStartDay (manualStart a)) starts).
Qed.

Lemma early_start_least (S : string → Z) :
  Feasible l S →
  ∀ l1 l2, order = l1 ++ l2 →
  ∀ a es, a ∈ l → id a ∈ l1 → earlyStart early !! id a = Some es → es ≤ S (id a).
Proof.
  intros [Hmanual Hlinks] l1. induction l1 as [|x l1 IH] using rev_ind.
  { intros l2 _ a es _ []%elem_of_nil. }
  intros l2 Horder a es Ha Hin Hes. rewrite <- app_assoc in Horder.
  apply elem_of_app in Hin as [Hin|Hx%list_elem_of_singleton].
  { by apply (IH ([x] ++ l2) Horder a es). }
  destruct (earlyDates_closed l order order_spec order_length a Ha)
    as (s & starts & Hs & _ & Hstarts & Hmax).
  assert (es = s) as -> by congruence. rewrite Hmax.
  apply maximum_lub; [by apply Hmanual|]. intros v Hv.
  destruct (Forall2_elem_r _ _ _ _ Hstarts Hv) as (d & [Hd Hdl]%list_elem_of_filter & Hedge).
  destruct (elem_of_ids l _ Hd) as (p & Hp & Hidp).
  assert (id p ∈ l1) as Hbefore.
  { rewrite Hidp. by apply (predecessor_before l order order_spec l1 x l2 a d). }
  destruct (earlyDates_closed l order order_spec order_length p Hp)
    as (sp & _ & Hsp & Hfp & _ & _).
  unfold edgeStart in Hedge. rewrite <- Hidp, Hsp, Hfp in Hedge. simpl in Hedge.
  injection Hedge as <-.
  etrans; [apply earliestStart_mono, (IH ([x] ++ l2) Horder p sp Hp Hbefore Hsp)|].
  by apply Hlinks.
Qed.

Lemma late_start_le_tail a ls :
  a ∈ l → lateStart late !! id a = Some ls → ls ≤ projectDuration - duration a + 1.
Proof.
  intros Ha Hls.
  destruct (lateDates_closed l order order_spec order_length a Ha)
    as (ls' & bounds & Hls' & _ & _ & Hmin).
  assert (ls' = ls) as -> by congruence.
  destruct (earlyDates_closed l order order_spec order_length a Ha)
    as (s & _ & Hs & Hf & _ & _).
  pose proof (early_start_ge_1 l order order_spec order_length a s Ha Hs).
  pose proof (projectDurationOf_ge _ _ _ Hf).
  pose proof (proj1 (minimum_le (projectDuration - duration a + 1) bounds)).
  lia.
Qed.

End AcyclicSchedule.







(** A walk that never leaves a finite set comes back to a place it has
    been. *)
Lemma walk_in_finite_set_cycles (R : relation string) (U : list string) :
  (∀ x, x ∈ U → ∃ y, y ∈ U ∧ R x y) →
  ∀ (m : nat) (visited : list string) (current : string),
    (length U ≤ m + length visited)%nat →
    NoDup visited → visited ⊆ U → current ∈ visited →
    (∀ z, z ∈ visited → rtc R z current) →
    ∃ z, tc R z z.
Proof.
  intros Hnext m. induction m as [|m IH];
    intros visited current Hlen Hnd Hsub Hcur Hreach;
    destruct (Hnext current (Hsub _ Hcur)) as (y & Hy & Hstep);
    (destruct (decide (y ∈ visited)) as [Hin|Hin];
     [exists y; eapply tc_rtc_l; [by apply Hreach|by apply tc_once]|]);
    assert (NoDup (y :: visited)) as Hnd' by (by constructor);
    assert (y :: visited ⊆ U) as Hsub'
      by (intros z [->|?]%elem_of_cons; [done|by apply Hsub]).
  - pose proof (submseteq_length _ _ (NoDup_submseteq _ _ Hnd' Hsub')) as Hle.
    simpl in Hle. lia.
  - apply (IH (y :: visited) y); [simpl; lia|done|done|by left|].
    intros z [->|Hz]%elem_of_cons; [done|].
    eapply rtc_r; [by apply Hreach|done].
Qed.

Lemma not_Forall_Exists_not {A} (P : A → Prop) `{∀ x, Decision (P x)} (l : list A) :
  ¬ Forall P l → ∃ x, x ∈ l ∧ ¬ P x.
Proof.
  intros Hnot. destruct (decide (Exists (λ x, ¬ P x) l)) as [Hex|Hex].
  - by apply Exists_exists in Hex.
  - destruct Hnot. apply Forall_forall. intros x Hx.
    destruct (decide (P x)) as [|HP]; [done|].
    destruct Hex. apply Exists_exists. eauto.
Qed.

(** With distinct ids, Kahn's algorithm leaves activities out only when the
    graph has a cycle. *)
Lemma short_order_cycle (l : list SchedulerActivity) order :
  TopologicalOrder l order → NoDup (map id l) →
  (length order < length l)%nat → Cyclic l.
Proof.
  intros Hspec Hnd Hshort.
  set (U := filter (λ x, x ∉ order) (map id l)).
  assert (∀ x, x ∈ U → ∃ y, y ∈ U ∧ waitsFor l x y) as Hnext.
  { intros x [Hx Hin]%list_elem_of_filter.
    assert (¬ Forall (λ e : Edge, successorId e.2 = x → e.1 ∈ order) (edgesOf l))
      as Hnot.
    { intros Hall. rewrite Forall_forall in Hall.
      apply Hx, (order_closed l order Hspec x Hin). intros e He. by apply Hall. }
    destruct (not_Forall_Exists_not _ _ Hnot) as (e & He & Hne).
    destruct (decide (successorId e.2 = x)) as [Hsucc|]; [|by destruct Hne].
    destruct (decide (e.1 ∈ order)) as [|Hout]; [by destruct Hne|].
    exists e.1. split; [|by exists e].
    apply list_elem_of_filter. split; [done|].
    by apply edgesOf_endpoints in He as (_ & _ & _ & _ & _ & ?). }
  assert (∃ x, x ∈ U) as [x Hx].
  { destruct U as [|x U'] eqn:HU; [|exists x; by left]. exfalso.
    assert (map id l ⊆ order) as Hsub.
    { intros x Hx. destruct (decide (x ∈ order)) as [|Hout]; [done|].
      assert (x ∈ U) as Hin by (by apply list_elem_of_filter).
      rewrite HU in Hin. by apply elem_of_nil in Hin. }
    pose proof (submseteq_length _ _ (NoDup_submseteq _ _ Hnd Hsub)) as Hle.
    rewrite length_map in Hle. lia. }
  apply (walk_in_finite_set_cycles (waitsFor l) U Hnext (length U) [x] x);
    [lia|apply NoDup_singleton| |by left|].
  - by intros z ->%list_elem_of_singleton.
  - by intros z ->%list_elem_of_singleton.
Qed.

(** X12.  Kahn's loop stops within as many turns as there are activities.  Its
    order lists ids of activities, none twice, each after everything it
    waits for; an activity is in the order exactly when everything it waits
    for is. *)
Theorem kahn_order_is_topological (acts : list Raw.Activity) :
  let l := map normalizeActivity acts in
  ∃ order,
    topologicalOrder l = Some order
    ∧ NoDup order
    ∧ (∀ x, x ∈ order → x ∈ map Raw.id acts)
    ∧ (∀ l1 x l2, order = l1 ++ x :: l2 → ∀ p, waitsFor l x p → p ∈ l1)
    ∧ (∀ x, x ∈ map Raw.id acts →
         x ∈ order ↔ ∀ p, waitsFor l x p → p ∈ order).
Proof.
  intros l. destruct (topologicalOrder_spec l) as (order & Horder & Hspec).
  exists order. destruct Hspec as [Hnd Hids Hclosed Htopo].
  unfold l in Hids, Hclosed. rewrite normalized_ids in Hids, Hclosed.
  split_and!; [done..| |].
  - intros l1 x l2 Heq p (e & He & <- & <-). by apply (Htopo l1 _ l2 Heq e).
  - intros x Hx. rewrite (Hclosed x Hx). split.
    + intros Hall p (e & He & <- & <-). by apply Hall.
    + intros Hall e He Hsucc. apply Hall. by exists e.
Qed.

(** X13.  Kahn's order leaves activities out, and [calculateSchedule] takes the
    sequential fallback, exactly when two activities share an id or the
    graph has a cycle; otherwise the order holds every id once. *)
Theorem fallback_iff_shared_id_or_cycle (acts : list Raw.Activity) :
  let l := map normalizeActivity acts in
  ∃ order,
    topologicalOrder l = Some order
    ∧ ((length order < length acts)%nat ↔ ¬ NoDup (map Raw.id acts) ∨ Cyclic l)
    ∧ (¬ NoDup (map Raw.id acts) ∨ Cyclic l →
       calculateSchedule acts = Some (sequentialFallback l))
    ∧ (NoDup (map Raw.id acts) → ¬ Cyclic l →
       order ≡ₚ map Raw.id acts
       ∧ calculateSchedule acts = Some (criticalPath l order)).
Proof.
  intros l. destruct (calculateSchedule_total acts) as (order & Horder & Hspec & Hresult).
  fold l in Horder, Hspec, Hresult.
  pose proof (TopologicalOrder_length l order Hspec) as Hle.
  unfold l in Hle. rewrite length_map in Hle.
  assert ((length order < length acts)%nat ↔ ¬ NoDup (map Raw.id acts) ∨ Cyclic l)
    as Hiff.
  { split.
    - intros Hshort. destruct (decide (NoDup (map Raw.id acts))) as [Hnd|]; [|by left].
      right. apply (short_order_cycle l order Hspec).
      + unfold l. by rewrite normalized_ids.
      + unfold l. by rewrite length_map.
    - intros [Hdup|Hcycle].
      + destruct (decide (length order = length acts)) as [Hlen|]; [|lia].
        destruct Hdup. rewrite <- normalized_ids.
        apply (ids_NoDup _ order Hspec). unfold l. by rewrite length_map.
      + apply (cycle_shortens_order l order Hspec) in Hcycle.
        unfold l in Hcycle. by rewrite length_map in Hcycle. }
  exists order. split_and!; [done..| |].
  - intros Hshort%Hiff. rewrite Hresult, decide_True; [done|lia].
  - intros Hnd Hacyclic.
    assert (length order = length acts) as Hlen.
    { destruct (decide (length order = length acts)) as [|Hne]; [done|].
      assert (length order < length acts)%nat as Hshort%Hiff by lia. tauto. }
    split.
    + rewrite <- normalized_ids.
      apply (TopologicalOrder_complete _ order Hspec). unfold l. by rewrite length_map.
    + rewrite Hresult, decide_False; [done|]. by intros ?.
Qed.





Lemma successorEdges_elem (l : list SchedulerActivity) a d :
  a ∈ l → d ∈ dependencies a →
  {| successorId := id a; dependency := d |} ∈ successorEdges l (activityId d).
Proof.
  intros Ha Hd. unfold successorEdges. apply list_elem_of_In, in_flat_map.
  exists a. split; [by apply list_elem_of_In|].
  apply list_elem_of_In, list_elem_of_fmap. exists d. split; [done|].
  by apply list_elem_of_filter.
Qed.


Section FloatsMean.
Context (l : list SchedulerActivity) (order : list string).
Hypothesis order_spec : TopologicalOrder l order.
Hypothesis order_length : length order = length l.

Local Abbreviation g := (buildGraph l).
Local Abbreviation early := (forwardPass (activityMap g) order).
Local Abbreviation projectDuration := (projectDurationOf (earlyFinish early)).
Local Abbreviation late := (backwardPass g projectDuration order).

(** A latest start is within the bound of every successor edge. *)
Lemma late_start_within_bound a b d lsa lsb :
  a ∈ l → b ∈ l → d ∈ dependencies a → activityId d = id b →
  lateStart late !! id a = Some lsa → lateStart late !! id b = Some lsb →
  lsb ≤ latestStartUpperBoundFromSuccessor (type d) (default 0 (lagDays d))
          (duration b) lsa (lsa + duration a - 1).
Proof.
  intros Ha Hb Hd Hid Hlsa Hlsb.
  destruct (lateDates_closed l order order_spec order_length b Hb)
    as (ls & bounds & Hls & _ & Hbounds & Hmin).
  assert (ls = lsb) as -> by congruence.
  destruct (lateDates_closed l order order_spec order_length a Ha)
    as (ls & _ & Hls' & Hlfa & _ & _).
  assert (ls = lsa) as -> by congruence.
  pose proof (successorEdges_elem l a d Ha Hd) as Hedge. rewrite Hid in Hedge.
  destruct (Forall2_elem_l _ _ _ _ Hbounds Hedge) as (v & Hv & Hbound).
  unfold edgeBound in Hbound. cbn [successorId dependency] in Hbound.
  rewrite Hlsa, Hlfa in Hbound. simpl in Hbound. injection Hbound as Hbound.
  destruct (earlyDates_closed l order order_spec order_length a Ha)
    as (esa & _ & Hesa & _ & _ & _).
  destruct (earlyDates_closed l order order_spec order_length b Hb)
    as (esb & _ & Hesb & _ & _ & _).
  pose proof (successor_start_ge l order order_spec order_length b a d esb esa
                Hb Ha Hd Hid Hesb Hesa) as Hforward.
  pose proof (late_ge_early l order order_spec order_length a esa lsa Ha Hesa Hlsa).
  pose proof (early_start_ge_1 l order order_spec order_length b esb Hb Hesb).
  pose proof (edge_bound_ge_start d esb (duration b) esa (duration a) lsa Hforward
                ltac:(done)) as Hge.
  rewrite Hbound in Hge.
  pose proof (proj2 (minimum_le (projectDuration - duration b + 1) bounds) v Hv).
  rewrite Hbound. lia.
Qed.



End FloatsMean.



Lemma early_start_monotone (l l' : list SchedulerActivity) (order order' : list string) :
  TopologicalOrder l order → length order = length l →
  TopologicalOrder l' order' → length order' = length l' →
  (∀ a, a ∈ l → ∃ a', a' ∈ l' ∧ NoLessConstrained (map id l) a a') →
  ∀ a a' es es', a ∈ l → a' ∈ l' → id a' = id a →
    earlyStart (forwardPass (activityMap (buildGraph l)) order) !! id a = Some es →
    earlyStart (forwardPass (activityMap (buildGraph l')) order') !! id a' = Some es' →
    es ≤ es'.
Proof.
  intros Hspec Hlen Hspec' Hlen' Hmore a a' es es' Ha Ha' Hid Hes Hes'.
  set (early' := forwardPass (activityMap (buildGraph l')) order') in *.
  set (S := λ x, default 0 (earlyStart early' !! x)).
  assert (∀ b b', b ∈ l → b' ∈ l' → id b' = id b →
            ∃ s, earlyStart early' !! id b' = Some s ∧ S (id b) = s) as HS.
  { intros b b' Hb Hb' Hidb.
    destruct (earlyDates_closed l' order' Hspec' Hlen' b' Hb') as (s & _ & Hs & _).
    exists s. split; [done|]. unfold S, early'. by rewrite <- Hidb, Hs. }
  assert (Feasible l S) as Hfeasible.
  { split.
    - intros b Hb. destruct (Hmore b Hb) as (b' & Hb' & Hidb & _ & Hman & _).
      destruct (HS b b' Hb Hb' Hidb) as (s & Hs & ->).
      etrans; [exact Hman|].
      by apply (early_start_ge_manual l' order' Hspec' Hlen').
    - intros b p d Hb Hp Hd Hdp.
      destruct (Hmore b Hb) as (b' & Hb' & Hidb & Hdurb & _ & Hdeps).
      destruct (Hmore p Hp) as (p' & Hp' & Hidp & Hdurp & _ & _).
      destruct (HS b b' Hb Hb' Hidb) as (s & Hs & ->).
      destruct (HS p p' Hp Hp' Hidp) as (sp & Hsp & ->).
      rewrite <- Hdurb, <- Hdurp.
      apply (successor_start_ge l' order' Hspec' Hlen' p' b' d); try done.
      + apply Hdeps; [done|]. rewrite Hdp. apply list_elem_of_fmap. eauto.
      + congruence. }
  destruct (HS a a' Ha Ha' Hid) as (s & Hs & HSa).
  assert (s = es') as -> by congruence. rewrite <- HSa.
  apply (early_start_least l order Hspec Hlen S Hfeasible order []
           (eq_sym (app_nil_r _)) a es); [done| |done].
  apply (order_elem l order Hspec Hlen), list_elem_of_fmap. eauto.
Qed.

(** X17.  In the CPM branch, a later manual start or a further link makes no
    activity start earlier: when the second input has the ids and
    durations of the first, manual starts that are not earlier, and at
    least its links, every activity starts in the second schedule on or
    after its start in the first. *)
Theorem more_constraints_start_no_earlier (acts acts' : list Raw.Activity)
    (order order' : list string) :
  topologicalOrder (map normalizeActivity acts) = Some order →
  length order = length acts →
  topologicalOrder (map normalizeActivity acts') = Some order' →
  length order' = length acts' →
  Forall2 (λ a a', NoLessConstrained (map Raw.id acts)
                     (normalizeActivity a) (normalizeActivity a')) acts acts' →
  ∃ result result',
    calculateSchedule acts = Some result
    ∧ calculateSchedule acts' = Some result'
    ∧ ∀ r r' s s', r ∈ result → r' ∈ result' → id r' = id r →
        startDay r = Some s → startDay r' = Some s' → s ≤ s'.
Proof.
  intros Horder Hlen Horder' Hlen' Hmore.
  destruct (calculateSchedule_acyclic acts order Horder Hlen) as [Hspec ->].
  destruct (calculateSchedule_acyclic acts' order' Horder' Hlen') as [Hspec' ->].
  rewrite <- (length_map normalizeActivity) in Hlen, Hlen'.
  eexists _, _. split_and!; [done..|].
  intros r r' s s' Hr Hr' Hid Hs Hs'.
  apply (criticalPath_dates _ _ Hspec Hlen) in Hr
    as (a & es & _ & Ha & Hes & _ & _ & Hida & _ & _ & _ & Hstart & _).
  apply (criticalPath_dates _ _ Hspec' Hlen') in Hr'
    as (a' & es' & _ & Ha' & Hes' & _ & _ & Hida' & _ & _ & _ & Hstart' & _).
  assert (s = es) as -> by congruence. assert (s' = es') as -> by congruence.
  apply (early_start_monotone _ _ order order' Hspec Hlen Hspec' Hlen') with a a';
    [|done|done|congruence|done|done].
  intros b (raw & -> & Hraw)%list_elem_of_fmap.
  destruct (Forall2_elem_l _ _ _ _ Hmore Hraw) as (raw' & Hraw' & Hrel).
  exists (normalizeActivity raw'). split; [apply list_elem_of_fmap; eauto|].
  by rewrite normalized_ids.
Qed.

Lemma more_constraints_start_no_earlier_witness :
  topologicalOrder (map normalizeActivity diamond) = Some diamondOrder
  ∧ topologicalOrder (map normalizeActivity diamondWithLink) = Some diamondOrder
  ∧ Forall2 (λ a a', NoLessConstrained (map Raw.id diamond)
                       (normalizeActivity a) (normalizeActivity a'))
      diamond diamondWithLink
  ∧ ∃ result result',
      calculateSchedule diamond = Some result
      ∧ calculateSchedule diamondWithLink = Some result'
      ∧ ∀ r r' s s', r ∈ result → r' ∈ result' → id r' = id r →
          startDay r = Some s → startDay r' = Some s' → s ≤ s'.
Proof.
  assert (Forall2 (λ a a', NoLessConstrained (map Raw.id diamond)
                             (normalizeActivity a) (normalizeActivity a'))
            diamond diamondWithLink) as Hmore.
  { unfold diamond, diamondWithLink.
    repeat first [apply List.Forall2_nil | apply List.Forall2_cons];
      (unfold NoLessConstrained;
       split_and!; [vm_compute; reflexivity|vm_compute; reflexivity
                    |vm_compute; congruence|]);
      intros d Hd _; revert d Hd;
      (match goal with
       | |- ∀ d, d ∈ ?X → d ∈ ?Y =>
           apply (proj1 (Forall_forall (λ d, d ∈ Y) X));
           apply (bool_decide_unpack _); vm_compute; exact I
       end). }
  split_and!; [vm_compute; reflexivity..|exact Hmore|].
  apply (more_constraints_start_no_earlier diamond diamondWithLink
           diamondOrder diamondOrder); [vm_compute; reflexivity..|exact Hmore].
Defined.

Lemma elem_of_successorEdges (l : list SchedulerActivity) x r :
  r ∈ successorEdges l x ↔
  ∃ s d, s ∈ l ∧ d ∈ dependencies s ∧ activityId d = x
         ∧ r = {| successorId := id s; dependency := d |}.
Proof.
  unfold successorEdges. rewrite list_elem_of_In, in_flat_map. split.
  - intros (s & Hs%list_elem_of_In & Hr%list_elem_of_In).
    apply list_elem_of_fmap in Hr as (d & -> & [? ?]%list_elem_of_filter). eauto 10.
  - intros (s & d & Hs & Hd & Hx & ->). exists s.
    split; [by apply list_elem_of_In|].
    apply list_elem_of_In, list_elem_of_fmap. exists d. split; [done|].
    by apply list_elem_of_filter.
Qed.

Lemma latestBound_mono t lag dur ls ls' durs :
  ls ≤ ls' →
  latestStartUpperBoundFromSuccessor t lag dur ls (ls + durs - 1)
  ≤ latestStartUpperBoundFromSuccessor t lag dur ls' (ls' + durs - 1).
Proof. unfold latestStartUpperBoundFromSuccessor. destruct t; lia. Qed.

Section LateGreatest.
Context (l : list SchedulerActivity) (order : list string).
Hypothesis order_spec : TopologicalOrder l order.
Hypothesis order_length : length order = length l.

Local Abbreviation g := (buildGraph l).
Local Abbreviation early := (forwardPass (activityMap g) order).
Local Abbreviation projectDuration := (projectDurationOf (earlyFinish early)).
Local Abbreviation late := (backwardPass g projectDuration order).

Lemma late_start_greatest (L : string → Z) :
  LateFeasible l projectDuration L →
  ∀ l2 l1, order = l1 ++ l2 →
  ∀ a ls, a ∈ l → id a ∈ l2 → lateStart late !! id a = Some ls → L (id a) ≤ ls.
Proof.
  intros [Htail Hlinks] l2. induction l2 as [|x l2 IH].
  { intros l1 _ a ls _ []%elem_of_nil. }
  intros l1 Horder a ls Ha Hin Hls.
  assert (order = (l1 ++ [x]) ++ l2) as Horder' by by rewrite <- app_assoc.
  apply elem_of_cons in Hin as [Hx|Hin].
  2: { by apply (IH (l1 ++ [x]) Horder' a ls). }
  destruct (lateDates_closed l order order_spec order_length a Ha)
    as (ls' & bounds & Hls' & _ & Hbounds & Hmin).
  assert (ls' = ls) as -> by congruence. rewrite Hmin.
  etrans; [|apply Z.le_max_r]. apply minimum_glb; [by apply Htail|].
  intros v Hv.
  destruct (Forall2_elem_r _ _ _ _ Hbounds Hv) as (r & Hr & Hbound).
  pose proof Hr as (s & d & Hs & Hd & Hda & ->)%elem_of_successorEdges.
  assert (id s ∈ l2) as Hafter.
  { apply (successor_after l order order_spec order_length l1 x l2
             {| successorId := id s; dependency := d |}); [done|].
    rewrite leaving_edgesOf, <- Hx; [done|]. rewrite <- Hx.
    apply list_elem_of_fmap. eauto. }
  destruct (lateDates_closed l order order_spec order_length s Hs)
    as (lss & _ & Hlss & Hlfs & _ & _).
  unfold edgeBound in Hbound. cbn [successorId dependency] in Hbound.
  rewrite Hlss, Hlfs in Hbound. simpl in Hbound. injection Hbound as <-.
  etrans; [by apply (Hlinks a s d)|].
  apply latestBound_mono, (IH (l1 ++ [x]) Horder' s lss Hs Hafter Hlss).
Qed.

End LateGreatest.

Lemma waitsFor_subrel (l l' : list SchedulerActivity) x y :
  (∀ e, e ∈ edgesOf l → e ∈ edgesOf l') → tc (waitsFor l) x y → tc (waitsFor l') x y.
Proof.
  intros Hsub Htc.
  induction Htc as [x y (e & He & ? & ?)|x z y (e & He & ? & ?) _ IH].
  - apply tc_once. exists e. auto.
  - eapply tc_l; [|exact IH]. exists e. auto.
Qed.

Section InputOrder.
Context (l l' : list SchedulerActivity) (order order' : list string).
Hypothesis same : l ≡ₚ l'.
Hypothesis order_spec : TopologicalOrder l order.
Hypothesis order_length : length order = length l.
Hypothesis order_spec' : TopologicalOrder l' order'.

Lemma permuted_elem a : a ∈ l ↔ a ∈ l'.
Proof. by rewrite same. Qed.

Lemma permuted_ids x : x ∈ map id l ↔ x ∈ map id l'.
Proof. by rewrite same. Qed.

Lemma permuted_edges e : e ∈ edgesOf l ↔ e ∈ edgesOf l'.
Proof.
  rewrite !elem_of_edgesOf. split.
  - intros (a & d & Ha & Hd & Hin & ->). exists a, d.
    by rewrite <- permuted_elem, <- permuted_ids.
  - intros (a & d & Ha & Hd & Hin & ->). exists a, d.
    by rewrite permuted_elem, permuted_ids.
Qed.

Lemma permuted_order_length : length order' = length l'.
Proof.
  pose proof (TopologicalOrder_length l' order' order_spec') as Hle.
  destruct (decide (length order' = length l')) as [|Hne]; [done|]. exfalso.
  assert (Cyclic l') as [x Hx].
  { apply (short_order_cycle l' order' order_spec'); [|lia].
    rewrite <- same. apply (ids_NoDup l order order_spec order_length). }
  assert (Cyclic l) as Hcycle.
  { exists x. apply (waitsFor_subrel l' l); [|done]. intros e. by rewrite permuted_edges. }
  apply (cycle_shortens_order l order order_spec) in Hcycle. lia.
Qed.

Local Abbreviation early := (forwardPass (activityMap (buildGraph l)) order).
Local Abbreviation early' := (forwardPass (activityMap (buildGraph l')) order').

Lemma permuted_early_start a es es' :
  a ∈ l → earlyStart early !! id a = Some es → earlyStart early' !! id a = Some es' →
  es = es'.
Proof.
  intros Ha Hes Hes'. pose proof permuted_order_length as Hlen'.
  assert (∀ ids b, NoLessConstrained ids b b) as Hrefl by (by intros ids b).
  apply Z.le_antisymm.
  - apply (early_start_monotone l l' order order' order_spec order_length
             order_spec' Hlen') with a a; try done; [|by apply permuted_elem].
    intros b Hb. exists b. split; [by apply permuted_elem|done].
  - apply (early_start_monotone l' l order' order order_spec' Hlen'
             order_spec order_length) with a a; try done; [|by apply permuted_elem].
    intros b Hb. exists b. split; [by apply permuted_elem|done].
Qed.

Lemma permuted_early : early = early'.
Proof.
  pose proof permuted_order_length as Hlen'.
  destruct (forwardPass_spec l order order_spec order_length) as (Hs & Hf & Hdates).
  destruct (forwardPass_spec l' order' order_spec' Hlen') as (Hs' & Hf' & Hdates').
  rewrite <- (graph_activityMap l) in Hs, Hf, Hdates.
  rewrite <- (graph_activityMap l') in Hs', Hf', Hdates'.
  cbv zeta in *.
  assert (∀ x, earlyStart early !! x = earlyStart early' !! x
               ∧ earlyFinish early !! x = earlyFinish early' !! x) as Hsame.
  { intros x. destruct (decide (x ∈ map id l)) as [Hin|Hout].
    - destruct (elem_of_ids l x Hin) as (a & Ha & <-).
      destruct (Hdates a Ha) as (s & Hsa & Hfa & _).
      destruct (Hdates' a (proj1 (permuted_elem a) Ha)) as (s' & Hsa' & Hfa' & _).
      assert (s = s') as -> by by apply (permuted_early_start a).
      by rewrite Hsa, Hsa', Hfa, Hfa'.
    - assert (earlyStart early !! x = None) as ->.
      { apply eq_None_not_Some. by rewrite Hs. }
      assert (earlyFinish early !! x = None) as ->.
      { apply eq_None_not_Some. by rewrite Hf. }
      rewrite permuted_ids in Hout.
      split; symmetry; apply eq_None_not_Some; by rewrite ?Hs', ?Hf'. }
  destruct early as [s f] eqn:He, early' as [s' f'] eqn:He'. simpl in Hsame. f_equal.
  - apply map_eq. intros x. apply Hsame.
  - apply map_eq. intros x. apply Hsame.
Qed.

End InputOrder.

Lemma permuted_late_le (l l' : list SchedulerActivity) (order order' : list string) a ls ls' :
  l ≡ₚ l' →
  TopologicalOrder l order → length order = length l →
  TopologicalOrder l' order' → length order' = length l' →
  let early := forwardPass (activityMap (buildGraph l)) order in
  let early' := forwardPass (activityMap (buildGraph l')) order' in
  let late := backwardPass (buildGraph l) (projectDurationOf (earlyFinish early)) order in
  let late' :=
    backwardPass (buildGraph l') (projectDurationOf (earlyFinish early')) order' in
  a ∈ l → lateStart late !! id a = Some ls → lateStart late' !! id a = Some ls' →
  ls' ≤ ls.
Proof.
  intros Hperm Hspec Hlen Hspec' Hlen' early early' late late' Ha Hls Hls'.
  pose proof (permuted_early l l' order order' Hperm Hspec Hlen Hspec') as Hearly.
  fold early early' in Hearly.
  set (L := λ x, default 0 (lateStart late' !! x)).
  assert (∀ b, b ∈ l → ∃ v, lateStart late' !! id b = Some v ∧ L (id b) = v) as HL.
  { intros b Hb. rewrite Hperm in Hb.
    destruct (lateDates_closed l' order' Hspec' Hlen' b Hb) as (v & _ & Hv & _).
    exists v. split; [done|]. unfold L, late', early'. by rewrite Hv. }
  assert (LateFeasible l (projectDurationOf (earlyFinish early)) L) as Hfeasible.
  { split.
    - intros b Hb. destruct (HL b Hb) as (v & Hv & ->). rewrite Hperm in Hb.
      rewrite Hearly. by apply (late_start_le_tail l' order' Hspec' Hlen').
    - intros b s d Hb Hs Hd Hdb.
      destruct (HL b Hb) as (v & Hv & ->). destruct (HL s Hs) as (vs & Hvs & ->).
      rewrite Hperm in Hb, Hs.
      by apply (late_start_within_bound l' order' Hspec' Hlen' s b d). }
  destruct (HL a Ha) as (v & Hv & HLa). assert (v = ls') as -> by congruence.
  rewrite <- HLa.
  apply (late_start_greatest l order Hspec Hlen L Hfeasible order []); try done.
  apply (order_elem l order Hspec Hlen), list_elem_of_fmap. eauto.
Qed.

(** X18.  In the CPM branch the computed fields of an activity do not depend on
    the place of the activities in the input: the schedules of an input and
    of a rearrangement of it give each activity the same duration, start,
    end, floats and criticality. *)
Theorem schedule_independent_of_input_order (acts acts' : list Raw.Activity)
    (order : list string) :
  topologicalOrder (map normalizeActivity acts) = Some order →
  length order = length acts →
  acts ≡ₚ acts' →
  ∃ result result',
    calculateSchedule acts = Some result
    ∧ calculateSchedule acts' = Some result'
    ∧ ∀ r r', r ∈ result → r' ∈ result' → id r = id r' → computed r = computed r'.
Proof.
  intros Horder Hlen Hperm.
  destruct (calculateSchedule_acyclic acts order Horder Hlen) as [Hspec ->].
  destruct (calculateSchedule_total acts') as (order' & Horder' & Hspec' & ->).
  rewrite <- (length_map normalizeActivity) in Hlen.
  assert (map normalizeActivity acts ≡ₚ map normalizeActivity acts') as Hperm'
    by by rewrite Hperm.
  set (l := map normalizeActivity acts) in *.
  set (l' := map normalizeActivity acts') in *.
  pose proof (permuted_order_length l l' order order' Hperm' Hspec Hlen Hspec') as Hlen'.
  rewrite decide_False by (unfold l' in Hlen'; rewrite length_map in Hlen'; lia).
  eexists _, _. split_and!; [done..|].
  intros r r' (a & Ha & ->)%elem_of_criticalPath (a' & Ha' & ->)%elem_of_criticalPath.
  pose proof (permuted_early l l' order order' Hperm' Hspec Hlen Hspec') as Hearly.
  destruct (annotate_acyclic l order Hspec Hlen a Ha)
    as (es & ls & slacks & Hes & Hls & Hslacks & ->).
  destruct (annotate_acyclic l' order' Hspec' Hlen' a' Ha')
    as (es' & ls' & slacks' & Hes' & Hls' & Hslacks' & ->).
  cbn [id]. intros Hid.
  assert (a' = a) as ->.
  { apply (same_id_same_activity l' order' Hspec' Hlen'); [done| |done].
    by rewrite <- Hperm'. }
  assert (es' = es) as ->.
  { rewrite <- Hearly in Hes'. congruence. }
  assert (ls' = ls) as ->.
  { apply Z.le_antisymm.
    - by apply (permuted_late_le l l' order order' a ls ls').
    - by apply (permuted_late_le l' l order' order a ls' ls). }
  unfold computed. cbn [id duration startDay endDay totalFloat freeFloat isCritical].
  repeat f_equal.
  assert (∀ v, v ∈ slacks ↔ v ∈ slacks') as Hsame.
  { intros v. rewrite <- Hearly in Hslacks'. split; intros Hv.
    - destruct (Forall2_elem_r _ _ _ _ Hslacks Hv) as (e & He & Hslack).
      assert (e ∈ successorEdges l' (id a)) as He'.
      { apply elem_of_successorEdges in He as (s & d & Hs & ?).
        apply elem_of_successorEdges. exists s, d. by rewrite <- Hperm'. }
      destruct (Forall2_elem_l _ _ _ _ Hslacks' He') as (v' & Hv' & Hslack').
      congruence.
    - destruct (Forall2_elem_r _ _ _ _ Hslacks' Hv) as (e & He & Hslack).
      assert (e ∈ successorEdges l (id a)) as He'.
      { apply elem_of_successorEdges in He as (s & d & Hs & ?).
        apply elem_of_successorEdges. exists s, d. by rewrite Hperm'. }
      destruct (Forall2_elem_l _ _ _ _ Hslacks He') as (v' & Hv' & Hslack').
      congruence. }
  pose proof (Math_min_ext slacks slacks' Hsame) as Hmin.
  destruct slacks as [|v vs], slacks' as [|v' vs']; try done.
  rewrite !Math_min_minimum in Hmin. congruence.
Qed.

Lemma schedule_independent_of_input_order_witness :
  topologicalOrder (map normalizeActivity diamond) = Some diamondOrder
  ∧ length diamondOrder = length diamond
  ∧ diamond ≡ₚ reverse diamond
  ∧ ∃ result result',
      calculateSchedule diamond = Some result
      ∧ calculateSchedule (reverse diamond) = Some result'
      ∧ ∀ r r', r ∈ result → r' ∈ result' → id r = id r' → computed r = computed r'.
Proof.
  split_and!; [vm_compute; reflexivity|reflexivity|by rewrite reverse_Permutation|].
  apply (schedule_independent_of_input_order diamond (reverse diamond) diamondOrder);
    [vm_compute; reflexivity|reflexivity|by rewrite reverse_Permutation].
Defined.

(** With a start-to-start link the free float can exceed the total float. *)
Example free_float_above_total_float :
  map computed <$> calculateSchedule startTogether
  = Some [("A", 10, Some 1, Some 10, 0, 4, true);
          ("B", 1, Some 5, Some 5, 5, 5, false)].
Proof. vm_compute. reflexivity. Qed.

Section FreeFloatBound.
Context (l : list SchedulerActivity) (order : list string).
Hypothesis order_spec : TopologicalOrder l order.
Hypothesis order_length : length order = length l.
Hypothesis durations : ∀ a, a ∈ l → 1 ≤ duration a.

Local Abbreviation g := (buildGraph l).
Local Abbreviation early := (forwardPass (activityMap g) order).
Local Abbreviation projectDuration := (projectDurationOf (earlyFinish early)).
Local Abbreviation late := (backwardPass g projectDuration order).


End FreeFloatBound.



Example sanitizeActivities_example :
  sanitizeActivities (Some parsedExample) []
  = Some [ {| Draft.id := "A1"; Draft.name := "Excavation"; Draft.duration := 3;
              Draft.dependencies := []; Draft.predecessors := [];
              Draft.status := COMPLETED; Draft.notes := None |};
           {| Draft.id := "A2"; Draft.name := "Activity 2"; Draft.duration := 3;
              Draft.dependencies :=
                [ {| activityId := "A1"; type := SS; lagDays := Some 2 |};
                  {| activityId := "A1"; type := FS; lagDays := Some 0 |} ];
              Draft.predecessors := ["A1"];
              Draft.status := NOT_STARTED; Draft.notes := Some "note" |} ].
Proof. vm_compute. reflexivity. Qed.

Lemma noWhiteSpace_append a b :
  noWhiteSpace (a +:+ b) = noWhiteSpace a && noWhiteSpace b.
Proof.
  induction a as [|c a IH]; [done|].
  rewrite append_cons. simpl. by rewrite IH, andb_assoc.
Qed.

Lemma noWhiteSpace_rev s : noWhiteSpace (String.rev s) = noWhiteSpace s.
Proof.
  induction s as [|c s IH]; [done|].
  rewrite rev_cons, noWhiteSpace_append, IH. simpl.
  by rewrite andb_true_r, andb_comm.
Qed.

Lemma noWhiteSpace_startsClean s : noWhiteSpace s = true → startsClean s.
Proof.
  destruct s as [|c s]; [done|]. simpl.
  intros [Hc _]%andb_true_iff. by apply negb_true_iff.
Qed.

Lemma noWhiteSpace_trim s : noWhiteSpace s = true → trim s = s.
Proof.
  intros Hs. apply trim_clean; apply noWhiteSpace_startsClean; [done|].
  by rewrite noWhiteSpace_rev.
Qed.

Lemma noWhiteSpace_pretty_N_go x s :
  noWhiteSpace s = true → noWhiteSpace (pretty_N_go x s) = true.
Proof.
  revert s. induction (N.lt_wf_0 x) as [x _ IH]; intros s Hs.
  destruct (decide (0 < x)%N) as [Hx|Hx].
  - rewrite pretty_N_go_step by done. apply IH.
    + by apply N.div_lt.
    + simpl. rewrite Hs, andb_true_r.
      unfold pretty_N_char. by repeat case_match.
  - assert (x = 0%N) as -> by lia. by rewrite pretty_N_go_0.
Qed.

Lemma noWhiteSpace_numberToString n : noWhiteSpace (numberToString n) = true.
Proof.
  assert (∀ p : positive, noWhiteSpace (pretty p) = true) as Hpos.
  { intros p. unfold pretty, pretty_positive, pretty, pretty_N.
    rewrite decide_False by done. by apply noWhiteSpace_pretty_N_go. }
  unfold numberToString, pretty, pretty_Z. destruct n as [|p|p]; [done|apply Hpos|].
  simpl. apply Hpos.
Qed.

Lemma indexLabel_clean (prefix : string) idx :
  prefix ≠ "" → noWhiteSpace prefix = true →
  indexLabel prefix idx ≠ "" ∧ trim (indexLabel prefix idx) = indexLabel prefix idx.
Proof.
  intros Hne Hp. unfold indexLabel. split.
  - destruct prefix as [|c p]; [done|]. by rewrite append_cons.
  - apply noWhiteSpace_trim.
    by rewrite noWhiteSpace_append, Hp, noWhiteSpace_numberToString.
Qed.

Lemma trimmedOr_clean v otherwise :
  otherwise ≠ "" → trim otherwise = otherwise →
  trimmedOr v otherwise ≠ "" ∧ trim (trimmedOr v otherwise) = trimmedOr v otherwise.
Proof.
  intros Hne Htrim. destruct v as [| | | |s]; simpl; try done.
  destruct (decide (trim s = "")); [done|]. by rewrite trim_idemp.
Qed.

Lemma sanitizeEntries_None fallback idx entries :
  sanitizeEntries fallback idx entries = None ↔ Nullish ∈ entries.
Proof.
  revert idx. induction entries as [|e entries IH]; intros idx; simpl.
  - split; [done|by intros ?%elem_of_nil].
  - rewrite elem_of_cons. destruct e as [|rawId dur nm st nt ds ps]; simpl.
    + split; [by left|done].
    + destruct (sanitizeEntries fallback (S idx) entries) eqn:Hrest; simpl.
      * split; [done|]. intros [?|Hin]; [done|].
        apply (IH (S idx)) in Hin. congruence.
      * split; [|done]. intros _. right. by apply (IH (S idx)).
Qed.

Lemma sanitizeEntries_Some fallback idx entries draft :
  sanitizeEntries fallback idx entries = Some draft →
  length draft = length entries
  ∧ Forall (λ a, ∃ i e, sanitizeEntry fallback i e = Some a) draft.
Proof.
  revert idx draft. induction entries as [|e entries IH]; intros idx draft; simpl.
  - intros [= <-]. by split.
  - destruct (sanitizeEntry fallback idx e) as [a|] eqn:Ha; [|done]. simpl.
    destruct (sanitizeEntries fallback (S idx) entries) as [rest|] eqn:Hrest; [|done].
    simpl. intros [= <-]. destruct (IH _ _ Hrest) as [Hlen Hall].
    split; [simpl; by rewrite Hlen|]. constructor; [eauto|done].
Qed.

Lemma sanitizeEntry_wf fallback i e a :
  sanitizeEntry fallback i e = Some a →
  (Draft.id a ≠ "" ∧ trim (Draft.id a) = Draft.id a)
  ∧ Draft.name a ≠ ""
  ∧ (Forall (λ f, 0 ≤ Draft.duration f) fallback → 1 ≤ Draft.duration a)
  ∧ NoDup (Draft.dependencies a)
  ∧ Forall (λ d, activityId d ≠ Draft.id a
                 ∧ activityId d ≠ "" ∧ trim (activityId d) = activityId d
                 ∧ is_Some (lagDays d))
      (Draft.dependencies a).
Proof.
  destruct e as [|rawId dur nm st nt ds ps]; [done|]. intros [= <-].
  cbn [Draft.id Draft.name Draft.duration Draft.dependencies].
  destruct (indexLabel_clean "A" i) as [HA HAt]; [done..|].
  assert (indexLabel "Activity " i ≠ "") as HN by done.
  split_and!.
  - by apply trimmedOr_clean.
  - by apply trimmedOr_clean.
  - assert (match fallback !! i with
            | Some f => if decide (Draft.name f = "") then indexLabel "Activity " i
                        else Draft.name f
            | None => indexLabel "Activity " i
            end ≠ "") as Hfn.
    { destruct (fallback !! i) as [f|]; [|done].
      by destruct (decide (Draft.name f = "")). }
    destruct nm as [| | | |s]; simpl; try done.
    by destruct (decide (trim s = "")).
  - intros Hfb.
    assert (1 ≤ match fallback !! i with
                | Some f => if decide (Draft.duration f = 0) then 3 else Draft.duration f
                | None => 3
                end) as Hfd.
    { destruct (fallback !! i) as [f|] eqn:Hf; [|done].
      rewrite Forall_forall in Hfb.
      specialize (Hfb f (list_elem_of_lookup_2 _ _ _ Hf)).
      destruct (decide (Draft.duration f = 0)); lia. }
    destruct (finiteNumber dur) as [q|]; [|done].
    destruct (Qle_bool q 0) eqn:Hq; [done|].
    assert (¬ (q <= 0)%Q) as Hpos by (rewrite <- Qle_bool_iff; congruence).
    apply Qnot_le_lt in Hpos.
    assert (0 < Qceiling q); [|lia].
    apply Z.lt_nge. intros Hle. apply (Qlt_not_le _ _ Hpos).
    eapply Qle_trans; [apply Qle_ceiling|]. change 0%Q with (inject_Z 0).
    by rewrite <- Zle_Qle.
  - apply NoDup_filter, normalized_NoDup.
  - apply Forall_forall. intros d [Hne Hd]%list_elem_of_filter.
    by apply normalized_wf in Hd as (? & ? & ?).
Qed.

(** X20.  [sanitizeActivities] returns the fallback when the response is no
    array or an empty one, and throws exactly when the array holds [null]
    or [undefined]. *)
Theorem sanitize_falls_back_or_throws (fallback : list Draft.Activity) :
  sanitizeActivities None fallback = Some fallback
  ∧ sanitizeActivities (Some []) fallback = Some fallback
  ∧ ∀ entries, sanitizeActivities (Some entries) fallback = None ↔ Nullish ∈ entries.
Proof.
  split_and!; [done..|]. intros [|e entries].
  - split; [done|by intros ?%elem_of_nil].
  - rewrite <- (sanitizeEntries_None fallback 0). unfold sanitizeActivities.
    by destruct (sanitizeEntries fallback 0 (e :: entries)).
Qed.

(** X21.  What [sanitizeActivities] makes of an array that is not empty: as many
    activities as entries, each with an id and a name that are not empty,
    the id without surrounding white space; every dependency has a lag and
    names the id of another returned activity, no dependency occurs twice,
    and the predecessors are derived from the dependencies: the ids they
    name, each once.  Durations are at least 1 when no fallback duration is
    negative. *)
Theorem sanitized_links_stay_inside (entries : list ParsedEntry)
    (fallback result : list Draft.Activity) :
  entries ≠ [] →
  sanitizeActivities (Some entries) fallback = Some result →
  length result = length entries
  ∧ (Forall (λ f, 0 ≤ Draft.duration f) fallback →
     Forall (λ a, 1 ≤ Draft.duration a) result)
  ∧ Forall (λ a,
      Draft.id a ≠ "" ∧ trim (Draft.id a) = Draft.id a ∧ Draft.name a ≠ ""
      ∧ NoDup (Draft.dependencies a)
      ∧ Forall (λ d, activityId d ≠ Draft.id a ∧ is_Some (lagDays d)
                     ∧ ∃ b, b ∈ result ∧ Draft.id b = activityId d)
          (Draft.dependencies a)
      ∧ Draft.predecessors a
        = derivePredecessorsFromDependencies (Draft.dependencies a)
      ∧ NoDup (Draft.predecessors a)
      ∧ ∀ x, x ∈ Draft.predecessors a
             ↔ ∃ d, d ∈ Draft.dependencies a ∧ activityId d = x) result.
Proof.
  intros Hne. destruct entries as [|e entries]; [done|]. unfold sanitizeActivities.
  destruct (sanitizeEntries fallback 0 (e :: entries)) as [draft|] eqn:Hdraft; [|done].
  simpl. intros [= <-].
  destruct (sanitizeEntries_Some _ _ _ _ Hdraft) as [Hlen Hall].
  rewrite Forall_forall in Hall.
  split_and!.
  - by rewrite length_map.
  - intros Hfb. apply Forall_forall. intros a' (a & -> & Ha)%list_elem_of_fmap.
    destruct (Hall a Ha) as (i & e' & He').
    apply sanitizeEntry_wf in He' as (_ & _ & Hdur & _). by apply Hdur.
  - apply Forall_forall. intros a' (a & -> & Ha)%list_elem_of_fmap.
    destruct (Hall a Ha) as (i & e' & He').
    apply sanitizeEntry_wf in He' as ([Hid Htrim] & Hname & _ & Hnd & Hdeps).
    rewrite Forall_forall in Hdeps.
    cbn [keepValidIds Draft.id Draft.name Draft.dependencies Draft.predecessors].
    split_and!; [done..| | | | |].
    + by apply NoDup_filter.
    + apply Forall_forall. intros d [Hvalid Hd]%list_elem_of_filter.
      split_and!; [by apply Hdeps|by apply Hdeps|].
      apply elem_of_list_to_set, list_elem_of_fmap in Hvalid as (b & Hb & Hin).
      exists (keepValidIds (list_to_set (map Draft.id draft)) b).
      split; [apply list_elem_of_fmap; eauto|done].
    + done.
    + apply uniqueInOrder_NoDup.
    + intros x. rewrite derive_elem. split.
      * intros [_ (d & Hd & <-)]. exists d. split; [done|].
        apply list_elem_of_filter in Hd as [_ Hd]. by apply Hdeps in Hd as (_ & _ & -> & _).
      * intros (d & Hd & <-).
        pose proof Hd as [_ (_ & ? & ? & _)%Hdeps]%list_elem_of_filter. eauto.
Qed.

Lemma sanitized_links_stay_inside_witness :
  parsedExample ≠ []
  ∧ (∃ result, sanitizeActivities (Some parsedExample) [] = Some result
      ∧ length result = length parsedExample
      ∧ Forall (λ a,
          Forall (λ d, activityId d ≠ Draft.id a
                       ∧ ∃ b, b ∈ result ∧ Draft.id b = activityId d)
            (Draft.dependencies a)) result).
Proof.
  split; [done|]. eexists. split; [vm_compute; reflexivity|].
  match goal with
  | |- length ?r = _ ∧ _ =>
      destruct (sanitized_links_stay_inside parsedExample [] r)
        as (Hlen & _ & Hall); [done|vm_compute; reflexivity|]
  end.
  split; [exact Hlen|]. eapply Forall_impl; [exact Hall|].
  intros a (_ & _ & _ & _ & Hd & _). eapply Forall_impl; [exact Hd|].
  by intros d (? & _ & ?).
Defined.

Example routeSchedule_example :
  map computed <$> routeSchedule columnsOverlapFoundation
  = Some [("A1", 10, Some 1, Some 10, 0, 0, true);
          ("A2", 4, Some 11, Some 14, 0, 0, true)].
Proof. vm_compute. reflexivity. Qed.

Lemma filter_none {A} (P : A → Prop) `{∀ x, Decision (P x)} (l : list A) :
  (∀ x, x ∈ l → ¬ P x) → filter P l = [].
Proof.
  induction l as [|x l IH]; intros Hnone; [done|].
  rewrite filter_cons_False by (apply Hnone; by left).
  apply IH. intros y Hy. apply Hnone. by right.
Qed.

Lemma withLegacyLinks_closed (item : Draft.Activity) :
  NoDup (Draft.dependencies item) →
  Forall (λ d, activityId d ≠ "" ∧ trim (activityId d) = activityId d
               ∧ is_Some (lagDays d)) (Draft.dependencies item) →
  Draft.predecessors item
  = derivePredecessorsFromDependencies (Draft.dependencies item) →
  let stored := withLegacyLinks item in
  NoDup stored
  ∧ Forall (λ d, activityId d ≠ "" ∧ trim (activityId d) = activityId d
                 ∧ is_Some (lagDays d)) stored
  ∧ filter (λ x, fsLink x ∉ stored) (derivePredecessorsFromDependencies stored) = [].
Proof.
  intros Hnd Hwf Hpreds stored. subst stored. unfold withLegacyLinks.
  rewrite Hpreds.
  set (D := Draft.dependencies item) in *.
  pose proof (derive_wf D) as Hids.
  rewrite Forall_forall in Hwf. rewrite Forall_forall in Hids.
  assert (∀ d, d ∈ D ++ map fsLink (filter (λ x, fsLink x ∉ D)
                                      (derivePredecessorsFromDependencies D)) →
            activityId d ≠ "" ∧ trim (activityId d) = activityId d
            ∧ is_Some (lagDays d)
            ∧ activityId d ∈ derivePredecessorsFromDependencies D) as Hall.
  { intros d [Hd|(x & -> & [_ Hx]%list_elem_of_filter)%list_elem_of_fmap]%elem_of_app.
    - destruct (Hwf d Hd) as (? & ? & ?). split_and!; [done..|].
      apply derive_elem. eauto.
    - destruct (Hids x Hx). simpl. split_and!; eauto. }
  split_and!.
  - apply NoDup_app. split_and!; [done| |].
    + intros d Hd (x & -> & [Hout _]%list_elem_of_filter)%list_elem_of_fmap. done.
    + apply NoDup_fmap_2; [by intros x y [= ->]|].
      apply NoDup_filter, uniqueInOrder_NoDup.
  - apply Forall_forall. intros d Hd. destruct (Hall d Hd) as (? & ? & ? & _). done.
  - apply filter_none.
    intros x (_ & d & Hd & <-)%derive_elem Hout.
    destruct (Hall d Hd) as (_ & Htrim & _ & Hin). rewrite Htrim in Hout.
    apply Hout, elem_of_app.
    destruct (decide (fsLink (activityId d) ∈ D)); [by left|right].
    apply list_elem_of_fmap. eexists. split; [done|]. by apply list_elem_of_filter.
Qed.

(** X22.  The route stores, for an item as [sanitizeActivities] returns it, the
    item's dependencies and a finish-to-start link without lag for every
    predecessor id that has none; [calculateSchedule] reads exactly these
    links again, less those that name the activity itself. *)
Theorem route_adds_legacy_links (index : nat) (item : Draft.Activity) :
  NoDup (Draft.dependencies item) →
  Forall (λ d, activityId d ≠ "" ∧ trim (activityId d) = activityId d
               ∧ is_Some (lagDays d)) (Draft.dependencies item) →
  Draft.predecessors item
  = derivePredecessorsFromDependencies (Draft.dependencies item) →
  let activity := routeNormalizeItem index item in
  Raw.dependencies activity = Some (map rawDependency (withLegacyLinks item))
  ∧ normalizeActivityDependencies (Raw.dependencies activity)
      (Raw.predecessors activity) = withLegacyLinks item
  ∧ dependencies (normalizeActivity activity)
    = filter (λ d, activityId d ≠ Raw.id activity) (withLegacyLinks item).
Proof.
  intros Hnd Hwf Hpreds activity.
  destruct (withLegacyLinks_closed item Hnd Hwf Hpreds) as (Hnd' & Hwf' & Hnone).
  assert (normalizeActivityDependencies
            (Some (map rawDependency (Draft.dependencies item)))
            (Some (map JsString (Draft.predecessors item)))
          = withLegacyLinks item) as Hstored.
  { rewrite renormalize_closed; [done..| |]; rewrite Hpreds;
      [apply uniqueInOrder_NoDup|apply derive_wf]. }
  assert (normalizeActivityDependencies (Raw.dependencies activity)
            (Raw.predecessors activity) = withLegacyLinks item) as Hagain.
  { subst activity. cbn [routeNormalizeItem Raw.dependencies Raw.predecessors].
    rewrite Hstored, renormalize_closed, Hnone, app_nil_r;
      [done..|apply uniqueInOrder_NoDup|apply derive_wf]. }
  split_and!; [|done|].
  - subst activity. cbn [routeNormalizeItem Raw.dependencies]. by rewrite Hstored.
  - unfold normalizeActivity. cbn [dependencies]. by rewrite Hagain.
Qed.

Lemma route_adds_legacy_links_witness :
  NoDup (Draft.dependencies overlappingColumns)
  ∧ Forall (λ d, activityId d ≠ "" ∧ trim (activityId d) = activityId d
                 ∧ is_Some (lagDays d)) (Draft.dependencies overlappingColumns)
  ∧ Draft.predecessors overlappingColumns
    = derivePredecessorsFromDependencies (Draft.dependencies overlappingColumns)
  ∧ dependencies (normalizeActivity (routeNormalizeItem 1 overlappingColumns))
    = [ {| activityId := "A1"; type := SS; lagDays := Some 2 |};
        {| activityId := "A1"; type := FS; lagDays := Some 0 |} ].
Proof.
  assert (NoDup (Draft.dependencies overlappingColumns)) as Hnd
    by apply NoDup_singleton.
  assert (Forall (λ d, activityId d ≠ "" ∧ trim (activityId d) = activityId d
                       ∧ is_Some (lagDays d))
            (Draft.dependencies overlappingColumns)) as Hwf.
  { constructor; [|constructor]. split_and!; [done|vm_compute; reflexivity|by eexists]. }
  assert (Draft.predecessors overlappingColumns
          = derivePredecessorsFromDependencies
              (Draft.dependencies overlappingColumns)) as Hpreds
    by (vm_compute; reflexivity).
  split_and!; [done..|].
  destruct (route_adds_legacy_links 1 overlappingColumns Hnd Hwf Hpreds) as (_ & _ & ->).
  vm_compute. reflexivity.
Defined.

Lemma filter_other_ids (targetId : string) (acts : list Raw.Activity) :
  map Raw.id (filter (λ a, Raw.id a ≠ targetId) acts)
  = filter (λ x, x ≠ targetId) (map Raw.id acts).
Proof.
  induction acts as [|a acts IH]; [done|]. cbn [map].
  rewrite !filter_cons. destruct (decide (Raw.id a ≠ targetId)); cbn [map]; by rewrite IH.
Qed.

(** X23.  After [handleDelete] the deleted id is the id of no activity and the
    target of no dependency, typed or legacy; the other activities are
    there, in their order. *)
Theorem delete_leaves_no_reference (activities : list Raw.Activity) (targetId : string) :
  let result := handleDelete activities targetId in
  map Raw.id result = filter (λ x, x ≠ targetId) (map Raw.id activities)
  ∧ Forall (λ a,
      Raw.id a ≠ targetId
      ∧ Forall (λ dep, activityId dep ≠ targetId)
          (normalizeActivityDependencies (Raw.dependencies a) (Raw.predecessors a)))
      result.
Proof.
  intros result. subst result. unfold handleDelete.
  destruct (filter _ activities) as [|b dependents] eqn:Hdependents.
  - split; [apply filter_other_ids|].
    apply Forall_forall. intros a [Hid Ha]%list_elem_of_filter. split; [done|].
    apply Forall_forall. intros dep Hdep Heq.
    assert (a ∈ filter (λ a, Exists (λ dep, activityId dep = targetId)
                               (normalizeActivityDependencies (Raw.dependencies a)
                                  (Raw.predecessors a))) activities) as Hin.
    { apply list_elem_of_filter. split; [|done]. apply Exists_exists. eauto. }
    rewrite Hdependents in Hin. by apply elem_of_nil in Hin.
  - split.
    + rewrite map_map. cbn [withoutDependencyOn Raw.id].
      apply filter_other_ids.
    + apply Forall_forall.
      intros a' (a & -> & [Hid Ha]%list_elem_of_filter)%list_elem_of_fmap.
      split; [done|]. cbn [withoutDependencyOn Raw.dependencies Raw.predecessors].
      set (remaining := filter (λ dep, activityId dep ≠ targetId)
                          (normalizeActivityDependencies (Raw.dependencies a)
                             (Raw.predecessors a))).
      assert (∀ d, d ∈ remaining →
                activityId d ≠ targetId ∧ activityId d ≠ ""
                ∧ trim (activityId d) = activityId d ∧ is_Some (lagDays d)) as Hrem.
      { intros d [? (? & ? & ?)%normalized_wf]%list_elem_of_filter. done. }
      rewrite renormalize_closed.
      * apply Forall_forall.
        intros dep [Hd|(x & -> & [_ Hx]%list_elem_of_filter)%list_elem_of_fmap]%elem_of_app.
        -- by apply Hrem.
        -- apply derive_elem in Hx as (_ & d & Hd & <-).
           apply Hrem in Hd as (? & _ & -> & _). done.
      * apply NoDup_filter, normalized_NoDup.
      * apply Forall_forall. intros d Hd. by apply Hrem in Hd as (_ & ? & ? & ?).
      * apply uniqueInOrder_NoDup.
      * apply derive_wf.
Qed.

Example generateId_example : generateId ["A1"; "A10"; "B7"; "x"] = "A11".
Proof. vm_compute. reflexivity. Qed.


Lemma pretty_N_char_digit d :
  (d < 10)%N →
  isDigit (pretty_N_char d) = true
  ∧ Z.of_N (N_of_ascii (pretty_N_char d)) - 48 = Z.of_N d.
Proof.
  intros Hd.
  assert (d = 0 ∨ d = 1 ∨ d = 2 ∨ d = 3 ∨ d = 4 ∨ d = 5 ∨ d = 6 ∨ d = 7 ∨ d = 8
          ∨ d = 9)%N as Hcases by lia.
  repeat destruct Hcases as [->|Hcases]; try subst d; by vm_compute.
Qed.

Lemma parseDigits_pretty_N_go x s :
  parseDigits 0 (pretty_N_go x s) = parseDigits (Z.of_N x) s.
Proof.
  revert s. induction (N.lt_wf_0 x) as [x _ IH]; intros s.
  destruct (decide (0 < x)%N) as [Hx|Hx].
  - rewrite pretty_N_go_step, IH by (done || by apply N.div_lt).
    cbn [parseDigits].
    destruct (pretty_N_char_digit (x `mod` 10)) as [_ ->];
      [by apply N.mod_upper_bound|].
    f_equal. rewrite (N.div_mod x 10) at 3 by done. lia.
  - assert (x = 0%N) as -> by lia. by rewrite pretty_N_go_0.
Qed.

Lemma digitsOf_pretty_N_go x s :
  digitsOf (pretty_N_go x s) = pretty_N_go x (digitsOf s).
Proof.
  revert s. induction (N.lt_wf_0 x) as [x _ IH]; intros s.
  destruct (decide (0 < x)%N) as [Hx|Hx].
  - rewrite pretty_N_go_step, IH by (done || by apply N.div_lt).
    cbn [digitsOf].
    destruct (pretty_N_char_digit (x `mod` 10)) as [Hdigit _];
      [by apply N.mod_upper_bound|].
    rewrite Hdigit. symmetry. by apply pretty_N_go_step.
  - assert (x = 0%N) as -> by lia. by rewrite !pretty_N_go_0.
Qed.

Lemma idNumber_label n : 0 < n → idNumber ("A" +:+ numberToString n) = n.
Proof.
  destruct n as [|p|p]; [done| |done]. intros _.
  unfold idNumber, numberToString, pretty, pretty_Z, pretty, pretty_positive,
    pretty, pretty_N.
  rewrite decide_False by done. rewrite append_cons, append_empty.
  cbn [digitsOf]. change (isDigit "A") with false. cbn iota.
  rewrite digitsOf_pretty_N_go. cbn [digitsOf].
  by rewrite parseDigits_pretty_N_go.
Qed.

Lemma foldl_max_ge (ids : list string) (start : Z) :
  start ≤ foldl (λ max id, Z.max max (idNumber id)) start ids
  ∧ ∀ id, id ∈ ids → idNumber id ≤ foldl (λ max id, Z.max max (idNumber id)) start ids.
Proof.
  revert start. induction ids as [|x ids IH]; intros start; simpl.
  - split; [done|]. by intros id ?%elem_of_nil.
  - destruct (IH (Z.max start (idNumber x))) as [Hge Hall]. split; [lia|].
    intros id [->|Hin]%elem_of_cons; [lia|by apply Hall].
Qed.

(** X25.  The id that [generateId] makes is the id of no activity, as long as
    the numbers in the ids are below 2^53 - 1. *)
Theorem generated_id_is_fresh (ids : list string) :
  Forall (λ id, idNumber id < 2 ^ 53 - 1) ids →
  (generateId ids ∉ ids)
  ∧ idNumber (generateId ids) = foldl (λ max id, Z.max max (idNumber id)) 0 ids + 1
  ∧ Forall (λ id, idNumber id < idNumber (generateId ids)) ids.
Proof.
  intros _. destruct (foldl_max_ge ids 0) as [Hge Hall].
  assert (idNumber (generateId ids)
          = foldl (λ max id, Z.max max (idNumber id)) 0 ids + 1) as Hnum.
  { unfold generateId. apply idNumber_label. lia. }
  assert (Forall (λ id, idNumber id < idNumber (generateId ids)) ids) as Hless.
  { apply Forall_forall. intros id Hid. rewrite Hnum. specialize (Hall id Hid). lia. }
  split_and!; [|done..].
  intros Hin. rewrite Forall_forall in Hless. specialize (Hless _ Hin). lia.
Qed.

Lemma generated_id_is_fresh_witness :
  Forall (λ id, idNumber id < 2 ^ 53 - 1) ["A1"; "A10"; "B7"; "x"]
  ∧ generateId ["A1"; "A10"; "B7"; "x"] ∉ ["A1"; "A10"; "B7"; "x"].
Proof.
  assert (Forall (λ id, idNumber id < 2 ^ 53 - 1) ["A1"; "A10"; "B7"; "x"]) as Hsmall.
  { repeat constructor; vm_compute; reflexivity. }
  split; [exact Hsmall|]. apply (generated_id_is_fresh _ Hsmall).
Defined.

Lemma links_point_back_acyclic (acts : list Raw.Activity) :
  NoDup (map Raw.id acts) → LinksPointBack acts →
  ¬ Cyclic (map normalizeActivity acts).
Proof.
  intros Hnd Hback [x Hx].
  assert (∀ x y, tc (waitsFor (map normalizeActivity acts)) x y →
            ∃ i j : nat, (j < i)%nat ∧ map Raw.id acts !! i = Some x
                         ∧ map Raw.id acts !! j = Some y) as Hrank.
  { clear x Hx. intros x y Htc.
    assert (∀ x y, waitsFor (map normalizeActivity acts) x y →
              ∃ i j : nat, (j < i)%nat ∧ map Raw.id acts !! i = Some x
                           ∧ map Raw.id acts !! j = Some y) as Hstep.
    { clear x y Htc. intros x y (e & He & <- & <-).
      apply elem_of_edgesOf in He as (a & d & Ha & Hd & Hin & ->).
      cbn [fst snd successorId].
      apply list_elem_of_fmap in Ha as (raw & -> & Hraw).
      apply list_elem_of_lookup in Hraw as (i & Hi).
      rewrite normalized_ids in Hin.
      destruct (Hback i raw d Hi Hd Hin) as (j & b & Hji & Hj & Hb).
      exists i, j. split_and!; [done|..].
      - by rewrite list_lookup_fmap, Hi.
      - by rewrite list_lookup_fmap, Hj, <- Hb. }
    induction Htc as [x y Hxy|x z y Hxz _ IH]; [by apply Hstep|].
    destruct (Hstep x z Hxz) as (i & j & Hji & Hi & Hj).
    destruct IH as (j' & k & Hkj & Hj' & Hk).
    assert (j = j') as <- by (by apply (NoDup_lookup _ _ _ z Hnd)).
    exists i, k. split_and!; [lia|done..]. }
  destruct (Hrank x x Hx) as (i & j & Hji & Hi & Hj).
  assert (i = j) by (by apply (NoDup_lookup _ _ _ x Hnd)). lia.
Qed.

Lemma acyclic_input_takes_cpm_branch (acts : list Raw.Activity) :
  NoDup (map Raw.id acts) → ¬ Cyclic (map normalizeActivity acts) →
  ∃ order,
    topologicalOrder (map normalizeActivity acts) = Some order
    ∧ order ≡ₚ map Raw.id acts
    ∧ calculateSchedule acts = Some (criticalPath (map normalizeActivity acts) order).
Proof.
  intros Hnd Hacyclic.
  destruct (calculateSchedule_total acts) as (order & Horder & Hspec & Hresult).
  pose proof (TopologicalOrder_length _ order Hspec) as Hle.
  assert (length order = length (map normalizeActivity acts)) as Hlen.
  { destruct (decide (length order = length (map normalizeActivity acts)))
      as [|Hne]; [done|].
    destruct Hacyclic. apply (short_order_cycle _ order Hspec); [|lia].
    by rewrite normalized_ids. }
  exists order. split_and!; [done| |].
  - rewrite <- normalized_ids. by apply (TopologicalOrder_complete _ order Hspec).
  - rewrite Hresult, decide_False; [done|]. rewrite length_map in Hlen. by intros ?.
Qed.

(** X26.  An input with distinct ids in which every link points back to an
    earlier activity takes the CPM branch: Kahn's order holds every id. *)
Theorem input_in_dependency_order_never_falls_back (acts : list Raw.Activity) :
  NoDup (map Raw.id acts) → LinksPointBack acts →
  ∃ order,
    topologicalOrder (map normalizeActivity acts) = Some order
    ∧ order ≡ₚ map Raw.id acts
    ∧ calculateSchedule acts = Some (criticalPath (map normalizeActivity acts) order).
Proof.
  intros Hnd Hback.
  by apply acyclic_input_takes_cpm_branch, links_point_back_acyclic.
Qed.

Lemma input_in_dependency_order_never_falls_back_witness :
  NoDup (map Raw.id diamond) ∧ LinksPointBack diamond
  ∧ ∃ order,
      topologicalOrder (map normalizeActivity diamond) = Some order
      ∧ order ≡ₚ map Raw.id diamond
      ∧ calculateSchedule diamond
        = Some (criticalPath (map normalizeActivity diamond) order).
Proof.
  assert (NoDup (map Raw.id diamond)) as Hnd.
  { apply (bool_decide_unpack _). vm_compute. exact I. }
  assert (LinksPointBack diamond) as Hback.
  { intros i a d Hi Hd _.
    destruct i as [|[|[|[|i]]]]; simpl in Hi; [injection Hi as <-..|done];
      vm_compute in Hd.
    - by apply elem_of_nil in Hd.
    - apply list_elem_of_singleton in Hd as ->. exists 0%nat. eexists.
      split_and!; [lia|done..].
    - apply list_elem_of_singleton in Hd as ->. exists 0%nat. eexists.
      split_and!; [lia|done..].
    - apply elem_of_cons in Hd as [->|Hd%list_elem_of_singleton].
      + exists 1%nat. eexists. split_and!; [lia|done..].
      + subst d. exists 2%nat. eexists. split_and!; [lia|done..]. }
  split_and!; [done..|].
  by apply input_in_dependency_order_never_falls_back.
Defined.

Example buildDeterministicSchedule_example :
  map (λ a, (Draft.id a, Draft.name a, Draft.dependencies a))
    (buildDeterministicSchedule (λ _, 3) (λ _, "") classifiedExample)
  = [ ("A1", "Site Preparation & Mobilization", []);
      ("A2", "Excavation", [ {| activityId := "A1"; type := FS; lagDays := Some 0 |} ]);
      ("A3", "Footing / Foundation",
       [ {| activityId := "A2"; type := FS; lagDays := Some 0 |} ]);
      ("A4", "Masonry / Brickwork",
       [ {| activityId := "A3"; type := FS; lagDays := Some 0 |} ]) ].
Proof. vm_compute. reflexivity. Qed.

Lemma insertByOrder_Forall (P : CategoryAggregate → Prop) entry sorted :
  P entry → Forall P sorted → Forall P (insertByOrder entry sorted).
Proof.
  intros He. induction 1 as [|other rest Ho Hrest IH]; simpl; [by repeat constructor|].
  case_decide; by repeat constructor.
Qed.

Lemma sortByOrder_Forall (P : CategoryAggregate → Prop) entries :
  Forall P entries → Forall P (sortByOrder entries).
Proof.
  induction 1 as [|e l He Hl IH]; simpl; [constructor|]. by apply insertByOrder_Forall.
Qed.

Lemma insertByOrder_sorted entry sorted :
  StronglySorted byOrder sorted → StronglySorted byOrder (insertByOrder entry sorted).
Proof.
  induction 1 as [|other rest Hrest IH Hall]; simpl; [repeat constructor|].
  case_decide as Hle.
  - constructor; [by constructor|]. constructor; [done|].
    eapply Forall_impl; [exact Hall|]. unfold byOrder in *. intros; simpl in *; lia.
  - constructor; [done|]. apply insertByOrder_Forall; [|done]. unfold byOrder. lia.
Qed.

Lemma sortByOrder_sorted entries : StronglySorted byOrder (sortByOrder entries).
Proof.
  induction entries as [|e l IH]; simpl; [constructor|]. by apply insertByOrder_sorted.
Qed.

Lemma orderedGet_elem {V} (m : list (string * V)) k v :
  orderedGet m k = Some v → (k, v) ∈ m.
Proof.
  induction m as [|[k' v'] m IH]; simpl; [done|].
  case_decide as Hk; [intros [= ->]; subst; left|right; auto].
Qed.

Lemma orderedSet_Forall {V} (P : string * V → Prop) (m : list (string * V)) k v :
  Forall P m → P (k, v) → Forall P (orderedSet m k v).
Proof.
  intros Hm Hkv. induction Hm as [|[k' v'] m Hx Hm IH]; simpl; [by repeat constructor|].
  case_decide; subst; by constructor.
Qed.

Lemma aggregates_from_table classified :
  (∀ c, Some c ∈ classified → c ∈ CATEGORY_DEFINITIONS) →
  Forall (λ kv, category kv.2 ∈ CATEGORY_DEFINITIONS) (foldl aggregateItem [] classified).
Proof.
  intros Hcls.
  assert (∀ m, Forall (λ kv : string * CategoryAggregate,
                         category kv.2 ∈ CATEGORY_DEFINITIONS) m →
               Forall (λ kv, category kv.2 ∈ CATEGORY_DEFINITIONS)
                 (foldl aggregateItem m classified)) as H; [|by apply H].
  induction classified as [|o l IH]; intros m Hm; simpl; [done|].
  apply IH; [intros c Hc; apply Hcls; by right|].
  destruct o as [c|]; simpl; [|done].
  assert (c ∈ CATEGORY_DEFINITIONS) by (apply Hcls; left).
  destruct (orderedGet m (Category.id c)) as [current|] eqn:Hget.
  - apply orderedSet_Forall; [done|]. simpl.
    apply orderedGet_elem in Hget. rewrite Forall_forall in Hm. by apply (Hm _ Hget).
  - by apply orderedSet_Forall.
Qed.

Lemma table_orders_from_one :
  Forall (λ c, 1 ≤ Category.order c ∧ Category.id c ≠ "") CATEGORY_DEFINITIONS.
Proof. apply (bool_decide_unpack _). vm_compute. exact I. Qed.

Lemma table_rules_point_down :
  Forall (λ c,
            Forall (λ r,
                      Forall (λ p, Category.id p = Rule.predecessor r →
                                   Category.order p < Category.order c)
                        CATEGORY_DEFINITIONS)
              (default [] (orderedGet DEPENDENCY_RULES (Category.id c))))
    CATEGORY_DEFINITIONS.
Proof. apply (bool_decide_unpack _). vm_compute. exact I. Qed.

Lemma selectCategories_sorted classified :
  (∀ c, Some c ∈ classified → c ∈ CATEGORY_DEFINITIONS) →
  Forall (λ entry, category entry ∈ CATEGORY_DEFINITIONS) (selectCategories classified)
  ∧ StronglySorted byOrder (selectCategories classified).
Proof.
  intros Hcls. unfold selectCategories.
  set (sorted := sortByOrder _).
  assert (Forall (λ entry, category entry ∈ CATEGORY_DEFINITIONS) sorted) as Hall.
  { apply sortByOrder_Forall, Forall_fmap.
    eapply Forall_impl; [by apply aggregates_from_table|]. by intros [k v]. }
  assert (StronglySorted byOrder sorted) as Hsorted by apply sortByOrder_sorted.
  cbv zeta. destruct (_ && negb _); [|done].
  simpl. split.
  - constructor; [|done]. simpl. apply (bool_decide_unpack _). vm_compute. exact I.
  - constructor; [done|]. eapply Forall_impl; [exact Hall|].
    intros e He. unfold byOrder. simpl.
    pose proof table_orders_from_one as Ht. rewrite Forall_forall in Ht.
    by apply Ht.
Qed.

Lemma activityIdByCategory_lookup selectedCategories p predecessorId :
  orderedGet (activityIdByCategory selectedCategories) p = Some predecessorId →
  ∃ (j : nat) e, selectedCategories !! j = Some e
                 ∧ Category.id (category e) = p
                 ∧ predecessorId = indexLabel "A" j.
Proof.
  unfold activityIdByCategory. intros Hget.
  assert (∀ (L : list (nat * CategoryAggregate)) m,
            orderedGet
              (foldl (λ m entry, orderedSet m (Category.id (category entry.2))
                                   (indexLabel "A" entry.1)) m L) p
            = Some predecessorId →
            orderedGet m p = Some predecessorId
            ∨ ∃ je, je ∈ L ∧ Category.id (category je.2) = p
                    ∧ predecessorId = indexLabel "A" je.1) as H.
  { induction L as [|[j e] L IH]; intros m Hm; simpl in *; [by left|].
    destruct (IH _ Hm) as [Hhere|(je & Hje & ? & ?)].
    - rewrite orderedGet_set in Hhere. case_decide as Hk.
      + injection Hhere as <-. right. exists (j, e). split; [left|done].
      + by left.
    - right. exists je. split; [by right|done]. }
  destruct (H _ _ Hget) as [Hnil|([j e] & Hje & ? & ?)]; [done|].
  apply elem_of_lookup_imap in Hje as (i & x & [= -> ->] & Hi). eauto.
Qed.

Lemma sorted_lookup_le (l : list CategoryAggregate) (i j : nat) a b :
  StronglySorted byOrder l → l !! i = Some a → l !! j = Some b → (i < j)%nat →
  byOrder a b.
Proof.
  intros Hs. revert i j. induction Hs as [|x l Hs IH Hall]; intros i j Hi Hj Hij; [done|].
  destruct i as [|i], j as [|j]; simpl in *; try lia.
  - injection Hi as ->. rewrite Forall_forall in Hall. apply Hall.
    by eapply list_elem_of_lookup_2.
  - apply (IH i j); [done..|lia].
Qed.

Lemma ruleDependencies_point_back selectedCategories (idx : nat) entry d :
  Forall (λ entry, category entry ∈ CATEGORY_DEFINITIONS) selectedCategories →
  StronglySorted byOrder selectedCategories →
  selectedCategories !! idx = Some entry →
  d ∈ ruleDependencies (activityIdByCategory selectedCategories) (indexLabel "A" idx)
        (Category.id (category entry)) →
  is_Some (lagDays d) ∧ ∃ j : nat, (j < idx)%nat ∧ activityId d = indexLabel "A" j.
Proof.
  intros Hall Hsorted Hidx. unfold ruleDependencies.
  rewrite list_elem_of_omap. intros (r & Hr & Hd).
  destruct (orderedGet _ (Rule.predecessor r)) as [pid|] eqn:Hget; [|done].
  case_decide; [done|]. injection Hd as <-. simpl. split; [eauto|].
  apply activityIdByCategory_lookup in Hget as (j & e & Hj & Hp & ->).
  exists j. split; [|done].
  rewrite Forall_forall in Hall.
  assert (category entry ∈ CATEGORY_DEFINITIONS) as Hc
    by (eapply Hall, list_elem_of_lookup_2, Hidx).
  assert (category e ∈ CATEGORY_DEFINITIONS) as He
    by (eapply Hall, list_elem_of_lookup_2, Hj).
  pose proof table_rules_point_down as Ht.
  rewrite Forall_forall in Ht. specialize (Ht _ Hc).
  rewrite Forall_forall in Ht. specialize (Ht _ Hr).
  rewrite Forall_forall in Ht. specialize (Ht _ He Hp).
  destruct (decide (j < idx)%nat) as [|Hge]; [done|].
  destruct (decide (j = idx)) as [->|Hne].
  - rewrite Hidx in Hj. injection Hj as ->. lia.
  - pose proof (sorted_lookup_le _ idx j _ _ Hsorted Hidx Hj ltac:(lia)) as Hle.
    unfold byOrder in Hle. lia.
Qed.

Lemma normalize_typed (D : list SchedulerDependency) :
  Forall (λ d, activityId d ≠ "" ∧ trim (activityId d) = activityId d
               ∧ is_Some (lagDays d)) D →
  normalizeActivityDependencies (Some (map rawDependency D)) (Some []) = keepFirst D.
Proof.
  intros HD. rewrite normalizeActivityDependencies_closed. unfold candidateDependencies.
  cbn [default from_option Datatypes.id].
  rewrite omap_coerce_rawDependency by done. simpl. by rewrite app_nil_r.
Qed.

Section DeterministicFacts.
Context (estimateDurationDays : CategoryAggregate → Z) (notesOf : CategoryAggregate → string).
Context (selectedCategories : list CategoryAggregate).
Hypothesis Hall :
  Forall (λ entry, category entry ∈ CATEGORY_DEFINITIONS) selectedCategories.
Hypothesis Hsorted : StronglySorted byOrder selectedCategories.

Lemma deterministicActivity_links (idx : nat) entry :
  selectedCategories !! idx = Some entry →
  let a := deterministicActivity estimateDurationDays notesOf selectedCategories idx entry in
  Draft.id a = indexLabel "A" idx
  ∧ ((0 < idx)%nat → Draft.dependencies a ≠ [])
  ∧ (∀ d, d ∈ Draft.dependencies a →
          ∃ j : nat, (j < idx)%nat ∧ activityId d = indexLabel "A" j).
Proof.
  intros Hidx. unfold deterministicActivity. cbv zeta. cbn [Draft.id Draft.dependencies].
  split; [done|].
  assert (Category.id (category entry) ≠ "") as Hid.
  { pose proof table_orders_from_one as Ht. rewrite Forall_forall in Ht.
    rewrite Forall_forall in Hall.
    apply Ht, Hall. by eapply list_elem_of_lookup_2. }
  rewrite decide_False by done.
  set (fromRules := ruleDependencies _ _ _).
  set (D := match fromRules with [] => _ | _ => _ end).
  assert (∀ d, d ∈ D → is_Some (lagDays d)
                       ∧ ∃ j : nat, (j < idx)%nat ∧ activityId d = indexLabel "A" j) as HD.
  { intros d Hd. subst D. destruct fromRules as [|d0 rest] eqn:Hrules.
    - destruct idx as [|previous]; [by apply elem_of_nil in Hd|].
      apply list_elem_of_singleton in Hd as ->. simpl. split; [eauto|].
      exists previous. split; [lia|done].
    - assert (d ∈ fromRules) as Hin by (by rewrite Hrules).
      by apply (ruleDependencies_point_back selectedCategories idx entry). }
  assert (Forall (λ d, activityId d ≠ "" ∧ trim (activityId d) = activityId d
                       ∧ is_Some (lagDays d)) D) as Hwf.
  { apply Forall_forall. intros d (Hlag & j & _ & ->)%HD.
    destruct (indexLabel_clean "A" j) as [? ?]; done. }
  rewrite normalize_typed by done. split.
  - intros Hpos Hnil.
    assert (D ≠ []) as Hne.
    { subst D. destruct fromRules; [|done]. destruct idx; [lia|done]. }
    destruct D; [done|]. by simpl in Hnil.
  - intros d Hd. rewrite keepFirst_elem in Hd. by apply HD in Hd as [_ ?].
Qed.

End DeterministicFacts.

(** X27.  Whatever the estimated durations are, the activities of the
    deterministic schedule are [A1], [A2], ... in this order, every one of
    them but the first has a dependency, and every dependency names an
    activity that comes earlier in the list; the categories of the items
    are taken from the table, as [classifyItem] does. *)
Theorem deterministic_schedule_links_point_back
    (estimateDurationDays : CategoryAggregate → Z) (notesOf : CategoryAggregate → string)
    (classified : list (option Category.CategoryDefinition)) :
  (∀ c, Some c ∈ classified → c ∈ CATEGORY_DEFINITIONS) →
  let schedule := buildDeterministicSchedule estimateDurationDays notesOf classified in
  schedule ≠ []
  ∧ map Draft.id schedule = map (indexLabel "A") (seq 0 (length schedule))
  ∧ (∀ (i : nat) a, schedule !! i = Some a → (0 < i)%nat → Draft.dependencies a ≠ [])
  ∧ (∀ (i : nat) a d, schedule !! i = Some a → d ∈ Draft.dependencies a →
       ∃ j : nat, (j < i)%nat ∧ activityId d = indexLabel "A" j).
Proof.
  intros Hcls. cbv zeta. unfold buildDeterministicSchedule.
  destruct (selectCategories_sorted classified Hcls) as [Hall Hsorted].
  destruct (selectCategories classified) as [|first others] eqn:Hsel.
  - split_and!; [done|done|..].
    + intros [|i] a Hi; [lia|done].
    + intros [|i] a d Hi Hd; [|done]. injection Hi as <-. by apply elem_of_nil in Hd.
  - set (sel := first :: others) in *.
    assert (∀ (i : nat) a,
              imap (deterministicActivity estimateDurationDays notesOf sel) sel !! i = Some a →
              ∃ entry, sel !! i = Some entry
                       ∧ a = deterministicActivity estimateDurationDays notesOf sel i entry)
      as Hlook.
    { intros i a Hi. rewrite list_lookup_imap in Hi.
      destruct (sel !! i) as [entry|]; [|done]. injection Hi as <-. eauto. }
    split_and!.
    + done.
    + apply list_eq. intros i. rewrite !list_lookup_fmap, length_imap.
      rewrite list_lookup_imap.
      destruct (sel !! i) as [entry|] eqn:Hi.
      * rewrite lookup_seq_lt by (by eapply lookup_lt_Some). done.
      * rewrite lookup_seq_ge; [done|]. by apply lookup_ge_None.
    + intros i a (entry & Hi & ->)%Hlook.
      by apply (deterministicActivity_links _ _ sel Hall Hsorted i entry).
    + intros i a d (entry & Hi & ->)%Hlook.
      by apply (deterministicActivity_links _ _ sel Hall Hsorted i entry).
Qed.

Lemma deterministic_schedule_links_point_back_witness :
  (∀ c, Some c ∈ classifiedExample → c ∈ CATEGORY_DEFINITIONS)
  ∧ let schedule := buildDeterministicSchedule (λ _, 3) (λ _, "") classifiedExample in
    schedule ≠ []
    ∧ map Draft.id schedule = map (indexLabel "A") (seq 0 (length schedule))
    ∧ (∀ (i : nat) a, schedule !! i = Some a → (0 < i)%nat → Draft.dependencies a ≠ [])
    ∧ (∀ (i : nat) a d, schedule !! i = Some a → d ∈ Draft.dependencies a →
         ∃ j : nat, (j < i)%nat ∧ activityId d = indexLabel "A" j).
Proof.
  assert (∀ c, Some c ∈ classifiedExample → c ∈ CATEGORY_DEFINITIONS) as Hcls.
  { intros c Hc.
    assert (Forall (λ c, c ∈ CATEGORY_DEFINITIONS) (omap (λ o, o) classifiedExample)) as H
      by (apply (bool_decide_unpack _); vm_compute; exact I).
    rewrite Forall_forall in H. apply H, list_elem_of_omap. by exists (Some c). }
  split; [exact Hcls|].
  exact (deterministic_schedule_links_point_back (λ _, 3) (λ _, "") classifiedExample Hcls).
Defined.

Lemma indexLabel_inj (prefix : string) (i j : nat) :
  indexLabel prefix i = indexLabel prefix j → i = j.
Proof.
  unfold indexLabel, numberToString. intros H.
  apply (inj (String.app prefix)) in H. apply (inj pretty) in H. lia.
Qed.

Lemma normalize_typed_elem (D : list SchedulerDependency) (P : list string) d :
  Forall (λ d, activityId d ≠ "" ∧ trim (activityId d) = activityId d
               ∧ is_Some (lagDays d)) D →
  Forall (λ x, x ≠ "" ∧ trim x = x) P →
  d ∈ normalizeActivityDependencies (Some (map rawDependency D)) (Some (map JsString P)) →
  d ∈ D ∨ activityId d ∈ P.
Proof.
  intros HD HP. rewrite normalizeActivityDependencies_closed, keepFirst_elem.
  unfold candidateDependencies. cbn [default from_option Datatypes.id].
  rewrite omap_coerce_rawDependency, omap_coerce_fsLink by done.
  intros [?|(x & -> & Hx)%list_elem_of_fmap]%elem_of_app; [by left|by right].
Qed.

Lemma renormalized_in_order (i : nat) (a : Draft.Activity) d :
  DraftInOrder i a →
  d ∈ normalizeActivityDependencies (Some (map rawDependency (Draft.dependencies a)))
        (Some (map JsString (Draft.predecessors a))) →
  (activityId d ≠ "" ∧ trim (activityId d) = activityId d ∧ is_Some (lagDays d))
  ∧ ∃ j : nat, (j < i)%nat ∧ activityId d = indexLabel "A" j.
Proof.
  intros (Hid & Hwf & Hpreds & Hback) Hd. split; [by eapply normalized_wf|].
  apply normalize_typed_elem in Hd as [Hd|Hd]; [by apply Hback|..|done|].
  - rewrite Hpreds in Hd. apply derive_elem in Hd as (_ & d0 & Hd0 & Heq).
    rewrite Forall_forall in Hwf. destruct (Hwf d0 Hd0) as (_ & Htrim & _).
    rewrite <- Heq, Htrim. by apply Hback.
  - rewrite Hpreds. apply derive_wf.
Qed.

Lemma deterministic_in_order estimateDurationDays notesOf classified (i : nat) a :
  (∀ c, Some c ∈ classified → c ∈ CATEGORY_DEFINITIONS) →
  buildDeterministicSchedule estimateDurationDays notesOf classified !! i = Some a →
  DraftInOrder i a.
Proof.
  intros Hcls. unfold buildDeterministicSchedule.
  destruct (selectCategories_sorted classified Hcls) as [Hall Hsorted].
  destruct (selectCategories classified) as [|first others] eqn:Hsel.
  - destruct i as [|i]; [|done]. intros [= <-]. split_and!; try done.
    intros d Hd. by apply elem_of_nil in Hd.
  - set (sel := first :: others) in *. rewrite list_lookup_imap.
    destruct (sel !! i) as [entry|] eqn:Hi; [|done]. intros [= <-].
    destruct (deterministicActivity_links estimateDurationDays notesOf sel Hall Hsorted
                i entry Hi) as (Hid & _ & Hback).
    assert (Category.id (category entry) ≠ "") as Hcat.
    { pose proof table_orders_from_one as Ht. rewrite Forall_forall in Ht.
      rewrite Forall_forall in Hall. apply Ht, Hall. by eapply list_elem_of_lookup_2. }
    split_and!; [done| | |done].
    + unfold deterministicActivity. cbv zeta. cbn [Draft.dependencies].
      rewrite decide_False by done. apply Forall_forall. intros d Hd.
      by eapply normalized_wf.
    + unfold deterministicActivity. cbv zeta. cbn [Draft.dependencies Draft.predecessors].
      by rewrite !decide_False by done.
Qed.

Lemma sanitized_in_order fallback (i : nat) a a' :
  DraftInOrder i a →
  sanitizeEntry fallback i (draftAsParsed a) = Some a' →
  DraftInOrder i a'.
Proof.
  intros Ha. pose proof Ha as (Hid & Hwf & Hpreds & Hback).
  unfold sanitizeEntry, draftAsParsed. intros [= <-].
  destruct (indexLabel_clean "A" i) as [HA HAt]; [done..|].
  unfold DraftInOrder. cbn [Draft.id Draft.dependencies Draft.predecessors].
  split_and!.
  - rewrite Hid. unfold trimmedOr. by rewrite HAt, decide_False.
  - apply Forall_forall. intros d [_ Hd]%list_elem_of_filter. by eapply normalized_wf.
  - done.
  - intros d [_ Hd]%list_elem_of_filter.
    by apply (renormalized_in_order i a d Ha).
Qed.

Lemma keepValidIds_in_order validIds (i : nat) a :
  DraftInOrder i a → DraftInOrder i (keepValidIds validIds a).
Proof.
  intros (Hid & Hwf & Hpreds & Hback). unfold DraftInOrder, keepValidIds.
  cbn [Draft.id Draft.dependencies Draft.predecessors]. split_and!; [done| |done|].
  - rewrite Forall_forall in Hwf. apply Forall_forall.
    intros d [_ Hd]%list_elem_of_filter. by apply Hwf.
  - intros d [_ Hd]%list_elem_of_filter. by apply Hback.
Qed.

Lemma sanitizeEntries_in_order fallback (items : list Draft.Activity) (idx : nat) :
  (∀ (k : nat) a, items !! k = Some a → DraftInOrder (idx + k) a) →
  ∃ draft,
    sanitizeEntries fallback idx (map draftAsParsed items) = Some draft
    ∧ length draft = length items
    ∧ ∀ (k : nat) a, draft !! k = Some a → DraftInOrder (idx + k) a.
Proof.
  revert idx. induction items as [|a items IH]; intros idx Hitems.
  - exists []. split_and!; done.
  - cbn [map sanitizeEntries].
    destruct (sanitizeEntry fallback idx (draftAsParsed a)) as [a'|] eqn:Ha'; [|done].
    destruct (IH (S idx)) as (rest & -> & Hlen & Hrest).
    { intros k b Hk. replace (S idx + k)%nat with (idx + S k)%nat by lia.
      by apply Hitems. }
    exists (a' :: rest). split_and!; [done|simpl; by rewrite Hlen|].
    intros [|k] b; simpl.
    + intros [= <-]. rewrite Nat.add_0_r. apply (sanitized_in_order fallback idx a); [|done].
      specialize (Hitems 0%nat a eq_refl). by rewrite Nat.add_0_r in Hitems.
    + intros Hk. replace (idx + S k)%nat with (S idx + k)%nat by lia. by apply Hrest.
Qed.

Lemma sanitizeActivities_in_order (items : list Draft.Activity) :
  (∀ (k : nat) a, items !! k = Some a → DraftInOrder k a) →
  ∃ drafts,
    sanitizeActivities (Some (map draftAsParsed items)) items = Some drafts
    ∧ length drafts = length items
    ∧ ∀ (k : nat) a, drafts !! k = Some a → DraftInOrder k a.
Proof.
  intros Hitems. unfold sanitizeActivities.
  destruct items as [|a items]; [by exists []|].
  destruct (sanitizeEntries_in_order (a :: items) (a :: items) 0 Hitems)
    as (draft & Hdraft & Hlen & Hall).
  cbn [map] in *. rewrite Hdraft. cbn [mbind option_bind].
  eexists. split; [done|]. split; [by rewrite length_map|].
  intros k b. rewrite list_lookup_fmap.
  destruct (draft !! k) as [b'|] eqn:Hk; [|done]. intros [= <-].
  by apply keepValidIds_in_order, Hall.
Qed.

Lemma routed_in_order (drafts : list Draft.Activity) :
  (∀ (k : nat) a, drafts !! k = Some a → DraftInOrder k a) →
  map Raw.id (imap routeNormalizeItem drafts) = map Draft.id drafts
  ∧ NoDup (map Draft.id drafts)
  ∧ LinksPointBack (imap routeNormalizeItem drafts).
Proof.
  intros Hall.
  assert (∀ (k : nat) a, drafts !! k = Some a →
            Raw.id (routeNormalizeItem k a) = indexLabel "A" k) as Hids.
  { intros k a (Hid & _)%Hall. unfold routeNormalizeItem. cbn [Raw.id].
    destruct (indexLabel_clean "A" k) as [HA HAt]; [done..|].
    by rewrite Hid, HAt, decide_False. }
  split_and!.
  - apply list_eq. intros k. rewrite !list_lookup_fmap, list_lookup_imap.
    destruct (drafts !! k) as [a|] eqn:Hk; [|done].
    change (Some (Raw.id (routeNormalizeItem k a)) = Some (Draft.id a)).
    rewrite (Hids k a Hk). by destruct (Hall k a Hk) as (-> & _).
  - apply NoDup_alt. intros i j x. rewrite !list_lookup_fmap.
    destruct (drafts !! i) as [a|] eqn:Hi; [|done].
    destruct (drafts !! j) as [b|] eqn:Hj; [|done]. simpl. intros [= <-] [= Heq].
    destruct (Hall i a Hi) as (Ha & _). destruct (Hall j b Hj) as (Hb & _).
    rewrite Ha, Hb in Heq. symmetry. by apply (indexLabel_inj "A").
  - intros i r d Hi Hd _. rewrite list_lookup_imap in Hi.
    destruct (drafts !! i) as [a|] eqn:Ha; [|done]. injection Hi as <-.
    unfold normalizeActivity in Hd. cbn [dependencies] in Hd.
    apply list_elem_of_filter in Hd as [_ Hd].
    unfold routeNormalizeItem in Hd. cbn [Raw.dependencies Raw.predecessors] in Hd.
    set (stored := normalizeActivityDependencies
                     (Some (map rawDependency (Draft.dependencies a)))
                     (Some (map JsString (Draft.predecessors a)))) in Hd.
    assert (∀ d', d' ∈ stored →
              (activityId d' ≠ "" ∧ trim (activityId d') = activityId d'
               ∧ is_Some (lagDays d'))
              ∧ ∃ j : nat, (j < i)%nat ∧ activityId d' = indexLabel "A" j) as Hstored.
    { intros d'. by apply (renormalized_in_order i a d'), Hall. }
    apply normalize_typed_elem in Hd as [Hd|Hd].
    + destruct (Hstored d Hd) as (_ & j & Hji & Hj).
      assert (is_Some (drafts !! j)) as [b Hb].
      { apply lookup_lt_is_Some. apply lookup_lt_Some in Ha. lia. }
      exists j, (routeNormalizeItem j b). split_and!; [done| |].
      * by rewrite list_lookup_imap, Hb.
      * by rewrite (Hids j b Hb).
    + apply derive_elem in Hd as (_ & d0 & Hd0 & Heq).
      destruct (Hstored d0 Hd0) as ((_ & Htrim & _) & j & Hji & Hj).
      rewrite Htrim in Heq.
      assert (is_Some (drafts !! j)) as [b Hb].
      { apply lookup_lt_is_Some. apply lookup_lt_Some in Ha. lia. }
      exists j, (routeNormalizeItem j b). split_and!; [done| |].
      * by rewrite list_lookup_imap, Hb.
      * by rewrite (Hids j b Hb), <- Heq.
    + apply Forall_forall. intros d' Hd'. by apply Hstored.
    + apply derive_wf.
Qed.

(** X28.  When no model refines it, the schedule generated from the items is
    scheduled by the route on the CPM branch, never by the sequential
    fallback: [sanitizeActivities] returns activities with the ids of the
    deterministic schedule, and Kahn's order of what the route passes to
    [calculateSchedule] holds every one of them. *)
Theorem unrefined_schedule_launches_on_cpm_branch
    (estimateDurationDays : CategoryAggregate → Z) (notesOf : CategoryAggregate → string)
    (classified : list (option Category.CategoryDefinition)) :
  (∀ c, Some c ∈ classified → c ∈ CATEGORY_DEFINITIONS) →
  ∃ drafts order,
    scheduleWithoutRefinement estimateDurationDays notesOf classified = Some drafts
    ∧ map Draft.id drafts = map (indexLabel "A") (seq 0 (length drafts))
    ∧ topologicalOrder (map normalizeActivity (imap routeNormalizeItem drafts)) = Some order
    ∧ order ≡ₚ map Draft.id drafts
    ∧ routeSchedule drafts
      = Some (criticalPath (map normalizeActivity (imap routeNormalizeItem drafts)) order).
Proof.
  intros Hcls. unfold scheduleWithoutRefinement. cbv zeta.
  set (det := buildDeterministicSchedule estimateDurationDays notesOf classified).
  destruct (sanitizeActivities_in_order det) as (drafts & Hdrafts & Hlen & Hall).
  { intros k a Hk. by apply (deterministic_in_order estimateDurationDays notesOf classified). }
  destruct (routed_in_order drafts Hall) as (Hids & Hnd & Hback).
  destruct (acyclic_input_takes_cpm_branch (imap routeNormalizeItem drafts))
    as (order & Horder & Hperm & Hresult).
  { by rewrite Hids. }
  { apply links_point_back_acyclic; [by rewrite Hids|done]. }
  exists drafts, order. split_and!; [done| |done| |done].
  - apply list_eq. intros k. rewrite !list_lookup_fmap.
    destruct (drafts !! k) as [a|] eqn:Hk; simpl.
    + rewrite lookup_seq_lt by (by eapply lookup_lt_Some). simpl.
      by destruct (Hall k a Hk) as (-> & _).
    + rewrite lookup_seq_ge; [done|]. by apply lookup_ge_None.
  - by rewrite <- Hids.
Qed.

Lemma unrefined_schedule_launches_on_cpm_branch_witness :
  (∀ c, Some c ∈ classifiedExample → c ∈ CATEGORY_DEFINITIONS)
  ∧ ∃ drafts order,
      scheduleWithoutRefinement (λ _, 3) (λ _, "") classifiedExample = Some drafts
      ∧ map Draft.id drafts = map (indexLabel "A") (seq 0 (length drafts))
      ∧ topologicalOrder (map normalizeActivity (imap routeNormalizeItem drafts))
        = Some order
      ∧ order ≡ₚ map Draft.id drafts
      ∧ routeSchedule drafts
        = Some (criticalPath (map normalizeActivity (imap routeNormalizeItem drafts))
                  order).
Proof.
  assert (∀ c, Some c ∈ classifiedExample → c ∈ CATEGORY_DEFINITIONS) as Hcls.
  { intros c Hc.
    assert (Forall (λ c, c ∈ CATEGORY_DEFINITIONS) (omap (λ o, o) classifiedExample)) as H
      by (apply (bool_decide_unpack _); vm_compute; exact I).
    rewrite Forall_forall in H. apply H, list_elem_of_omap. by exists (Some c). }
  split; [exact Hcls|].
  exact (unrefined_schedule_launches_on_cpm_branch (λ _, 3) (λ _, "") classifiedExample Hcls).
Defined.






